(** * ProtobufReader: a shallow embedding of dbms/src/Formats/ProtobufReader.cpp

    The development follows the source file from top to bottom: the byte
    stream the scanner reads from, the wire-format scanner
    [ProtobufReader::SimpleReader], the value converters, and the dispatcher
    [ProtobufReader::readColumnIndex].  Unsigned 64-bit values are integers
    in [0, 2^64) with the wrap-around written out; bytes are [Byte.byte]. *)

From Stdlib Require Import ZArith List Lia Bool String.
From stdpp Require Import base option gmap strings.
Import ListNotations.
Local Open Scope Z_scope.

(** ** Machine integers *)

Definition wrap64 (z : Z) : Z := z mod 2 ^ 64.

(** [static_cast<Int64>] of an unsigned 64-bit value. *)
Definition to_Int64 (z : Z) : Z := if z <? 2 ^ 63 then z else z - 2 ^ 64.

(** [static_cast<UInt64>] of a signed 64-bit value. *)
Definition of_Int64 (z : Z) : Z := wrap64 z.

Definition byte_val (b : Byte.byte) : Z := Z.of_N (Byte.to_N b).

(** A [char] holding byte [b], promoted to [int]: [char] is signed on the
    platforms the program is built for. *)
Definition char_to_int (b : Byte.byte) : Z :=
  if byte_val b <? 128 then byte_val b else byte_val b - 256.

(** [static_cast<UInt64>(c)] for a [char c]: sign extension. *)
Definition char_to_UInt64 (b : Byte.byte) : Z := wrap64 (char_to_int b).

(** ** Exceptions and the result of a call *)

Inductive Exception : Type :=
| UnknownFormat   (* ErrorCodes::UNKNOWN_PROTOBUF_FORMAT *)
| BadCast         (* ErrorCodes::PROTOBUF_BAD_CAST *)
| IOError.        (* raised by the byte stream *)

(** A call returns a value and the new state, throws, or has undefined
    behaviour (dereferencing an empty [std::optional]).  [OutOfFuel] is not a
    behaviour of the program: it marks a [while (true)] loop of the model
    that was given too few iterations. *)
Inductive Res (St A : Type) : Type :=
| Ok (a : A) (s : St)
| Throw (e : Exception)
| Undefined
| OutOfFuel.
Arguments Ok {St A} a s.
Arguments Throw {St A} e.
Arguments Undefined {St A}.
Arguments OutOfFuel {St A}.

Definition M (St A : Type) : Type := St -> Res St A.

Definition ret {St A} (a : A) : M St A := fun s => Ok a s.
Definition bind {St A B} (m : M St A) (k : A -> M St B) : M St B :=
  fun s => match m s with
           | Ok a s' => k a s'
           | Throw e => Throw e
           | Undefined => Undefined
           | OutOfFuel => OutOfFuel
           end.
Definition throw {St A} (e : Exception) : M St A := fun _ => Throw e.
Definition get {St} : M St St := fun s => Ok s s.
Definition put {St} (s : St) : M St unit := fun _ => Ok tt s.
Definition modify {St} (f : St -> St) : M St unit := fun s => Ok tt (f s).
Definition out_of_fuel {St A} : M St A := fun _ => OutOfFuel.

Notation "'do' x <- m ; k" := (bind m (fun x => k))
  (at level 10, x name, m at level 100, k at level 200).
Notation "'run' m ; k" := (bind m (fun _ => k))
  (at level 10, m at level 100, k at level 200).

(** ** The byte stream

    Modelled from the spec: IO/ReadBuffer.h is not part of the sources.  The
    stream offers [eof], a strict read, [ignore], the offset in the current
    in-memory buffer and a rewind bounded by that offset.  The stream is a
    current buffer with a read offset, followed by the buffers still to be
    loaded. *)

Record ReadBuffer : Type := mkReadBuffer {
  working_buffer : list Byte.byte;
  offset : nat;
  next_buffers : list (list Byte.byte)
}.

(** The bytes not yet consumed. *)
Definition unread (rb : ReadBuffer) : list Byte.byte :=
  skipn (offset rb) (working_buffer rb) ++ concat (next_buffers rb).

Fixpoint load_next (w : list Byte.byte) (off : nat) (later : list (list Byte.byte))
  : ReadBuffer :=
  match later with
  | [] => mkReadBuffer w off []
  | w' :: later' =>
      match w' with
      | [] => load_next w off later'
      | _ :: _ => mkReadBuffer w' 0 later'
      end
  end.

(** Makes data pending in the current buffer when there is any left. *)
Definition fill (rb : ReadBuffer) : ReadBuffer :=
  if (offset rb <? length (working_buffer rb))%nat then rb
  else load_next (working_buffer rb) (offset rb) (next_buffers rb).

Definition rb_eof (rb : ReadBuffer) : bool * ReadBuffer :=
  let rb' := fill rb in
  (negb (offset rb' <? length (working_buffer rb'))%nat, rb').

Definition rb_read_byte (rb : ReadBuffer) : option (Byte.byte * ReadBuffer) :=
  let rb' := fill rb in
  match nth_error (working_buffer rb') (offset rb') with
  | Some b => Some (b, mkReadBuffer (working_buffer rb') (S (offset rb')) (next_buffers rb'))
  | None => None
  end.

Fixpoint rb_read (n : nat) (rb : ReadBuffer) : option (list Byte.byte * ReadBuffer) :=
  match n with
  | O => Some ([], rb)
  | S n' =>
      match rb_read_byte rb with
      | Some (b, rb') =>
          match rb_read n' rb' with
          | Some (bs, rb'') => Some (b :: bs, rb'')
          | None => None
          end
      | None => None
      end
  end.

(** [position() -= n], for [n <= offset()]. *)
Definition rb_rewind (n : nat) (rb : ReadBuffer) : ReadBuffer :=
  mkReadBuffer (working_buffer rb) (offset rb - n) (next_buffers rb).

(** ** The wire-format scanner: ProtobufReader::SimpleReader *)

Inductive WireType : Type :=
| VARINT | BITS64 | LENGTH_DELIMITED | GROUP_START | GROUP_END | BITS32.

(** [static_cast<WireType>(key & 0x07)]: the values 6 and 7 name no
    enumerator and match no [case]. *)
Definition wire_type_of (z : Z) : option WireType :=
  match z with
  | 0 => Some VARINT
  | 1 => Some BITS64
  | 2 => Some LENGTH_DELIMITED
  | 3 => Some GROUP_START
  | 4 => Some GROUP_END
  | 5 => Some BITS32
  | _ => None
  end.

Definition REACHED_END : Z := 0.
Definition END_OF_VARINT : Z := wrap64 (-1).
Definition END_OF_GROUP : Z := wrap64 (-2).

Definition decodeZigZag (n : Z) : Z :=
  to_Int64 (Z.lxor (Z.shiftr n 1) (wrap64 (wrap64 (Z.lnot (Z.land n 1)) + 1))).

Record SimpleReader : Type := mkSimpleReader {
  in_ : ReadBuffer;
  cursor : Z;
  current_message_end : Z;
  field_end : Z;
  parent_message_ends : list Z   (* a vector: front is the head, back the last *)
}.

Definition SimpleReader_init (rb : ReadBuffer) : SimpleReader :=
  mkSimpleReader rb 1 REACHED_END REACHED_END [].

Definition set_in (rb : ReadBuffer) (r : SimpleReader) : SimpleReader :=
  mkSimpleReader rb (cursor r) (current_message_end r) (field_end r) (parent_message_ends r).
Definition set_cursor (c : Z) (r : SimpleReader) : SimpleReader :=
  mkSimpleReader (in_ r) c (current_message_end r) (field_end r) (parent_message_ends r).
Definition set_current_message_end (e : Z) (r : SimpleReader) : SimpleReader :=
  mkSimpleReader (in_ r) (cursor r) e (field_end r) (parent_message_ends r).
Definition set_field_end (e : Z) (r : SimpleReader) : SimpleReader :=
  mkSimpleReader (in_ r) (cursor r) (current_message_end r) e (parent_message_ends r).
Definition set_parent_message_ends (p : list Z) (r : SimpleReader) : SimpleReader :=
  mkSimpleReader (in_ r) (cursor r) (current_message_end r) (field_end r) p.

Definition unknownFormat {A} : M SimpleReader A := throw UnknownFormat.

(** [in.eof()] *)
Definition in_eof : M SimpleReader bool :=
  fun r => let '(b, rb) := rb_eof (in_ r) in Ok b (set_in rb r).

(** [in.readStrict(&c, 1)] *)
Definition in_readStrict1 : M SimpleReader Byte.byte :=
  fun r => match rb_read_byte (in_ r) with
           | Some (b, rb) => Ok b (set_in rb r)
           | None => Throw IOError
           end.

(** [in.readStrict(data, size)] *)
Definition in_readStrict (size : Z) : M SimpleReader (list Byte.byte) :=
  fun r => match rb_read (Z.to_nat size) (in_ r) with
           | Some (bs, rb) => Ok bs (set_in rb r)
           | None => Throw IOError
           end.

(** [in.ignore(n)] *)
Definition in_ignore (n : Z) : M SimpleReader unit :=
  fun r => match rb_read (Z.to_nat n) (in_ r) with
           | Some (_, rb) => Ok tt (set_in rb r)
           | None => Throw IOError
           end.

Definition add_cursor (n : Z) : M SimpleReader unit :=
  fun r => Ok tt (set_cursor (wrap64 (cursor r + n)) r).

Definition readBinary (size : Z) : M SimpleReader (list Byte.byte) :=
  do bs <- in_readStrict size;
  run add_cursor size;
  ret bs.

Definition ignore (num_bytes : Z) : M SimpleReader unit :=
  run in_ignore num_bytes;
  add_cursor num_bytes.

Definition moveCursorBackward (num_bytes : Z) : M SimpleReader unit :=
  fun r =>
    if Z.of_nat (offset (in_ r)) <? num_bytes then Throw UnknownFormat
    else Ok tt (set_cursor (wrap64 (cursor r - num_bytes))
                  (set_in (rb_rewind (Z.to_nat num_bytes) (in_ r)) r)).

(** The ten expansions of PROTOBUF_READER_VARINT_READ_HELPER(i), i = 0..9,
    followed by [unknownFormat()]: [n] expansions remain, the next one is
    for index [i]. *)
Fixpoint readVarint_from (n : nat) (i : Z) (result : Z) : M SimpleReader Z :=
  match n with
  | O => unknownFormat
  | S n' =>
      do c <- in_readStrict1;
      let result := Z.lor result (wrap64 (Z.shiftl (char_to_UInt64 c) (7 * i))) in
      if i <? 9 then
        if Z.land (char_to_int c) 128 =? 0 then
          run add_cursor (i + 1); ret result
        else
          let result :=
            if i <? 8 then Z.land result (wrap64 (Z.shiftl 128 (7 * i)) - 1)
            else result in
          readVarint_from n' (i + 1) result
      else
        if char_to_int c =? 1 then
          run add_cursor (i + 1); ret result
        else readVarint_from n' (i + 1) result
  end.

Definition readVarint : M SimpleReader Z := readVarint_from 10 0 0.

(** The ten expansions of PROTOBUF_READER_VARINT_IGNORE_HELPER(i). *)
Fixpoint ignoreVarint_from (n : nat) (i : Z) : M SimpleReader unit :=
  match n with
  | O => unknownFormat
  | S n' =>
      do c <- in_readStrict1;
      if i <? 9 then
        if Z.land (char_to_int c) 128 =? 0 then add_cursor (i + 1)
        else ignoreVarint_from n' (i + 1)
      else
        if char_to_int c =? 1 then add_cursor (i + 1)
        else ignoreVarint_from n' (i + 1)
  end.

Definition ignoreVarint : M SimpleReader unit := ignoreVarint_from 10 0.

(** [while (true)] in [ignoreGroup]: one iteration reads at least the tag
    byte, so the number of unread bytes plus one bounds the iterations.  The
    [switch] either returns ([None]) or leaves by [break] with the new
    [level]; [unknownFormat()] follows the [switch] inside the loop body. *)
Fixpoint ignoreGroup_loop (fuel : nat) (level : Z) : M SimpleReader unit :=
  match fuel with
  | O => out_of_fuel
  | S fuel' =>
      do varint <- readVarint;
      do after_switch <-
        match wire_type_of (Z.land varint 7) with
        | Some VARINT => run ignoreVarint; ret (Some level)
        | Some BITS64 => run ignore 8; ret (Some level)
        | Some LENGTH_DELIMITED => do n <- readVarint; run ignore n; ret (Some level)
        | Some GROUP_START => ret (Some (wrap64 (level + 1)))
        | Some GROUP_END =>
            let level := wrap64 (level - 1) in
            if level =? 0 then ret None else ret (Some level)
        | Some BITS32 => run ignore 4; ret (Some level)
        | None => ret (Some level)
        end;
      match after_switch with
      | None => ret tt
      | Some level' =>
          run unknownFormat (A := unit);
          ignoreGroup_loop fuel' level'
      end
  end.

Definition ignoreGroup : M SimpleReader unit :=
  fun r => ignoreGroup_loop (S (length (unread (in_ r)))) 1 r.

Definition startMessage : M SimpleReader bool :=
  do r <- get;
  if (current_message_end r =? REACHED_END)
     && (match parent_message_ends r with [] => true | _ => false end)
  then
    (* Start reading a root message. *)
    do at_eof <- in_eof;
    if at_eof then ret false
    else
      do size_of_message <- readVarint;
      run modify (fun r => set_current_message_end (wrap64 (cursor r + size_of_message)) r);
      run modify (set_field_end REACHED_END);
      ret true
  else
    (* Start reading a nested message located inside a length-delimited
       field of another message. *)
    run modify (fun r => set_parent_message_ends
                           (parent_message_ends r ++ [current_message_end r]) r);
    run modify (fun r => set_current_message_end (field_end r) r);
    run modify (set_field_end REACHED_END);
    ret true.

Definition endMessage : M SimpleReader unit :=
  do r <- get;
  run (if negb (current_message_end r =? REACHED_END) then
         run (if current_message_end r =? END_OF_GROUP then ignoreGroup
              else if cursor r <? current_message_end r then
                ignore (wrap64 (current_message_end r - cursor r))
              else if cursor r >? current_message_end r then
                run (match parent_message_ends r with
                     | [] => ret tt
                     | _ :: _ => unknownFormat
                     end);
                moveCursorBackward (wrap64 (cursor r - current_message_end r))
              else ret tt);
         modify (set_current_message_end REACHED_END)
       else ret tt);
  run modify (set_field_end REACHED_END);
  do r <- get;
  match parent_message_ends r with
  | [] => ret tt
  | _ :: _ =>
      run modify (set_current_message_end (List.last (parent_message_ends r) 0));
      modify (set_parent_message_ends (removelast (parent_message_ends r)))
  end.

Definition endRootMessage : M SimpleReader unit :=
  do r <- get;
  let message_end :=
    match parent_message_ends r with
    | [] => current_message_end r
    | front :: _ => front
    end in
  run (if negb (message_end =? REACHED_END) then
         if cursor r <? message_end then ignore (wrap64 (message_end - cursor r))
         else if cursor r >? message_end then
           moveCursorBackward (wrap64 (cursor r - message_end))
         else ret tt
       else ret tt);
  run modify (set_parent_message_ends []);
  run modify (set_current_message_end REACHED_END);
  modify (set_field_end REACHED_END).

(** [readFieldNumber(field_number)]: [Some field_number] when the call
    returns true, [None] when it returns false. *)
Definition readFieldNumber : M SimpleReader (option Z) :=
  do r <- get;
  run (if negb (field_end r =? REACHED_END) then
         run (if field_end r =? END_OF_VARINT then ignoreVarint
              else if field_end r =? END_OF_GROUP then ignoreGroup
              else if cursor r <? field_end r then
                ignore (wrap64 (field_end r - cursor r))
              else ret tt);
         modify (set_field_end REACHED_END)
       else ret tt);
  do r <- get;
  if cursor r >=? current_message_end r then
    run modify (set_current_message_end REACHED_END);
    ret None
  else
    do varint <- readVarint;
    run (if negb (Z.land varint (wrap64 (Z.shiftl 4294967295 32)) =? 0)
         then unknownFormat else ret tt);
    let key := varint mod 2 ^ 32 in
    let field_number := Z.shiftr key 3 in
    match wire_type_of (Z.land key 7) with
    | Some BITS64 =>
        run modify (fun r => set_field_end (wrap64 (cursor r + 8)) r);
        ret (Some field_number)
    | Some LENGTH_DELIMITED =>
        do length <- readVarint;
        run modify (fun r => set_field_end (wrap64 (cursor r + length)) r);
        ret (Some field_number)
    | Some VARINT =>
        run modify (set_field_end END_OF_VARINT);
        ret (Some field_number)
    | Some GROUP_START =>
        run modify (set_field_end END_OF_GROUP);
        ret (Some field_number)
    | Some GROUP_END =>
        do r <- get;
        run (if negb (current_message_end r =? END_OF_GROUP)
             then unknownFormat else ret tt);
        run modify (set_current_message_end REACHED_END);
        ret None
    | Some BITS32 =>
        run modify (fun r => set_field_end (wrap64 (cursor r + 4)) r);
        ret (Some field_number)
    | None => unknownFormat
    end.

(** [readUInt(value)]: [Some value] when the call returns true. *)
Definition readUInt : M SimpleReader (option Z) :=
  do r <- get;
  if cursor r >=? field_end r then
    run modify (set_field_end REACHED_END);
    ret None
  else
    do value <- readVarint;
    do r <- get;
    run (if (field_end r =? END_OF_VARINT) || (cursor r >=? field_end r)
         then modify (set_field_end REACHED_END) else ret tt);
    ret (Some value).

Definition readInt : M SimpleReader (option Z) :=
  do varint <- readUInt;
  match varint with
  | None => ret None
  | Some varint => ret (Some (to_Int64 varint))
  end.

Definition readSInt : M SimpleReader (option Z) :=
  do varint <- readUInt;
  match varint with
  | None => ret None
  | Some varint => ret (Some (decodeZigZag varint))
  end.

(** [readFixed<T>(value)] with [size = sizeof(T)]: the bytes of the value as
    they lie in memory. *)
Definition readFixed (size : Z) : M SimpleReader (option (list Byte.byte)) :=
  do r <- get;
  if cursor r >=? field_end r then
    run modify (set_field_end REACHED_END);
    ret None
  else
    do value <- readBinary size;
    do r <- get;
    run (if cursor r >=? field_end r
         then modify (set_field_end REACHED_END) else ret tt);
    ret (Some value).

(** [readStringInto(str)]: the flag returned and the array [str] after the
    call. *)
Definition readStringInto (str : list Byte.byte)
  : M SimpleReader (bool * list Byte.byte) :=
  do r <- get;
  if cursor r >? field_end r then ret (false, str)
  else
    let length := wrap64 (field_end r - cursor r) in
    do bytes <- readBinary length;
    run modify (set_field_end REACHED_END);
    ret (true, str ++ bytes).

(** ** Value converters *)

(** The numeric types the converters read into and carry. *)
Inductive NumType : Type :=
| Int8 | UInt8 | Int16 | UInt16 | Int32 | UInt32 | Int64 | UInt64
| Float32 | Float64.

Definition NumType_eqb (a b : NumType) : bool :=
  match a, b with
  | Int8, Int8 | UInt8, UInt8 | Int16, Int16 | UInt16, UInt16
  | Int32, Int32 | UInt32, UInt32 | Int64, Int64 | UInt64, UInt64
  | Float32, Float32 | Float64, Float64 => true
  | _, _ => false
  end.

(** [std::is_integral_v] *)
Definition is_integral (t : NumType) : bool :=
  match t with
  | Float32 | Float64 => false
  | _ => true
  end.

(** [std::numeric_limits<T>::lowest()] and [max()] of the integral types. *)
Definition num_lowest (t : NumType) : Z :=
  match t with
  | Int8 => - 2 ^ 7
  | Int16 => - 2 ^ 15
  | Int32 => - 2 ^ 31
  | Int64 => - 2 ^ 63
  | _ => 0
  end.

Definition num_max (t : NumType) : Z :=
  match t with
  | Int8 => 2 ^ 7 - 1
  | UInt8 => 2 ^ 8 - 1
  | Int16 => 2 ^ 15 - 1
  | UInt16 => 2 ^ 16 - 1
  | Int32 => 2 ^ 31 - 1
  | UInt32 => 2 ^ 32 - 1
  | Int64 => 2 ^ 63 - 1
  | UInt64 => 2 ^ 64 - 1
  | Float32 | Float64 => 0
  end.

Definition in_range (t : NumType) (z : Z) : bool :=
  (num_lowest t <=? z) && (z <=? num_max t).

(** [static_cast<T>] between integral types: reduction modulo the width. *)
Definition static_cast (t : NumType) (z : Z) : Z :=
  (z - num_lowest t) mod (num_max t - num_lowest t + 1) + num_lowest t.

(** The value of [sizeof(T)] bytes read into a [T] on a little-endian host,
    as an unsigned number. *)
Fixpoint le_value (bs : list Byte.byte) : Z :=
  match bs with
  | [] => 0
  | b :: bs' => byte_val b + 256 * le_value bs'
  end.

(** google::protobuf::FieldDescriptor::Type *)
Inductive FieldType : Type :=
| TYPE_DOUBLE | TYPE_FLOAT | TYPE_INT64 | TYPE_UINT64 | TYPE_INT32
| TYPE_FIXED64 | TYPE_FIXED32 | TYPE_BOOL | TYPE_STRING | TYPE_GROUP
| TYPE_MESSAGE | TYPE_BYTES | TYPE_UINT32 | TYPE_ENUM | TYPE_SFIXED32
| TYPE_SFIXED64 | TYPE_SINT32 | TYPE_SINT64.

(** The instances of PROTOBUF_READER_CONVERTER_IMPL_SPECIALIZATION_FOR_NUMBERS:
    the type [T] of [ConverterFromNumber<field_type_id, T>]. *)
Definition number_carrier (field_type_id : FieldType) : option NumType :=
  match field_type_id with
  | TYPE_INT32 => Some Int64
  | TYPE_SINT32 => Some Int64
  | TYPE_UINT32 => Some UInt64
  | TYPE_INT64 => Some Int64
  | TYPE_SINT64 => Some Int64
  | TYPE_UINT64 => Some UInt64
  | TYPE_FIXED32 => Some UInt32
  | TYPE_SFIXED32 => Some Int32
  | TYPE_FIXED64 => Some UInt64
  | TYPE_SFIXED64 => Some Int64
  | TYPE_FLOAT => Some Float32
  | TYPE_DOUBLE => Some Float64
  | _ => None
  end.

(** [emplace] of [std::unordered_map]: an existing key keeps its value. *)
Definition emplace `{Countable K} {V} (k : K) (v : V) (m : gmap K V) : gmap K V :=
  match m !! k with
  | Some _ => m
  | None => <[k := v]> m
  end.

(** A method of a converter works on the scanner it refers to and on the
    converter's own members. *)
Definition on_reader {C A} (m : M SimpleReader A) : M (SimpleReader * C) A :=
  fun s => match m (fst s) with
           | Ok a r => Ok a (r, snd s)
           | Throw e => Throw e
           | Undefined => Undefined
           | OutOfFuel => OutOfFuel
           end.
Definition get_members {C} : M (SimpleReader * C) C := fun s => Ok (snd s) s.
Definition set_members {C} (c : C) : M (SimpleReader * C) unit :=
  fun s => Ok tt (fst s, c).

(** [->] on a [std::optional] that holds no value. *)
Definition undefined {St A} : M St A := fun _ => Undefined.

(** [cannotConvertType] and [cannotConvertValue] of ConverterBaseImpl: both
    throw PROTOBUF_BAD_CAST. *)
Definition cannotConvertType {St A} : M St A := throw BadCast.
Definition cannotConvertValue {St A} : M St A := throw BadCast.

Section Converters.

(** [boost::numeric_cast<To>(value)] where [To] or the type of [value] is a
    floating-point type, on the representations of the values; [None] when it
    throws [bad_numeric_cast].  Floating-point conversion is left open. *)
Variable boost_numeric_cast_float : NumType -> NumType -> Z -> option Z.

(** Modelled from the spec: boost/numeric/conversion/cast.hpp is not part of
    the sources.  Between integral types [boost::numeric_cast] keeps a value
    that the target type can represent and throws otherwise (range-check and
    raise on overflow). *)
Definition boost_numeric_cast (To From : NumType) (value : Z) : option Z :=
  if is_integral To && is_integral From then
    if in_range To value then Some value else None
  else boost_numeric_cast_float To From value.

(** [ConverterBaseImpl::numericCast<To, From>(value)] *)
Definition numericCast {St} (To From : NumType) (value : Z) : M St Z :=
  if NumType_eqb To From then ret value
  else
    match boost_numeric_cast To From value with
    | Some result => ret result
    | None => cannotConvertValue
    end.

(** *** ConverterFromString (TYPE_STRING, TYPE_BYTES) *)

Record ConverterFromString : Type := mkConverterFromString {
  temp_string : list Byte.byte;
  enum_name_to_value_map : option (gmap string Z)
}.

Definition FromString_readTempString : M (SimpleReader * ConverterFromString) bool :=
  do c <- get_members;
  run set_members (mkConverterFromString [] (enum_name_to_value_map c));
  do res <- on_reader (readStringInto []);
  run set_members (mkConverterFromString (snd res) (enum_name_to_value_map c));
  ret (fst res).

(** [readEnum<T>(value)], [T] being [Int8] for [readEnum8] and [Int16] for
    [readEnum16]. *)
Definition FromString_readEnum (T : NumType)
  : M (SimpleReader * ConverterFromString) (option Z) :=
  do ok <- FromString_readTempString;
  if negb ok then ret None
  else
    do c <- get_members;
    let strref := string_of_list_byte (temp_string c) in
    match enum_name_to_value_map c with
    | None => undefined
    | Some map =>
        match map !! strref with
        | None => cannotConvertValue
        | Some second => ret (Some (static_cast T second))
        end
    end.

(** The loop of prepareEnumNameToValueMap over the supplied pairs. *)
Definition name_to_value_loop (name_value_pairs : list (string * Z)) : gmap string Z :=
  fold_left (fun m p => emplace (fst p) (snd p) m) name_value_pairs ∅.

Definition FromString_prepareEnumNameToValueMap (name_value_pairs : list (string * Z))
  : M (SimpleReader * ConverterFromString) unit :=
  do c <- get_members;
  match enum_name_to_value_map c with
  | Some _ => ret tt
  | None =>
      set_members (mkConverterFromString (temp_string c)
        (Some (name_to_value_loop name_value_pairs)))
  end.

(** *** ConverterFromNumber<field_type_id, T> *)

Record ConverterFromNumber : Type := mkConverterFromNumber {
  set_of_enum_values : option (gset Z)
}.

Definition option_map_value {A B} (f : A -> B) (m : M SimpleReader (option A))
  : M SimpleReader (option B) :=
  do v <- m;
  match v with
  | None => ret None
  | Some a => ret (Some (f a))
  end.

(** [readField(value)]: the branch of the [if constexpr] chain that
    [field_type_id] selects; the last branch is the one of TYPE_DOUBLE, which
    the [static_assert] admits alone. *)
Definition FromNumber_readField (field_type_id : FieldType) : M SimpleReader (option Z) :=
  match field_type_id with
  | TYPE_INT32 => readInt
  | TYPE_SINT32 => readSInt
  | TYPE_UINT32 => readUInt
  | TYPE_INT64 => readInt
  | TYPE_SINT64 => readSInt
  | TYPE_UINT64 => readUInt
  | TYPE_FIXED32 => option_map_value le_value (readFixed 4)
  | TYPE_SFIXED32 => option_map_value (fun bs => static_cast Int32 (le_value bs)) (readFixed 4)
  | TYPE_FIXED64 => option_map_value le_value (readFixed 8)
  | TYPE_SFIXED64 => option_map_value (fun bs => static_cast Int64 (le_value bs)) (readFixed 8)
  | TYPE_FLOAT => option_map_value le_value (readFixed 4)
  | _ => option_map_value le_value (readFixed 8)
  end.

(** [readNumeric<To>(value)] *)
Definition FromNumber_readNumeric (field_type_id : FieldType) (T To : NumType)
  : M (SimpleReader * ConverterFromNumber) (option Z) :=
  do number <- on_reader (FromNumber_readField field_type_id);
  match number with
  | None => ret None
  | Some number =>
      do value <- numericCast To T number;
      ret (Some value)
  end.

(** [readEnum<EnumType>(value)] *)
Definition FromNumber_readEnum (field_type_id : FieldType) (T EnumType : NumType)
  : M (SimpleReader * ConverterFromNumber) (option Z) :=
  run (if negb (is_integral T) then cannotConvertType else ret tt);
  do number <- on_reader (FromNumber_readField field_type_id);
  match number with
  | None => ret None
  | Some number =>
      do value <- numericCast EnumType T number;
      do c <- get_members;
      match set_of_enum_values c with
      | None => undefined
      | Some set =>
          if decide (value ∈ set) then ret (Some value)
          else cannotConvertValue
      end
  end.

(** The loop of prepareSetOfEnumValues over the supplied pairs. *)
Definition set_of_values_loop (name_value_pairs : list (string * Z)) : gset Z :=
  fold_left (fun s p => {[ snd p ]} ∪ s) name_value_pairs ∅.

Definition FromNumber_prepareSetOfEnumValues (name_value_pairs : list (string * Z))
  : M (SimpleReader * ConverterFromNumber) unit :=
  do c <- get_members;
  match set_of_enum_values c with
  | Some _ => ret tt
  | None =>
      set_members (mkConverterFromNumber (Some (set_of_values_loop name_value_pairs)))
  end.

(** *** ConverterImpl<TYPE_ENUM> *)

Record ConverterEnum : Type := mkConverterEnum {
  (* field->enum_type(): the (name, number) of value(0), value(1), ... *)
  field_enum_type : list (string * Z);
  enum_pbnumber_to_name_map : option (gmap Z string);
  enum_pbnumber_to_value_map : option (gmap Z Z)
}.

(** [EnumDescriptor::FindValueByName] *)
Definition FindValueByName (enum_type : list (string * Z)) (name : string) : option Z :=
  match List.find (fun p => String.eqb (fst p) name) enum_type with
  | Some p => Some (snd p)
  | None => None
  end.

Definition Enum_readField : M (SimpleReader * ConverterEnum) (option Z) :=
  on_reader readInt.

(** The loop of prepareEnumPbNumberToNameMap over the values of the enum
    type. *)
Definition pbnumber_to_name_loop (enum_type : list (string * Z)) : gmap Z string :=
  fold_left (fun m p => emplace (snd p) (fst p) m) enum_type ∅.

(** The loop of prepareEnumPbNumberToValueMap over the supplied pairs. *)
Definition pbnumber_to_value_loop (enum_type : list (string * Z))
    (name_value_pairs : list (string * Z)) : gmap Z Z :=
  fold_left
    (fun m p =>
       let value := snd p in
       match FindValueByName enum_type (fst p) with
       | Some number => emplace number value m
       | None => m
       end)
    name_value_pairs ∅.

Definition Enum_prepareEnumPbNumberToNameMap : M (SimpleReader * ConverterEnum) unit :=
  do c <- get_members;
  match enum_pbnumber_to_name_map c with
  | Some _ => ret tt
  | None =>
      set_members (mkConverterEnum (field_enum_type c)
        (Some (pbnumber_to_name_loop (field_enum_type c)))
        (enum_pbnumber_to_value_map c))
  end.

Definition Enum_prepareEnumPbNumberToValueMap (name_value_pairs : list (string * Z))
  : M (SimpleReader * ConverterEnum) unit :=
  do c <- get_members;
  match enum_pbnumber_to_value_map c with
  | Some _ => ret tt
  | None =>
      set_members (mkConverterEnum (field_enum_type c)
        (enum_pbnumber_to_name_map c)
        (Some (pbnumber_to_value_loop (field_enum_type c) name_value_pairs)))
  end.

(** [readStringInto(str)]: the text handed to [writeString], when the call
    returns true. *)
Definition Enum_readStringInto : M (SimpleReader * ConverterEnum) (option string) :=
  run Enum_prepareEnumPbNumberToNameMap;
  do pbnumber <- Enum_readField;
  match pbnumber with
  | None => ret None
  | Some pbnumber =>
      do c <- get_members;
      match enum_pbnumber_to_name_map c with
      | None => undefined
      | Some map =>
          match map !! pbnumber with
          | None => cannotConvertValue
          | Some second => ret (Some second)
          end
      end
  end.

Definition Enum_readNumeric (T : NumType) : M (SimpleReader * ConverterEnum) (option Z) :=
  do pbnumber <- Enum_readField;
  match pbnumber with
  | None => ret None
  | Some pbnumber =>
      do value <- numericCast T Int64 pbnumber;
      ret (Some value)
  end.

Definition Enum_readEnum (T : NumType) : M (SimpleReader * ConverterEnum) (option Z) :=
  do pbnumber <- Enum_readField;
  match pbnumber with
  | None => ret None
  | Some pbnumber =>
      do c <- get_members;
      match enum_pbnumber_to_value_map c with
      | None => undefined
      | Some map =>
          match map !! pbnumber with
          | None => cannotConvertValue
          | Some second => ret (Some (static_cast T second))
          end
      end
  end.

End Converters.

(** ** The schema tree and the dispatcher: ProtobufReader *)

(** ProtobufColumnMatcher::Field.  Messages live in a table and are named by
    their position in it: a pointer to a message is an index of the table,
    and a pointer to a field is the index of the field in [fields]. *)
Record Field : Type := mkField {
  field_number : Z;
  column_index : Z;
  field_type : FieldType;          (* field_descriptor->type() *)
  nested_message : option nat
}.

Record Message : Type := mkMessage {
  parent : option nat;
  index_in_parent : nat;
  fields : list Field;
  field_number_to_field_map : gmap Z nat   (* data.field_number_to_field_map *)
}.

(** The loop of setTraitsDataAfterMatchingColumns over the fields of one
    message: a field with a nested message is left by [continue] before the
    [emplace] at the end of the loop body. *)
Fixpoint setTraitsData_fields (fs : list Field) (index : nat) (map : gmap Z nat)
  : gmap Z nat :=
  match fs with
  | [] => map
  | field :: fs' =>
      match nested_message field with
      | Some _ => setTraitsData_fields fs' (S index) map
      | None => setTraitsData_fields fs' (S index) (emplace (field_number field) index map)
      end
  end.

(** setTraitsDataAfterMatchingColumns visits the root message and, by its
    recursive call, every nested message: every message of the table. *)
Definition setTraitsDataAfterMatchingColumns (messages : list Message) : list Message :=
  List.map (fun m => mkMessage (parent m) (index_in_parent m) (fields m)
                       (setTraitsData_fields (fields m) 0 (field_number_to_field_map m)))
    messages.

Record ProtobufReader : Type := mkProtobufReader {
  simple_reader : SimpleReader;
  current_message : option nat;           (* nullptr is None *)
  current_field_index : nat;
  current_converter : option (nat * nat)  (* the converter of a field of a message *)
}.

Definition on_simple_reader {A} (m : M SimpleReader A) : M ProtobufReader A :=
  fun s => match m (simple_reader s) with
           | Ok a r => Ok a (mkProtobufReader r (current_message s)
                               (current_field_index s) (current_converter s))
           | Throw e => Throw e
           | Undefined => Undefined
           | OutOfFuel => OutOfFuel
           end.

Definition set_current_message (m : option nat) (s : ProtobufReader) : ProtobufReader :=
  mkProtobufReader (simple_reader s) m (current_field_index s) (current_converter s).
Definition set_current_field_index (i : nat) (s : ProtobufReader) : ProtobufReader :=
  mkProtobufReader (simple_reader s) (current_message s) i (current_converter s).
Definition set_current_converter (c : option (nat * nat)) (s : ProtobufReader)
  : ProtobufReader :=
  mkProtobufReader (simple_reader s) (current_message s) (current_field_index s) c.

(** The [for] loop of readColumnIndex over [fields] from [index] on, [fs]
    being the fields at [index] and after: the index the loop stops at and
    the field found, if any. *)
Fixpoint linear_advance (fs : list Field) (index : nat) (number : Z)
  : nat * option nat :=
  match fs with
  | [] => (index, None)
  | f :: fs' =>
      if field_number f =? number then (index, Some index)
      else if field_number f >? number then (index, None)
      else linear_advance fs' (S index) number
  end.

Section Dispatcher.

(** The table of messages; the root message is at index 0. *)
Variable messages : list Message.

(** Dereferencing a pointer to a message: a null or dangling pointer is
    undefined behaviour. *)
Definition deref_message (p : option nat) : M ProtobufReader Message :=
  match p with
  | None => undefined
  | Some id =>
      match messages !! id with
      | Some m => ret m
      | None => undefined
      end
  end.

Definition ProtobufReader_startMessage : M ProtobufReader bool :=
  do started <- on_simple_reader startMessage;
  if negb started then ret false
  else
    run modify (set_current_message (Some 0%nat));
    run modify (set_current_field_index 0%nat);
    ret true.

Definition ProtobufReader_endMessage : M ProtobufReader unit :=
  run on_simple_reader endRootMessage;
  run modify (set_current_message None);
  modify (set_current_converter None).

(** [readColumnIndex(column_index)]: [Some column_index] when the call
    returns true.  [fuel] bounds the iterations of [while (true)]. *)
Fixpoint readColumnIndex (fuel : nat) : M ProtobufReader (option Z) :=
  match fuel with
  | O => out_of_fuel
  | S fuel' =>
      do read <- on_simple_reader readFieldNumber;
      do s <- get;
      do message <- deref_message (current_message s);
      match read with
      | None =>
          match parent message with
          | None =>
              run modify (set_current_converter None);
              ret None
          | Some parent_message =>
              run on_simple_reader endMessage;
              run modify (set_current_field_index (index_in_parent message));
              run modify (set_current_message (Some parent_message));
              readColumnIndex fuel'
          end
      | Some number =>
          let '(index, found) :=
            linear_advance (skipn (current_field_index s) (fields message))
              (current_field_index s) number in
          run modify (set_current_field_index index);
          let found :=
            match found with
            | Some i => Some i
            | None => field_number_to_field_map message !! number
            end in
          match found with
          | None => readColumnIndex fuel'
          | Some i =>
              match fields message !! i with
              | None => undefined
              | Some field =>
                  match nested_message field with
                  | Some nested =>
                      run on_simple_reader startMessage;
                      run modify (set_current_message (Some nested));
                      run modify (set_current_field_index 0%nat);
                      readColumnIndex fuel'
                  | None =>
                      run modify (set_current_converter
                                    (match current_message s with
                                     | Some id => Some (id, i)
                                     | None => None
                                     end));
                      ret (Some (column_index field))
                  end
              end
          end
      end
  end.

End Dispatcher.

(** * The vocabulary of the statements *)

(** The frame of a scanner state: everything but the stream and the cursor. *)
Definition same_frame (r r' : SimpleReader) : Prop :=
  current_message_end r' = current_message_end r
  /\ field_end r' = field_end r
  /\ parent_message_ends r' = parent_message_ends r.

(** A call of the program returns or throws; the other two results mark
    undefined behaviour and a loop of the model cut short. *)
Definition returns_or_throws {St A} (x : Res St A) : Prop :=
  match x with
  | Ok _ _ | Throw _ => True
  | Undefined | OutOfFuel => False
  end.

(** The stream holds the bytes [bs] next, and is [rb'] once they are read. *)
Definition holds (rb : ReadBuffer) (bs : list Byte.byte) (rb' : ReadBuffer) : Prop :=
  rb_read (length bs) rb = Some (bs, rb').

(** The ends of the active frames from the bottom (the root message) to the
    top (the current message). *)
Definition message_ends (r : SimpleReader) : list Z :=
  parent_message_ends r ++ [current_message_end r].

(** Each element is smaller than the next one. *)
Fixpoint strictly_increasing (l : list Z) : Prop :=
  match l with
  | a :: (b :: _) as t => a < b /\ strictly_increasing t
  | _ => True
  end.

(** No element is smaller than the next one. *)
Fixpoint nonincreasing (l : list Z) : Prop :=
  match l with
  | a :: (b :: _) as t => b <= a /\ nonincreasing t
  | _ => True
  end.

(** The byte of value [z mod 256]. *)
Definition byte_of_Z (z : Z) : Byte.byte :=
  match Byte.of_N (Z.to_N (z mod 256)) with
  | Some b => b
  | None => Byte.x00
  end.

(** The canonical encoding of a value as a varint, least significant group
    of seven bits first; ten bytes are enough below [2^64].  This is the
    encoder of the wire format, not a part of the reader. *)
Fixpoint encodeVarint_from (n : nat) (v : Z) : list Byte.byte :=
  match n with
  | O => []
  | S n' =>
      if v <? 128 then [byte_of_Z v]
      else byte_of_Z (128 + v mod 128) :: encodeVarint_from n' (v / 128)
  end.

(** The canonical encoding of a value below [2^64]. *)
Definition encodeVarint (v : Z) : list Byte.byte := encodeVarint_from 10 v.

(** The base-128 little-endian value of a sequence of varint bytes. *)
Fixpoint varint_value (bs : list Byte.byte) : Z :=
  match bs with
  | [] => 0
  | b :: bs' => byte_val b mod 128 + 128 * varint_value bs'
  end.

(** A well-formed varint from index [i] on: bytes with the continuation bit,
    then a last byte without it, or, at index 9, a last byte of value 1. *)
Definition varint_bytes_from (i : Z) (init : list Byte.byte) (last : Byte.byte) : Prop :=
  Forall (fun b => 128 <= byte_val b) init
  /\ ((i + Z.of_nat (length init) <= 8 /\ byte_val last < 128)
      \/ (i + Z.of_nat (length init) = 9 /\ byte_val last = 1)).

(** The value of an enumerator of [WireType]. *)
Definition wire_type_code (wt : WireType) : Z :=
  match wt with
  | VARINT => 0
  | BITS64 => 1
  | LENGTH_DELIMITED => 2
  | GROUP_START => 3
  | GROUP_END => 4
  | BITS32 => 5
  end.

(** The payload of a field of a wire type other than a group, as it lies in
    the stream after the key. *)
Inductive field_payload : WireType -> list Byte.byte -> Prop :=
| payload_varint init last :
    varint_bytes_from 0 init last ->
    field_payload VARINT (init ++ [last])
| payload_bits64 bs :
    length bs = 8%nat -> field_payload BITS64 bs
| payload_bits32 bs :
    length bs = 4%nat -> field_payload BITS32 bs
| payload_length_delimited body :
    field_payload LENGTH_DELIMITED (encodeVarint (Z.of_nat (length body)) ++ body).

(** [n] calls of [readUInt] in a row, with what each call returned. *)
Fixpoint readUInt_repeat (n : nat) : M SimpleReader (list (option Z)) :=
  match n with
  | O => ret []
  | S n' =>
      do v <- readUInt;
      do vs <- readUInt_repeat n';
      ret (v :: vs)
  end.

(** The name the descriptor gives to a number: the name of the first value
    declared with that number. *)
Definition name_of_number (enum_type : list (string * Z)) (number : Z) : option string :=
  option_map fst (List.find (fun p => snd p =? number) enum_type).

(** The target value of a number: the value of the first supplied pair whose
    name the descriptor declares with that number. *)
Definition target_value_of_number (enum_type : list (string * Z))
    (name_value_pairs : list (string * Z)) (number : Z) : option Z :=
  option_map snd
    (List.find (fun p => match FindValueByName enum_type (fst p) with
                         | Some n => n =? number
                         | None => false
                         end)
       name_value_pairs).

(** A reader just constructed on a stream: no message is current. *)
Definition ProtobufReader_init (rb : ReadBuffer) : ProtobufReader :=
  mkProtobufReader (SimpleReader_init rb) None 0 None.

(** The first emission of a row: the column index that [readColumnIndex]
    yields and the value that [readInt] then reads. *)
Definition first_emission (messages : list Message) (rb : ReadBuffer)
  : Res ProtobufReader (option (Z * option Z)) :=
  (run ProtobufReader_startMessage;
   do column <- readColumnIndex messages 10;
   match column with
   | None => ret None
   | Some column_index =>
       do value <- on_simple_reader readInt;
       ret (Some (column_index, value))
   end) (ProtobufReader_init rb).

(** * Concrete streams, schemas and states *)

(** A root message whose only field, a varint, is read past the declared end:
    the stream is [01 08 2A] and the root message is declared one byte
    long. *)
Definition overshoot_root_stream : ReadBuffer :=
  mkReadBuffer [Byte.x01; Byte.x08; Byte.x2a] 0 [].

(** The scanner once the varint of [overshoot_root_stream] was read. *)
Definition overshoot_root : SimpleReader :=
  mkSimpleReader (mkReadBuffer [Byte.x01; Byte.x08; Byte.x2a] 3 []) 4 3 REACHED_END [].

(** A nested message read past its declared end: the stream is
    [04 0A 01 08 2A], the nested message is declared one byte long. *)
Definition overshoot_nested_stream : ReadBuffer :=
  mkReadBuffer [Byte.x04; Byte.x0a; Byte.x01; Byte.x08; Byte.x2a] 0 [].

(** The scanner once the varint of [overshoot_nested_stream] was read. *)
Definition overshoot_nested : SimpleReader :=
  mkSimpleReader (mkReadBuffer [Byte.x04; Byte.x0a; Byte.x01; Byte.x08; Byte.x2a] 5 [])
    6 5 REACHED_END [6].

(** A message with a group and a field after it: [06 0B 08 01 0C 10 01] is a
    root message of six bytes holding GROUP_START of field 1, the inner
    field 1 (varint 1), GROUP_END of field 1, and field 2 (varint 1). *)
Definition group_stream : ReadBuffer :=
  mkReadBuffer [Byte.x06; Byte.x0b; Byte.x08; Byte.x01; Byte.x0c; Byte.x10; Byte.x01] 0 [].

(** The scanner after the GROUP_START key of [group_stream] was read: the
    group payload [08 01 0C] is next. *)
Definition at_group_payload : SimpleReader :=
  mkSimpleReader
    (mkReadBuffer [Byte.x06; Byte.x0b; Byte.x08; Byte.x01; Byte.x0c; Byte.x10; Byte.x01] 2 [])
    3 8 END_OF_GROUP [].

(** A well-formed message of six bytes whose first field is a nested message
    of two bytes: [06 0A 02 08 01 10 01]. *)
Definition nested_stream : ReadBuffer :=
  mkReadBuffer [Byte.x06; Byte.x0a; Byte.x02; Byte.x08; Byte.x01; Byte.x10; Byte.x01] 0 [].

(** A root message of two bytes whose only field declares a nested message
    of three bytes: [02 0A 03], followed by three more bytes of the
    stream. *)
Definition overlong_stream : ReadBuffer :=
  mkReadBuffer [Byte.x02; Byte.x0a; Byte.x03; Byte.x08; Byte.x01; Byte.x00] 0 [].

(** The nested frame of [overlong_stream]: its end 7 lies beyond the end 4 of
    the root message. *)
Definition overlong_nested : SimpleReader :=
  mkSimpleReader (mkReadBuffer [Byte.x02; Byte.x0a; Byte.x03; Byte.x08; Byte.x01; Byte.x00] 3 [])
    4 7 REACHED_END [4].

(** The packed payload [01 AC 02] of a LENGTH_DELIMITED field: the elements
    1 and 300. *)
Definition packed_state : SimpleReader :=
  mkSimpleReader (mkReadBuffer [Byte.x01; Byte.xac; Byte.x02] 0 []) 1 4 4 [].

(** The value 300 on the wire of a TYPE_UINT64 field, [AC 02]. *)
Definition varint_300_field : SimpleReader :=
  mkSimpleReader (mkReadBuffer [Byte.x03; Byte.x08; Byte.xac; Byte.x02] 2 []) 3 5
    END_OF_VARINT [].

(** The converter of an enum field whose descriptor declares RED = 5, as
    constructed: no mapping is built yet. *)
Definition enum_RED : ConverterEnum := mkConverterEnum [("RED"%string, 5)] None None.

(** The scanner at the value of an enum field, the number 5 on the wire. *)
Definition enum_field_5 : SimpleReader :=
  mkSimpleReader (mkReadBuffer [Byte.x02; Byte.x08; Byte.x05] 2 []) 3 4 END_OF_VARINT [].

(** The scanner at the value of an enum field, the number 99 on the wire. *)
Definition enum_field_99 : SimpleReader :=
  mkSimpleReader (mkReadBuffer [Byte.x02; Byte.x08; Byte.x63] 2 []) 3 4 END_OF_VARINT [].

(** The schema of the counterexample: the root message has one field,
    number 1, a nested message; the nested message has one field, number 1,
    bound to column 0. *)
Definition nested_schema : list Message :=
  setTraitsDataAfterMatchingColumns
    [ mkMessage None 0 [mkField 1 0 TYPE_MESSAGE (Some 1%nat)] ∅;
      mkMessage (Some 0%nat) 0 [mkField 1 0 TYPE_INT32 None] ∅ ].

(** The root message [0A 02 08 07]: field 1, a nested message holding field
    1 = 7. *)
Definition stream_without_unknown : ReadBuffer :=
  mkReadBuffer [Byte.x04; Byte.x0a; Byte.x02; Byte.x08; Byte.x07] 0 [].

(** The same message with field 2 (varint 1), which the schema does not
    know, in front: [10 01 0A 02 08 07]. *)
Definition stream_with_unknown : ReadBuffer :=
  mkReadBuffer [Byte.x06; Byte.x10; Byte.x01; Byte.x0a; Byte.x02; Byte.x08; Byte.x07] 0 [].

(** A message type with the single field 2, TYPE_BOOL, bound to column 0,
    and the message [08 01 10 01]: field 1 (varint 1), which the schema does
    not know, then field 2 = true. *)
Definition bool_schema : list Message :=
  setTraitsDataAfterMatchingColumns
    [ mkMessage None 0 [mkField 2 0 TYPE_BOOL None] ∅ ].

(** The reader at the start of the row [08 01 10 01]. *)
Definition bool_row_start : ProtobufReader :=
  mkProtobufReader
    (mkSimpleReader
       (mkReadBuffer [Byte.x04; Byte.x08; Byte.x01; Byte.x10; Byte.x01] 1 [])
       2 6 REACHED_END [])
    (Some 0%nat) 0 None.

(** The reader after field 1 of the row [08 01 10 01]. *)
Definition bool_row_after_unknown : ProtobufReader :=
  mkProtobufReader
    (mkSimpleReader
       (mkReadBuffer [Byte.x04; Byte.x08; Byte.x01; Byte.x10; Byte.x01] 3 [])
       4 6 REACHED_END [])
    (Some 0%nat) 0 None.

(** * Further parts of the program *)

(** ** ConverterImpl<TYPE_BOOL>

    The converter has no members of its own: its methods work on the
    scanner. *)

Definition Bool_readField : M SimpleReader (option bool) :=
  do number <- readUInt;
  match number with
  | None => ret None
  | Some number => ret (Some (negb (number =? 0)))
  end.

(** [readNumeric<T>(value)], for every numeric target and, through
    [decimal.value], for the decimal targets. *)
Definition Bool_readNumeric : M SimpleReader (option Z) :=
  do b <- Bool_readField;
  match b with
  | None => ret None
  | Some b => ret (Some (if b then 1 else 0))
  end.

(** [readStringInto(str)]: the text handed to [writeString], when the call
    returns true. *)
Definition Bool_readStringInto : M SimpleReader (option string) :=
  do b <- Bool_readField;
  match b with
  | None => ret None
  | Some b => ret (Some (if b then "true"%string else "false"%string))
  end.

(** ** readDate and readDateTime of ConverterFromNumber *)

Definition FromNumber_readDate (boost_float : NumType -> NumType -> Z -> option Z)
    (field_type_id : FieldType) (T : NumType)
  : M (SimpleReader * ConverterFromNumber) (option Z) :=
  do number <- FromNumber_readNumeric boost_float field_type_id T UInt16;
  match number with
  | None => ret None
  | Some number => ret (Some number)
  end.

Definition FromNumber_readDateTime (boost_float : NumType -> NumType -> Z -> option Z)
    (field_type_id : FieldType) (T : NumType)
  : M (SimpleReader * ConverterFromNumber) (option Z) :=
  do number <- FromNumber_readNumeric boost_float field_type_id T UInt32;
  match number with
  | None => ret None
  | Some number => ret (Some number)
  end.

(** ** The floating-point carriers

    The converters of TYPE_FLOAT and TYPE_DOUBLE read into [float] and
    [double], which [readFixed] fills with the four or eight bytes of the
    field: a value of these types is carried as its bits, and, on the
    platforms the program is built for, the bits are those of the IEEE 754
    formats binary32 and binary64. *)

Definition float_fraction_bits (t : NumType) : Z :=
  match t with
  | Float32 => 23
  | _ => 52
  end.

Definition float_exponent_bits (t : NumType) : Z :=
  match t with
  | Float32 => 8
  | _ => 11
  end.

(** What the bits of a floating-point value stand for; [FFinite negative m e]
    is the number [m * 2^e], negated when [negative]. *)
Inductive FloatValue : Type :=
| FNaN
| FInf (negative : bool)
| FFinite (negative : bool) (m e : Z).

Definition float_decode (t : NumType) (bits : Z) : FloatValue :=
  let fraction_bits := float_fraction_bits t in
  let exponent_bits := float_exponent_bits t in
  let bias := 2 ^ (exponent_bits - 1) - 1 in
  let fraction := bits mod 2 ^ fraction_bits in
  let exponent := (bits / 2 ^ fraction_bits) mod 2 ^ exponent_bits in
  let negative := Z.odd (bits / 2 ^ (fraction_bits + exponent_bits)) in
  if exponent =? 2 ^ exponent_bits - 1 then
    if fraction =? 0 then FInf negative else FNaN
  else if exponent =? 0 then
    FFinite negative fraction (1 - bias - fraction_bits)
  else
    FFinite negative (2 ^ fraction_bits + fraction) (exponent - bias - fraction_bits).

(** The conversion of a finite floating-point value to an integer: the
    fractional part is discarded. *)
Definition float_truncate (negative : bool) (m e : Z) : Z :=
  let magnitude := if 0 <=? e then m * 2 ^ e else m / 2 ^ (- e) in
  if negative then - magnitude else magnitude.

(** Whether the type [From] holds the number [lowest - 1] of the integral
    type [To]: it does for an unsigned [To], and for a signed one when the
    significand is long enough. *)
Definition float_bound_is_exact (From To : NumType) : bool :=
  (num_lowest To =? 0) || (- num_lowest To <? 2 ^ (float_fraction_bits From + 1)).

(** Modelled from the spec: boost/numeric/conversion/cast.hpp is not part of
    the sources.  From a floating-point type to an integral type
    [boost::numeric_cast] checks the range and throws on overflow: a value
    strictly between [lowest - 1] and [max + 1] is converted, its fractional
    part discarded, and every other value, so an infinity, is refused.  The
    two bounds are computed in the type [From]; [max + 1] is a power of two
    and is held exactly, [lowest - 1] is taken as [lowest] where [From] does
    not hold it.  Both bounds being integers, the comparisons are made here
    on the value without its fractional part.  What the library does with a
    NaN, and the casts into a floating-point type, are left open: they are
    what [open] gives. *)
Definition boost_numeric_cast_floating (open : NumType -> NumType -> Z -> option Z)
    (To From : NumType) (value : Z) : option Z :=
  if is_integral To && negb (is_integral From) then
    match float_decode From value with
    | FNaN => open To From value
    | FInf _ => None
    | FFinite negative m e =>
        let truncated := float_truncate negative m e in
        let below :=
          if float_bound_is_exact From To then num_lowest To - 1 else num_lowest To in
        if (below <? truncated) && (truncated <? num_max To + 1)
        then Some truncated else None
    end
  else open To From value.

(** * Further vocabulary of the statements *)

(** The ZigZag encoding of the wire format: 0, -1, 1, -2, ... are sent as
    0, 1, 2, 3, ...  This is the encoder, not a part of the reader. *)
Definition encodeZigZag (n : Z) : Z := if n <? 0 then - 2 * n - 1 else 2 * n.

(** The [k] bytes of a value on a little-endian host, the value taken modulo
    [256^k]. *)
Fixpoint le_bytes (k : nat) (v : Z) : list Byte.byte :=
  match k with
  | O => []
  | S k' => byte_of_Z v :: le_bytes k' (v / 256)
  end.

(** The cursor is in step with the stream: from [r] to [r'] some bytes of
    the stream were consumed, and the cursor advanced by their number. *)
Definition in_step (r r' : SimpleReader) : Prop :=
  exists bs, unread (in_ r) = bs ++ unread (in_ r')
             /\ cursor r' = wrap64 (cursor r + Z.of_nat (length bs)).

(** A field as it lies in a message: its number, its wire type and its
    payload. *)
Record wire_field : Type := mkWireField {
  wf_number : Z;
  wf_type : WireType;
  wf_payload : list Byte.byte
}.

(** A field of a wire type other than a group, with a payload of that wire
    type. *)
Definition wire_field_ok (f : wire_field) : Prop :=
  0 <= wf_number f < 2 ^ 29 /\ field_payload (wf_type f) (wf_payload f).

(** The bytes of a field: the key and the payload. *)
Definition wire_field_bytes (f : wire_field) : list Byte.byte :=
  encodeVarint (wf_number f * 8 + wire_type_code (wf_type f)) ++ wf_payload f.

(** The bytes of a message made of the fields [fs]. *)
Definition message_bytes (fs : list wire_field) : list Byte.byte :=
  concat (List.map wire_field_bytes fs).

(** [n] calls of [readFieldNumber] in a row, with what each call returned. *)
Fixpoint readFieldNumber_repeat (n : nat) : M SimpleReader (list (option Z)) :=
  match n with
  | O => ret []
  | S n' =>
      do v <- readFieldNumber;
      do vs <- readFieldNumber_repeat n';
      ret (v :: vs)
  end.

(** The wire type of the fields a number converter reads. *)
Definition number_wire_type (field_type_id : FieldType) : WireType :=
  match field_type_id with
  | TYPE_FIXED32 | TYPE_SFIXED32 | TYPE_FLOAT => BITS32
  | TYPE_FIXED64 | TYPE_SFIXED64 | TYPE_DOUBLE => BITS64
  | _ => VARINT
  end.

(** The payload the wire format gives to an integral value of a field: a
    varint of the value in two's complement, a varint of its ZigZag
    encoding, or its bytes in little-endian order.  This is the encoder, not
    a part of the reader. *)
Definition encode_number (field_type_id : FieldType) (v : Z) : list Byte.byte :=
  match field_type_id with
  | TYPE_INT32 | TYPE_INT64 => encodeVarint (of_Int64 v)
  | TYPE_UINT32 | TYPE_UINT64 => encodeVarint v
  | TYPE_SINT32 | TYPE_SINT64 => encodeVarint (encodeZigZag v)
  | TYPE_FIXED32 | TYPE_SFIXED32 => le_bytes 4 v
  | TYPE_FIXED64 | TYPE_SFIXED64 => le_bytes 8 v
  | _ => []
  end.

(** The value the supplied pairs give to a name: the value of the first
    pair with that name. *)
Definition value_of_name (name_value_pairs : list (string * Z)) (name : string)
  : option Z :=
  option_map snd (List.find (fun p => String.eqb (fst p) name) name_value_pairs).

(** Whether a value is one of the values of the supplied pairs. *)
Definition is_value_of_pairs (name_value_pairs : list (string * Z)) (value : Z) : bool :=
  existsb (fun p => snd p =? value) name_value_pairs.

(** The first field of [fs] that has no nested message and has the number,
    [index] being the index of the head of [fs]. *)
Fixpoint find_leaf (fs : list Field) (index : nat) (number : Z) : option nat :=
  match fs with
  | [] => None
  | f :: fs' =>
      match nested_message f with
      | None =>
          if field_number f =? number then Some index
          else find_leaf fs' (S index) number
      | Some _ => find_leaf fs' (S index) number
      end
  end.

(** The column of the field that has the number. *)
Definition column_of_number (fs : list Field) (number : Z) : option Z :=
  option_map column_index (List.find (fun f => field_number f =? number) fs).

(** The columns of the fields of a message in the order of the stream, the
    fields whose number the schema does not have being left out. *)
Definition columns_of (fs : list Field) (wfs : list wire_field) : list Z :=
  omap (fun wf => column_of_number fs (wf_number wf)) wfs.

(** The first field of the stream whose number the schema has: its column
    and the fields after it. *)
Fixpoint first_known (fs : list Field) (wfs : list wire_field)
  : option (Z * list wire_field) :=
  match wfs with
  | [] => None
  | wf :: wfs' =>
      match column_of_number fs (wf_number wf) with
      | Some column => Some (column, wfs')
      | None => first_known fs wfs'
      end
  end.

(** The scanner is between two fields of a message that ends at [message_end]:
    no field is in progress, the fields [wfs] are what is left of the
    message, and the stream after them is [rb']. *)
Definition at_fields (message_end : Z) (parents : list Z) (rb' : ReadBuffer)
    (r : SimpleReader) (wfs : list wire_field) : Prop :=
  field_end r = REACHED_END
  /\ 0 < cursor r
  /\ current_message_end r = message_end
  /\ message_end = cursor r + Z.of_nat (length (message_bytes wfs))
  /\ parent_message_ends r = parents
  /\ holds (in_ r) (message_bytes wfs) rb'.

(** [n] calls of [readColumnIndex] in a row, with what each call returned. *)
Fixpoint readColumnIndex_repeat (messages : list Message) (fuel n : nat)
  : M ProtobufReader (list (option Z)) :=
  match n with
  | O => ret []
  | S n' =>
      do v <- readColumnIndex messages fuel;
      do vs <- readColumnIndex_repeat messages fuel n';
      ret (v :: vs)
  end.

(** The end of the root message as [endRootMessage] takes it. *)
Definition root_message_end (r : SimpleReader) : Z :=
  match parent_message_ends r with
  | [] => current_message_end r
  | front :: _ => front
  end.

(** [n] calls of [readField] of a number converter in a row, with what each
    call returned. *)
Fixpoint FromNumber_readField_repeat (field_type_id : FieldType) (n : nat)
  : M SimpleReader (list (option Z)) :=
  match n with
  | O => ret []
  | S n' =>
      do v <- FromNumber_readField field_type_id;
      do vs <- FromNumber_readField_repeat field_type_id n';
      ret (v :: vs)
  end.

(** The emissions of a row: each column that [readColumnIndex] yields, with
    the value that [readInt] then reads; at most [n] of them. *)
Fixpoint emissions (messages : list Message) (n : nat)
  : M ProtobufReader (list (Z * option Z)) :=
  match n with
  | O => ret []
  | S n' =>
      do column <- readColumnIndex messages 10;
      match column with
      | None => ret []
      | Some column_index =>
          do value <- on_simple_reader readInt;
          do rest <- emissions messages n';
          ret ((column_index, value) :: rest)
      end
  end.

(** The emissions of the first row of a stream. *)
Definition row_emissions (messages : list Message) (rb : ReadBuffer)
  : Res ProtobufReader (list (Z * option Z)) :=
  (run ProtobufReader_startMessage; emissions messages 10) (ProtobufReader_init rb).

(** The schema of [nested_schema] with a plain field in the place of the
    nested message: the root message has one field, number 1, bound to
    column 0. *)
Definition leaf_schema : list Message :=
  setTraitsDataAfterMatchingColumns
    [ mkMessage None 0 [mkField 1 0 TYPE_INT32 None] ∅ ].

(** The root message [08 07], field 1 = 7, and the same message with field 2
    (varint 1), which the schema does not know, in front: [10 01 08 07]. *)
Definition leaf_stream_without_unknown : ReadBuffer :=
  mkReadBuffer [Byte.x02; Byte.x08; Byte.x07] 0 [].

Definition leaf_stream_with_unknown : ReadBuffer :=
  mkReadBuffer [Byte.x04; Byte.x10; Byte.x01; Byte.x08; Byte.x07] 0 [].

(** A schema with a nested message and a plain field: field 1 of the root
    is a nested message whose field 1 is bound to column 2, and field 2 of
    the root is bound to column 1. *)
Definition mixed_schema : list Message :=
  setTraitsDataAfterMatchingColumns
    [ mkMessage None 0 [mkField 1 0 TYPE_MESSAGE (Some 1%nat);
                        mkField 2 1 TYPE_INT32 None] ∅;
      mkMessage (Some 0%nat) 0 [mkField 1 2 TYPE_INT32 None] ∅ ].

(** The root message [0A 02 08 07 10 05]: the nested message holding field
    1 = 7, then field 2 = 5; and the same two fields the other way round,
    [10 05 0A 02 08 07].  Both fields are in the schema. *)
Definition mixed_stream_in_order : ReadBuffer :=
  mkReadBuffer [Byte.x06; Byte.x0a; Byte.x02; Byte.x08; Byte.x07; Byte.x10; Byte.x05] 0 [].

Definition mixed_stream_out_of_order : ReadBuffer :=
  mkReadBuffer [Byte.x06; Byte.x10; Byte.x05; Byte.x0a; Byte.x02; Byte.x08; Byte.x07] 0 [].

(** The field of the TYPE_FLOAT converter that holds the four bytes
    [00 00 80 7F] of the infinity, after its key was read. *)
Definition float_infinity_field : SimpleReader :=
  mkSimpleReader
    (mkReadBuffer [Byte.x05; Byte.x0d; Byte.x00; Byte.x00; Byte.x80; Byte.x7f] 2 [])
    3 7 7 [].

(** * Properties *)

Arguments wrap64 : simpl never.

Ltac munfold :=
  unfold bind, ret, get, put, modify, throw, unknownFormat, out_of_fuel,
    undefined, cannotConvertType, cannotConvertValue, on_reader, get_members,
    set_members, on_simple_reader in *.

(** ** What the reading primitives leave untouched *)

Lemma same_frame_refl r : same_frame r r.
Proof. by repeat split. Qed.

Lemma same_frame_trans r1 r2 r3 :
  same_frame r1 r2 -> same_frame r2 r3 -> same_frame r1 r3.
Proof.
  intros (H1 & H2 & H3) (H4 & H5 & H6).
  repeat split; congruence.
Qed.

Lemma in_readStrict1_frame r b r' :
  in_readStrict1 r = Ok b r' -> same_frame r r' /\ cursor r' = cursor r.
Proof.
  unfold in_readStrict1. destruct (rb_read_byte (in_ r)) as [[c rb]|]; [|done].
  intros [= <- <-]. by repeat split.
Qed.

Lemma add_cursor_frame n r u r' :
  add_cursor n r = Ok u r' -> same_frame r r'.
Proof. intros [= <- <-]. by repeat split. Qed.

Lemma readVarint_from_frame n : forall i acc r v r',
  readVarint_from n i acc r = Ok v r' -> same_frame r r'.
Proof.
  induction n as [|n IH]; intros i acc r v r'; simpl; [done|].
  munfold. destruct (in_readStrict1 r) as [c r1| | |] eqn:Hc; try done.
  apply in_readStrict1_frame in Hc as [Hf _].
  destruct (i <? 9).
  - destruct (Z.land (char_to_int c) 128 =? 0).
    + unfold add_cursor. intros [= <- <-].
      eapply same_frame_trans; [exact Hf|]. by repeat split.
    + intros H. eapply same_frame_trans; [exact Hf|]. exact (IH _ _ _ _ _ H).
  - destruct (char_to_int c =? 1).
    + unfold add_cursor. intros [= <- <-].
      eapply same_frame_trans; [exact Hf|]. by repeat split.
    + intros H. eapply same_frame_trans; [exact Hf|]. exact (IH _ _ _ _ _ H).
Qed.

Lemma readVarint_frame r v r' : readVarint r = Ok v r' -> same_frame r r'.
Proof. apply readVarint_from_frame. Qed.

Lemma ignoreVarint_from_frame n : forall i r u r',
  ignoreVarint_from n i r = Ok u r' -> same_frame r r'.
Proof.
  induction n as [|n IH]; intros i r u r'; simpl; [done|].
  munfold. destruct (in_readStrict1 r) as [c r1| | |] eqn:Hc; try done.
  apply in_readStrict1_frame in Hc as [Hf _].
  destruct (i <? 9).
  - destruct (Z.land (char_to_int c) 128 =? 0).
    + unfold add_cursor. intros [= <- <-].
      eapply same_frame_trans; [exact Hf|]. by repeat split.
    + intros H. eapply same_frame_trans; [exact Hf|]. exact (IH _ _ _ _ H).
  - destruct (char_to_int c =? 1).
    + unfold add_cursor. intros [= <- <-].
      eapply same_frame_trans; [exact Hf|]. by repeat split.
    + intros H. eapply same_frame_trans; [exact Hf|]. exact (IH _ _ _ _ H).
Qed.

Lemma ignoreVarint_frame r u r' : ignoreVarint r = Ok u r' -> same_frame r r'.
Proof. apply ignoreVarint_from_frame. Qed.

Lemma ignore_frame n r u r' : ignore n r = Ok u r' -> same_frame r r'.
Proof.
  unfold ignore, in_ignore, add_cursor. munfold.
  destruct (rb_read (Z.to_nat n) (in_ r)) as [[bs rb]|]; [|done].
  intros [= <- <-]. by repeat split.
Qed.

Lemma moveCursorBackward_frame n r u r' :
  moveCursorBackward n r = Ok u r' -> same_frame r r'.
Proof.
  unfold moveCursorBackward.
  destruct (Z.of_nat (offset (in_ r)) <? n); [done|].
  intros [= <- <-]. by repeat split.
Qed.

(** The body of the loop of [ignoreGroup] returns normally only through the
    [return] of the GROUP_END case. *)
Lemma ignoreGroup_loop_frame fuel level r u r' :
  ignoreGroup_loop fuel level r = Ok u r' -> same_frame r r'.
Proof.
  destruct fuel as [|fuel]; simpl; [done|]. munfold.
  destruct (readVarint r) as [v r1| | |] eqn:Hv; try done.
  apply readVarint_frame in Hv.
  destruct (wire_type_of (Z.land v 7)) as [[]|].
  - destruct (ignoreVarint r1); done.
  - destruct (ignore 8 r1); done.
  - destruct (readVarint r1) as [n r2| | |]; try done. destruct (ignore n r2); done.
  - done.
  - destruct (wrap64 (level - 1) =? 0); [|done]. by intros [= <- <-].
  - destruct (ignore 4 r1); done.
  - done.
Qed.

Lemma ignoreGroup_frame r u r' : ignoreGroup r = Ok u r' -> same_frame r r'.
Proof. apply ignoreGroup_loop_frame. Qed.

(** ** Closing frames: endMessage and endRootMessage *)

Lemma endMessage_root_closed r u r' :
  parent_message_ends r = [] ->
  endMessage r = Ok u r' ->
  current_message_end r' = REACHED_END
  /\ field_end r' = REACHED_END
  /\ parent_message_ends r' = [].
Proof.
  intros Hp. unfold endMessage. munfold. rewrite Hp.
  destruct (current_message_end r =? REACHED_END) eqn:He; simpl.
  - rewrite Hp. intros [= <- <-]. simpl. apply Z.eqb_eq in He. by repeat split.
  - destruct (current_message_end r =? END_OF_GROUP).
    + destruct (ignoreGroup r) as [[] r1| | |] eqn:Hg; try done.
      apply ignoreGroup_frame in Hg as (_ & _ & Hp1). simpl.
      rewrite Hp1, Hp. intros [= <- <-]. repeat split; simpl; congruence.
    + destruct (cursor r <? current_message_end r).
      * destruct (ignore _ r) as [[] r1| | |] eqn:Hg; try done.
        apply ignore_frame in Hg as (_ & _ & Hp1). simpl.
        rewrite Hp1, Hp. intros [= <- <-]. repeat split; simpl; congruence.
      * destruct (cursor r >? current_message_end r).
        -- destruct (moveCursorBackward _ r) as [[] r1| | |] eqn:Hg; try done.
           apply moveCursorBackward_frame in Hg as (_ & _ & Hp1). simpl.
           rewrite Hp1, Hp. intros [= <- <-]. repeat split; simpl; congruence.
        -- simpl. rewrite Hp. intros [= <- <-]. by repeat split.
Qed.

(** C8.  After an [endMessage] that closed the root frame (empty parent
    stack) and returned normally, [endRootMessage] returns the very state it
    was called in: the stream, the cursor, [current_message_end],
    [field_end] and the parent stack are all unchanged. *)
Theorem endRootMessage_after_endMessage_noop (r r' : SimpleReader) :
  parent_message_ends r = [] ->
  endMessage r = Ok tt r' ->
  endRootMessage r' = Ok tt r'.
Proof.
  intros Hp He.
  destruct (endMessage_root_closed _ _ _ Hp He) as (H1 & H2 & H3).
  destruct r' as [rb c e f p]. simpl in *. subst.
  reflexivity.
Qed.

Lemma endRootMessage_after_endMessage_noop_witness :
  endRootMessage
    (mkSimpleReader (mkReadBuffer [Byte.x02; Byte.x08; Byte.x2a] 3 []) 4
       REACHED_END REACHED_END [])
  = Ok tt (mkSimpleReader (mkReadBuffer [Byte.x02; Byte.x08; Byte.x2a] 3 []) 4
             REACHED_END REACHED_END []).
Proof.
  apply (endRootMessage_after_endMessage_noop
           (mkSimpleReader (mkReadBuffer [Byte.x02; Byte.x08; Byte.x2a] 3 []) 4 4
              REACHED_END [])).
  - reflexivity.
  - vm_compute. reflexivity.
Defined.

Lemma overshoot_root_reached :
  (run startMessage; run readFieldNumber; do v <- readUInt; ret v)
    (SimpleReader_init overshoot_root_stream) = Ok (Some 42) overshoot_root.
Proof. vm_compute. reflexivity. Qed.

Lemma overshoot_nested_reached :
  (run startMessage; run readFieldNumber; run startMessage; run readFieldNumber;
   do v <- readUInt; ret v)
    (SimpleReader_init overshoot_nested_stream) = Ok (Some 42) overshoot_nested.
Proof. vm_compute. reflexivity. Qed.

(** C2, as stated, fails: on the root frame an overshoot is rewound and
    [endMessage] returns normally; on a nested frame it raises
    UnknownFormat. *)
Lemma endMessage_overshoot_counterexample :
  (parent_message_ends overshoot_root = []
   /\ cursor overshoot_root > current_message_end overshoot_root
   /\ exists r', endMessage overshoot_root = Ok tt r' /\ cursor r' = 3)
  /\ (parent_message_ends overshoot_nested <> []
      /\ cursor overshoot_nested > current_message_end overshoot_nested
      /\ endMessage overshoot_nested = Throw UnknownFormat).
Proof.
  split.
  - split; [reflexivity|]. split; [reflexivity|].
    eexists. split; [vm_compute; reflexivity|reflexivity].
  - split; [discriminate|]. split; reflexivity.
Qed.

(** C2, amended.  When [endMessage] finds the cursor strictly past
    [current_message_end], it raises UnknownFormat for a non-root frame
    (non-empty parent stack).  For the root frame it rewinds the cursor to
    [current_message_end] and closes the frame; the rewind raises
    UnknownFormat only when the distance exceeds the offset of the stream in
    its current buffer. *)
Theorem endMessage_overshoot (r : SimpleReader) :
  0 < current_message_end r ->
  current_message_end r <> END_OF_GROUP ->
  current_message_end r < cursor r < 2 ^ 64 ->
  let distance := cursor r - current_message_end r in
  (parent_message_ends r <> [] -> endMessage r = Throw UnknownFormat)
  /\ (parent_message_ends r = [] ->
      Z.of_nat (offset (in_ r)) < distance ->
      endMessage r = Throw UnknownFormat)
  /\ (parent_message_ends r = [] ->
      distance <= Z.of_nat (offset (in_ r)) ->
      endMessage r =
        Ok tt (mkSimpleReader (rb_rewind (Z.to_nat distance) (in_ r))
                 (current_message_end r) REACHED_END REACHED_END [])).
Proof.
  intros Hpos Hgroup [Hlt Hmax] distance.
  assert (Hne : (current_message_end r =? REACHED_END) = false)
    by (apply Z.eqb_neq; unfold REACHED_END; lia).
  assert (Hng : (current_message_end r =? END_OF_GROUP) = false)
    by (by apply Z.eqb_neq).
  assert (Hnl : (cursor r <? current_message_end r) = false) by lia.
  assert (Hgt : (cursor r >? current_message_end r) = true) by lia.
  assert (Hw : wrap64 (cursor r - current_message_end r) = distance).
  { unfold wrap64, distance. apply Z.mod_small. lia. }
  assert (Hc : wrap64 (cursor r - distance) = current_message_end r).
  { unfold wrap64, distance. rewrite Z.mod_small; lia. }
  unfold endMessage. munfold. rewrite Hne, Hng, Hnl, Hgt, Hw. simpl.
  split; [|split].
  - intros Hp. destruct (parent_message_ends r); done.
  - intros Hp Hoff. rewrite Hp. unfold moveCursorBackward.
    destruct (Z.of_nat (offset (in_ r)) <? distance) eqn:E; [done|lia].
  - intros Hp Hoff. rewrite Hp. unfold moveCursorBackward.
    destruct (Z.of_nat (offset (in_ r)) <? distance) eqn:E; [lia|].
    simpl. rewrite Hp. unfold set_field_end, set_current_message_end, set_cursor, set_in.
    simpl. rewrite Hc, Hp. reflexivity.
Qed.

Lemma endMessage_overshoot_witness :
  endMessage overshoot_nested = Throw UnknownFormat.
Proof.
  refine (proj1 (endMessage_overshoot overshoot_nested _ _ _) _).
  - simpl. lia.
  - vm_compute. discriminate.
  - simpl. lia.
  - simpl. discriminate.
Defined.

(** ** Groups: ignoreGroup *)

(** [ignoreGroup] returns normally only when the first key of the payload is
    a GROUP_END: after any other key the loop body reaches
    [unknownFormat()]. *)
Lemma ignoreGroup_returns_only_on_GROUP_END r u r' :
  ignoreGroup r = Ok u r' ->
  exists key, readVarint r = Ok key r'
              /\ wire_type_of (Z.land key 7) = Some GROUP_END.
Proof.
  unfold ignoreGroup. simpl. munfold.
  destruct (readVarint r) as [v r1| | |] eqn:Hv; try done.
  destruct (wire_type_of (Z.land v 7)) as [[]|] eqn:Hw.
  - destruct (ignoreVarint r1); done.
  - destruct (ignore 8 r1); done.
  - destruct (readVarint r1) as [n r2| | |]; try done. destruct (ignore n r2); done.
  - done.
  - change (wrap64 (1 - 1) =? 0) with true. simpl. intros [= <- <-]. by exists v.
  - destruct (ignore 4 r1); done.
  - done.
Qed.

Lemma in_readStrict1_rt r : returns_or_throws (in_readStrict1 r).
Proof. unfold in_readStrict1. by destruct (rb_read_byte (in_ r)) as [[]|]. Qed.

Lemma readVarint_from_rt n : forall i acc r,
  returns_or_throws (readVarint_from n i acc r).
Proof.
  induction n as [|n IH]; intros i acc r; simpl; [done|]. munfold.
  pose proof (in_readStrict1_rt r) as H.
  destruct (in_readStrict1 r) as [c r1| | |]; try done.
  destruct (i <? 9); [destruct (Z.land _ 128 =? 0)|destruct (char_to_int _ =? 1)];
    try done; apply IH.
Qed.

Lemma readVarint_rt r : returns_or_throws (readVarint r).
Proof. apply readVarint_from_rt. Qed.

Lemma ignoreVarint_from_rt n : forall i r,
  returns_or_throws (ignoreVarint_from n i r).
Proof.
  induction n as [|n IH]; intros i r; simpl; [done|]. munfold.
  pose proof (in_readStrict1_rt r) as H.
  destruct (in_readStrict1 r) as [c r1| | |]; try done.
  destruct (i <? 9); [destruct (Z.land _ 128 =? 0)|destruct (char_to_int _ =? 1)];
    try done; apply IH.
Qed.

Lemma ignoreVarint_rt r : returns_or_throws (ignoreVarint r).
Proof. apply ignoreVarint_from_rt. Qed.

Lemma ignore_rt n r : returns_or_throws (ignore n r).
Proof.
  unfold ignore, in_ignore, add_cursor. munfold.
  by destruct (rb_read (Z.to_nat n) (in_ r)) as [[]|].
Qed.

Lemma readBinary_rt n r : returns_or_throws (readBinary n r).
Proof.
  unfold readBinary, in_readStrict, add_cursor. munfold.
  by destruct (rb_read (Z.to_nat n) (in_ r)) as [[]|].
Qed.

Lemma moveCursorBackward_rt n r : returns_or_throws (moveCursorBackward n r).
Proof. unfold moveCursorBackward. by destruct (_ <? _). Qed.

(** [ignoreGroup] never runs out of iterations: the loop body is left in its
    first iteration. *)
Lemma ignoreGroup_rt r : returns_or_throws (ignoreGroup r).
Proof.
  unfold ignoreGroup. simpl. munfold.
  pose proof (readVarint_rt r) as Hv.
  destruct (readVarint r) as [v r1| | |]; try done.
  destruct (wire_type_of (Z.land v 7)) as [[]|].
  - pose proof (ignoreVarint_rt r1) as H. by destruct (ignoreVarint r1).
  - pose proof (ignore_rt 8 r1) as H. by destruct (ignore 8 r1).
  - pose proof (readVarint_rt r1) as H. destruct (readVarint r1) as [n r2| | |]; try done.
    pose proof (ignore_rt n r2) as H2. by destruct (ignore n r2).
  - done.
  - by change (wrap64 (1 - 1) =? 0) with true.
  - pose proof (ignore_rt 4 r1) as H. by destruct (ignore 4 r1).
  - done.
Qed.

Lemma at_group_payload_reached :
  (run startMessage; readFieldNumber) (SimpleReader_init group_stream)
  = Ok (Some 1) at_group_payload.
Proof. vm_compute. reflexivity. Qed.

(** C1 (the code departs from the claim).  On the group payload [08 01 0C],
    one inner varint field closed by the matching GROUP_END, [ignoreGroup]
    raises UnknownFormat; so does the [readFieldNumber] call that disposes of
    the group left in progress, and so does [endMessage] on the group
    frame. *)
Theorem ignoreGroup_rejects_inner_field :
  ignoreGroup at_group_payload = Throw UnknownFormat
  /\ readFieldNumber at_group_payload = Throw UnknownFormat
  /\ (run startMessage; endMessage) at_group_payload = Throw UnknownFormat.
Proof. repeat split; vm_compute; reflexivity. Qed.

(** The only group that is skipped is the empty one. *)
Lemma ignoreGroup_empty_group :
  exists r', ignoreGroup
      (mkSimpleReader (mkReadBuffer [Byte.x02; Byte.x0b; Byte.x0c] 2 []) 3 4 END_OF_GROUP [])
    = Ok tt r' /\ cursor r' = 4.
Proof. eexists. split; [vm_compute; reflexivity|reflexivity]. Qed.

(** ** The stack of message ends *)

Lemma nonincreasing_snoc l a b :
  nonincreasing (l ++ [a]) -> b <= a -> nonincreasing ((l ++ [a]) ++ [b]).
Proof.
  induction l as [|x l IH]; simpl.
  - intros _ H. by split.
  - destruct l as [|y l]; simpl in *.
    + intros [H1 _] H. by repeat split.
    + intros [H1 H2] H. split; [done|]. by apply IH.
Qed.

(** C3, as stated, fails.  In the state reached inside the nested message of
    [nested_stream] the ends are 8 for the root and 6 for the nested
    message: not increasing.  On [overlong_stream] the nested message is
    opened and closed, and then the root message is closed, without any
    exception. *)
Lemma message_ends_counterexample :
  (exists r, (run startMessage; run readFieldNumber; startMessage)
               (SimpleReader_init nested_stream) = Ok true r
             /\ message_ends r = [8; 6]
             /\ ~ strictly_increasing (message_ends r))
  /\ (exists r1 r2,
        (run startMessage; readFieldNumber) (SimpleReader_init overlong_stream)
          = Ok (Some 1) r1
        /\ current_message_end r1 < field_end r1
        /\ (run startMessage; run endMessage; run readFieldNumber; endMessage) r1
           = Ok tt r2).
Proof.
  split.
  - eexists. split; [vm_compute; reflexivity|]. split; [reflexivity|].
    simpl. lia.
  - eexists. eexists. split; [vm_compute; reflexivity|].
    split; [simpl; lia|]. vm_compute. reflexivity.
Qed.

Lemma ignore_ok n r bs rb :
  rb_read (Z.to_nat n) (in_ r) = Some (bs, rb) ->
  ignore n r = Ok tt (set_cursor (wrap64 (cursor r + n)) (set_in rb r)).
Proof.
  intros H. unfold ignore, in_ignore, add_cursor. munfold. by rewrite H.
Qed.

(** C3, amended.  [startMessage] on an active frame pushes
    [current_message_end] and takes [field_end] as the new end without
    comparing the two; the ends stay non-increasing from the bottom to the
    top as long as each nested message is opened with [field_end] at most
    [current_message_end].  A nested frame whose end lies beyond the end of
    its parent is closed by [endMessage] without an exception when the
    stream holds the bytes up to that end: the cursor moves there and the
    parent frame becomes current. *)
Theorem message_ends_nested (r : SimpleReader) :
  (current_message_end r <> REACHED_END \/ parent_message_ends r <> []) ->
  startMessage r =
    Ok true (mkSimpleReader (in_ r) (cursor r) (field_end r) REACHED_END
               (parent_message_ends r ++ [current_message_end r]))
  /\ (nonincreasing (message_ends r) ->
      field_end r <= current_message_end r ->
      forall r', startMessage r = Ok true r' -> nonincreasing (message_ends r'))
  /\ (forall ps p bs rb,
        parent_message_ends r = ps ++ [p] ->
        p < current_message_end r < END_OF_GROUP ->
        0 < cursor r <= current_message_end r ->
        rb_read (Z.to_nat (current_message_end r - cursor r)) (in_ r) = Some (bs, rb) ->
        endMessage r = Ok tt (mkSimpleReader rb (current_message_end r) p REACHED_END ps)).
Proof.
  intros Hactive.
  assert (Hstart : startMessage r =
    Ok true (mkSimpleReader (in_ r) (cursor r) (field_end r) REACHED_END
               (parent_message_ends r ++ [current_message_end r]))).
  { unfold startMessage. munfold.
    destruct ((current_message_end r =? REACHED_END)
              && match parent_message_ends r with [] => true | _ => false end) eqn:E.
    - apply andb_true_iff in E as [E1 E2]. apply Z.eqb_eq in E1.
      destruct (parent_message_ends r); [|done]. by destruct Hactive.
    - reflexivity. }
  split; [exact Hstart|]. split.
  - intros Hinv Hle r'. rewrite Hstart. intros [= <-].
    unfold message_ends in *. simpl. by apply nonincreasing_snoc.
  - intros ps p bs rb Hps [Hp Hg] [Hc0 Hc] Hread.
    assert (Hmax : current_message_end r < 2 ^ 64 - 2).
    { revert Hg. unfold END_OF_GROUP, wrap64.
      change ((-2) mod 2 ^ 64) with (2 ^ 64 - 2). lia. }
    unfold endMessage. munfold.
    assert (Hne : (current_message_end r =? REACHED_END) = false)
      by (apply Z.eqb_neq; unfold REACHED_END; lia).
    assert (Hng : (current_message_end r =? END_OF_GROUP) = false)
      by (apply Z.eqb_neq; lia).
    rewrite Hne, Hng. simpl.
    assert (Hw : wrap64 (current_message_end r - cursor r) = current_message_end r - cursor r)
      by (unfold wrap64; apply Z.mod_small; lia).
    destruct (cursor r <? current_message_end r) eqn:Elt.
    + rewrite Hw, (ignore_ok _ _ _ _ Hread). simpl.
      rewrite Hps, last_last, removelast_last.
      replace (wrap64 (cursor r + (current_message_end r - cursor r)))
        with (current_message_end r)
        by (unfold wrap64; rewrite Z.mod_small; lia).
      by destruct ps.
    + assert (Heq : cursor r = current_message_end r) by lia.
      replace (cursor r >? current_message_end r) with false by lia. simpl.
      rewrite Hps, last_last, removelast_last.
      rewrite Heq, Z.sub_diag in Hread. simpl in Hread. injection Hread as <- <-.
      destruct r as [rb0 c e f pp]. simpl in *. subst c. by destruct ps.
Qed.

Lemma overlong_nested_reached :
  (run startMessage; run readFieldNumber; startMessage) (SimpleReader_init overlong_stream)
  = Ok true overlong_nested.
Proof. vm_compute. reflexivity. Qed.

Lemma message_ends_nested_witness :
  startMessage overlong_nested =
    Ok true (mkSimpleReader (in_ overlong_nested) 4 REACHED_END REACHED_END [4; 7])
  /\ endMessage overlong_nested =
     Ok tt (mkSimpleReader
              (mkReadBuffer [Byte.x02; Byte.x0a; Byte.x03; Byte.x08; Byte.x01; Byte.x00] 6 [])
              7 4 REACHED_END []).
Proof.
  assert (Hactive : current_message_end overlong_nested <> REACHED_END
                    \/ parent_message_ends overlong_nested <> [])
    by (left; vm_compute; discriminate).
  destruct (message_ends_nested overlong_nested Hactive) as (H1 & _ & H3).
  split; [exact H1|].
  apply (H3 [] 4 [Byte.x08; Byte.x01; Byte.x00]).
  - reflexivity.
  - vm_compute. split; reflexivity.
  - simpl. lia.
  - vm_compute. reflexivity.
Defined.

(** ** Varints: readVarint *)

Lemma byte_val_range b : 0 <= byte_val b < 256.
Proof.
  unfold byte_val. pose proof (Byte.to_N_bounded b). lia.
Qed.

Lemma byte_val_of_Z z : byte_val (byte_of_Z z) = z mod 256.
Proof.
  unfold byte_val, byte_of_Z.
  destruct (Byte.of_N (Z.to_N (z mod 256))) as [b|] eqn:E.
  - apply Byte.to_of_N in E. rewrite E. apply Z2N.id.
    apply Z.mod_pos_bound. lia.
  - apply Byte.of_N_None_iff in E.
    pose proof (Z.mod_pos_bound z 256 ltac:(lia)). lia.
Qed.

Lemma lor_disjoint a m k :
  0 <= k -> 0 <= a < 2 ^ k -> Z.lor a (m * 2 ^ k) = a + m * 2 ^ k.
Proof.
  intros Hk Ha.
  assert (Hland : Z.land a (m * 2 ^ k) = 0).
  { apply Z.bits_inj'. intros n Hn. rewrite Z.land_spec, Z.bits_0.
    destruct (Z.lt_ge_cases n k) as [Hlt|Hge].
    - rewrite Z.mul_pow2_bits_low by lia. apply andb_false_r.
    - rewrite <- (Z.mod_small a (2 ^ k)) by lia.
      rewrite Z.mod_pow2_bits_high by lia. reflexivity. }
  rewrite <- Z.lxor_lor by exact Hland.
  symmetry. apply Z.add_nocarry_lxor. exact Hland.
Qed.

Lemma small_index_cases i : 0 <= i <= 8 ->
  i = 0 \/ i = 1 \/ i = 2 \/ i = 3 \/ i = 4 \/ i = 5 \/ i = 6 \/ i = 7 \/ i = 8.
Proof. lia. Qed.

(** The last byte of a varint, at index [i] up to 8. *)
Lemma varint_step_last i acc c :
  0 <= i <= 8 -> 0 <= acc < 2 ^ (7 * i) -> 0 <= c < 128 ->
  Z.lor acc (wrap64 (Z.shiftl (wrap64 c) (7 * i))) = acc + 2 ^ (7 * i) * c.
Proof.
  intros Hi Ha Hc. rewrite Z.shiftl_mul_pow2 by lia.
  assert (H1 : wrap64 c = c) by (unfold wrap64; apply Z.mod_small; lia).
  rewrite H1.
  assert (H2 : wrap64 (c * 2 ^ (7 * i)) = c * 2 ^ (7 * i)).
  { unfold wrap64. apply Z.mod_small.
    destruct (small_index_cases i Hi) as [->|[->|[->|[->|[->|[->|[->|[->| ->]]]]]]]];
      simpl; lia. }
  rewrite H2, lor_disjoint by lia. lia.
Qed.

(** A byte with the continuation bit at index [i] up to 7, after masking. *)
Lemma varint_step_cont i acc c :
  0 <= i <= 7 -> 0 <= acc < 2 ^ (7 * i) -> 128 <= c < 256 ->
  Z.land (Z.lor acc (wrap64 (Z.shiftl (wrap64 (c - 256)) (7 * i))))
         (wrap64 (Z.shiftl 128 (7 * i)) - 1)
  = acc + 2 ^ (7 * i) * (c - 128).
Proof.
  intros Hi Ha Hc. rewrite !Z.shiftl_mul_pow2 by lia.
  assert (H1 : wrap64 (c - 256) = c - 256 + 2 ^ 64).
  { unfold wrap64. symmetry. apply (Z.mod_unique _ _ (-1)); lia. }
  rewrite H1.
  assert (H2 : wrap64 ((c - 256 + 2 ^ 64) * 2 ^ (7 * i))
               = (c - 256 + 2 ^ (64 - 7 * i)) * 2 ^ (7 * i)).
  { unfold wrap64. symmetry. apply (Z.mod_unique _ _ (2 ^ (7 * i) - 1));
    destruct (small_index_cases i ltac:(lia)) as [->|[->|[->|[->|[->|[->|[->|[->| ->]]]]]]]];
      simpl; lia. }
  rewrite H2.
  assert (Hm : 0 <= c - 256 + 2 ^ (64 - 7 * i)).
  { destruct (small_index_cases i ltac:(lia)) as [->|[->|[->|[->|[->|[->|[->|[->| ->]]]]]]]];
      simpl; lia. }
  rewrite lor_disjoint by lia.
  assert (H3 : wrap64 (128 * 2 ^ (7 * i)) - 1 = Z.ones (7 * i + 7)).
  { rewrite Z.ones_equiv. unfold wrap64. rewrite Z.mod_small;
    destruct (small_index_cases i ltac:(lia)) as [->|[->|[->|[->|[->|[->|[->|[->| ->]]]]]]]];
      simpl; lia. }
  rewrite H3, Z.land_ones by lia.
  symmetry. apply (Z.mod_unique _ _ (2 ^ (57 - 7 * i) - 1));
  destruct (small_index_cases i ltac:(lia)) as [->|[->|[->|[->|[->|[->|[->|[->| ->]]]]]]]];
    simpl in *; lia.
Qed.

(** The ninth byte with the continuation bit, followed by a tenth byte of
    value 1. *)
Lemma varint_step_8_9 acc c :
  0 <= acc < 2 ^ 56 -> 128 <= c < 256 ->
  Z.lor (Z.lor acc (wrap64 (Z.shiftl (wrap64 (c - 256)) (7 * 8))))
        (wrap64 (Z.shiftl (wrap64 1) (7 * 9)))
  = acc + 2 ^ 56 * (c - 128 + 128 * 1).
Proof.
  intros Ha Hc. rewrite !Z.shiftl_mul_pow2 by lia.
  assert (H1 : wrap64 (c - 256) = c - 256 + 2 ^ 64).
  { unfold wrap64. symmetry. apply (Z.mod_unique _ _ (-1)); lia. }
  assert (H2 : wrap64 ((c - 256 + 2 ^ 64) * 2 ^ (7 * 8)) = c * 2 ^ 56).
  { unfold wrap64. symmetry. apply (Z.mod_unique _ _ (2 ^ 56 - 1)); simpl; lia. }
  assert (H3 : wrap64 (wrap64 1 * 2 ^ (7 * 9)) = 1 * 2 ^ 63) by reflexivity.
  rewrite H1, H2, H3, (lor_disjoint acc c 56) by lia.
  replace (acc + c * 2 ^ 56) with ((acc + (c - 128) * 2 ^ 56) + 1 * 2 ^ 63) by lia.
  rewrite <- (lor_disjoint (acc + (c - 128) * 2 ^ 56) 1 63) by lia.
  rewrite <- Z.lor_assoc, Z.lor_diag. rewrite lor_disjoint by lia. lia.
Qed.

Lemma holds_nil rb rb' : holds rb [] rb' <-> rb' = rb.
Proof. unfold holds. simpl. split; [by intros [= ->]|by intros ->]. Qed.

Lemma holds_cons rb b bs rb' :
  holds rb (b :: bs) rb' <->
  exists rb1, rb_read_byte rb = Some (b, rb1) /\ holds rb1 bs rb'.
Proof.
  unfold holds. simpl. split.
  - destruct (rb_read_byte rb) as [[c rb1]|]; [|done].
    destruct (rb_read (length bs) rb1) as [[cs rb2]|] eqn:E; [|done].
    intros [= -> -> ->]. by exists rb1.
  - intros (rb1 & -> & ->). reflexivity.
Qed.

Lemma holds_app rb bs1 bs2 rb' :
  holds rb (bs1 ++ bs2) rb' <->
  exists rb1, holds rb bs1 rb1 /\ holds rb1 bs2 rb'.
Proof.
  revert rb. induction bs1 as [|b bs1 IH]; intros rb; simpl.
  - split.
    + intros H. exists rb. split; [by apply holds_nil|done].
    + intros (rb1 & H1 & H2). apply holds_nil in H1. by subst.
  - rewrite holds_cons. split.
    + intros (rb1 & Hb & H). apply IH in H as (rb2 & H1 & H2).
      exists rb2. split; [|done]. apply holds_cons. by exists rb1.
    + intros (rb2 & H1 & H2). apply holds_cons in H1 as (rb1 & Hb & H1).
      exists rb1. split; [done|]. apply IH. by exists rb2.
Qed.

Lemma rb_read_length n : forall rb bs rb',
  rb_read n rb = Some (bs, rb') -> length bs = n.
Proof.
  induction n as [|n IH]; intros rb bs rb'; simpl.
  - by intros [= <- _].
  - destruct (rb_read_byte rb) as [[c rb1]|]; [|done].
    destruct (rb_read n rb1) as [[cs rb2]|] eqn:E; [|done].
    intros [= <- _]. simpl. f_equal. by eapply IH.
Qed.

Lemma rb_read_holds n rb bs rb' : rb_read n rb = Some (bs, rb') -> holds rb bs rb'.
Proof.
  intros H. unfold holds. by rewrite (rb_read_length _ _ _ _ H).
Qed.

Lemma in_readStrict1_holds r b rb1 :
  rb_read_byte (in_ r) = Some (b, rb1) -> in_readStrict1 r = Ok b (set_in rb1 r).
Proof. intros H. unfold in_readStrict1. by rewrite H. Qed.

Lemma char_continues c :
  (Z.land (char_to_int c) 128 =? 0) = (byte_val c <? 128).
Proof. by destruct c. Qed.

Lemma char_is_one c : (char_to_int c =? 1) = (byte_val c =? 1).
Proof. by destruct c. Qed.

Lemma char_to_UInt64_low c :
  byte_val c < 128 -> char_to_UInt64 c = wrap64 (byte_val c).
Proof.
  intros H. unfold char_to_UInt64, char_to_int.
  by replace (byte_val c <? 128) with true by lia.
Qed.

Lemma char_to_UInt64_high c :
  128 <= byte_val c -> char_to_UInt64 c = wrap64 (byte_val c - 256).
Proof.
  intros H. unfold char_to_UInt64, char_to_int.
  by replace (byte_val c <? 128) with false by lia.
Qed.

Lemma readVarint_from_bytes init : forall (n : nat) i acc last r rb',
  Z.of_nat n = 10 - i -> 0 <= i <= 8 -> 0 <= acc < 2 ^ (7 * i) ->
  varint_bytes_from i init last ->
  holds (in_ r) (init ++ [last]) rb' ->
  readVarint_from n i acc r =
    Ok (acc + 2 ^ (7 * i) * varint_value (init ++ [last]))
       (set_cursor (wrap64 (cursor r + (i + Z.of_nat (length init) + 1))) (set_in rb' r)).
Proof.
  induction init as [|c init IH]; intros n i acc last r rb' Hn Hi Hacc [Hall Hend] Hh.
  - simpl in *. apply holds_cons in Hh as (rb1 & Hb & Hnil).
    apply holds_nil in Hnil as ->.
    destruct n as [|n]; [lia|]. simpl. munfold.
    rewrite (in_readStrict1_holds _ _ _ Hb).
    destruct Hend as [[_ Hlast]|[Hlen _]]; [|lia].
    pose proof (byte_val_range last) as Hr.
    replace (i <? 9) with true by lia.
    rewrite char_continues. replace (byte_val last <? 128) with true by lia.
    rewrite char_to_UInt64_low, varint_step_last by lia.
    unfold add_cursor. simpl.
    rewrite Z.mod_small by lia. do 2 f_equal; [lia|]. f_equal. f_equal. lia.
  - simpl in Hh. apply holds_cons in Hh as (rb1 & Hb & Hh).
    apply Forall_cons in Hall as [Hc Hall].
    pose proof (byte_val_range c) as Hr.
    destruct n as [|n]; [lia|]. simpl readVarint_from. munfold.
    rewrite (in_readStrict1_holds _ _ _ Hb).
    replace (i <? 9) with true by lia.
    rewrite char_continues. replace (byte_val c <? 128) with false by lia.
    rewrite char_to_UInt64_high by lia.
    simpl length in *.
    destruct (Z.eq_dec i 8) as [->|Hi8].
    + destruct init as [|c' init]; [|simpl in Hend; lia].
      destruct Hend as [[Hlen _]|[_ Hlast]]; [simpl in Hlen; lia|].
      simpl in Hh. apply holds_cons in Hh as (rb2 & Hb2 & Hnil).
      apply holds_nil in Hnil as ->.
      destruct n as [|n]; [lia|]. simpl readVarint_from. munfold.
      change (in_ (set_in rb1 r)) with rb1 in *.
      rewrite (in_readStrict1_holds (set_in rb1 r) _ _ Hb2).
      change (8 <? 8) with false. change (8 + 1 <? 9) with false.
      rewrite char_is_one. replace (byte_val last =? 1) with true by lia.
      assert (Hl : last = Byte.x01).
      { clear -Hlast. destruct last; try reflexivity; vm_compute in Hlast; discriminate. }
      subst last. change (char_to_UInt64 Byte.x01) with (wrap64 1).
      change (7 * (8 + 1)) with (7 * 9).
      rewrite (varint_step_8_9 acc (byte_val c)) by lia.
      unfold add_cursor. simpl varint_value.
      replace (byte_val c mod 128) with (byte_val c - 128)
        by (apply (Z.mod_unique _ _ 1); lia).
      change (byte_val Byte.x01 mod 128) with 1.
      reflexivity.
    + replace (i <? 8) with true by lia.
      rewrite varint_step_cont by lia.
      assert (Hpow : 2 ^ (7 * (i + 1)) = 2 ^ (7 * i) * 128).
      { replace (7 * (i + 1)) with (7 * i + 7) by lia.
        rewrite Z.pow_add_r by lia. reflexivity. }
      rewrite (IH n (i + 1) _ last (set_in rb1 r) rb'); try lia; try done.
      * simpl. replace (byte_val c mod 128) with (byte_val c - 128)
          by (apply (Z.mod_unique _ _ 1); lia).
        rewrite Hpow. f_equal; [lia|].
        unfold set_cursor, set_in. simpl. do 2 f_equal. lia.
      * rewrite Hpow. nia.
      * split; [done|]. destruct Hend as [[H1 H2]|[H1 H2]]; [left|right]; split; lia.
Qed.

Lemma pow2_split i : 0 <= i <= 8 -> 2 ^ (64 - 7 * i) = 128 * 2 ^ (64 - 7 * (i + 1)).
Proof.
  intros Hi. replace (64 - 7 * i) with (7 + (64 - 7 * (i + 1))) by lia.
  rewrite Z.pow_add_r by lia. reflexivity.
Qed.

(** The canonical encoding is a well-formed varint with the value encoded. *)
Lemma encodeVarint_from_spec n : forall i v,
  Z.of_nat n = 10 - i -> 0 <= i <= 9 -> 0 <= v < 2 ^ (64 - 7 * i) ->
  (i = 0 \/ 1 <= v) ->
  exists init last,
    encodeVarint_from n v = init ++ [last]
    /\ varint_bytes_from i init last
    /\ varint_value (init ++ [last]) = v.
Proof.
  induction n as [|n IH]; intros i v Hn Hi Hv Hv1; [lia|].
  simpl. destruct (v <? 128) eqn:E.
  - exists [], (byte_of_Z v).
    assert (Hb : byte_val (byte_of_Z v) = v).
    { rewrite byte_val_of_Z. apply Z.mod_small. lia. }
    split; [done|]. split.
    + split; [constructor|]. rewrite Hb. simpl length.
      destruct (Z.eq_dec i 9) as [->|Hi9].
      * right. simpl in Hv. lia.
      * left. lia.
    + simpl. rewrite Hb, Z.mod_small by lia. lia.
  - assert (Hi8 : i <= 8).
    { destruct (Z.eq_dec i 9) as [->|]; [simpl in Hv; lia|lia]. }
    rewrite (pow2_split i) in Hv by lia.
    destruct (IH (i + 1) (v / 128)) as (init & last & He & [Hall Hend] & Hval);
      [lia|lia| |right|].
    + split; [apply Z.div_pos; lia|]. apply Z.div_lt_upper_bound; lia.
    + apply Z.div_le_lower_bound; lia.
    + exists (byte_of_Z (128 + v mod 128) :: init), last.
      pose proof (Z.mod_pos_bound v 128 ltac:(lia)) as Hm.
      assert (Hb : byte_val (byte_of_Z (128 + v mod 128)) = 128 + v mod 128).
      { rewrite byte_val_of_Z. apply Z.mod_small. lia. }
      split; [by rewrite He|]. split.
      * split; [constructor; [lia|done]|]. simpl length.
        destruct Hend as [[H1 H2]|[H1 H2]]; [left|right]; split; lia.
      * simpl. rewrite Hval, Hb.
        replace ((128 + v mod 128) mod 128) with (v mod 128)
          by (apply (Z.mod_unique _ _ 1); lia).
        pose proof (Z.div_mod v 128 ltac:(lia)). lia.
Qed.

Lemma encodeVarint_spec v :
  0 <= v < 2 ^ 64 ->
  exists init last,
    encodeVarint v = init ++ [last]
    /\ varint_bytes_from 0 init last
    /\ varint_value (init ++ [last]) = v.
Proof.
  intros Hv. apply (encodeVarint_from_spec 10 0 v); [reflexivity|lia|exact Hv|by left].
Qed.

Lemma encodeVarint_length v :
  0 <= v < 2 ^ 64 -> (1 <= length (encodeVarint v) <= 10)%nat.
Proof.
  intros Hv. destruct (encodeVarint_spec v Hv) as (init & last & -> & [_ Hend] & _).
  rewrite length_app. simpl. lia.
Qed.

(** Reading the canonical encoding of [v] returns [v] and moves the cursor
    by the length of the encoding. *)
Lemma readVarint_encodeVarint r v rb' :
  0 <= v < 2 ^ 64 ->
  holds (in_ r) (encodeVarint v) rb' ->
  readVarint r =
    Ok v (set_cursor (wrap64 (cursor r + Z.of_nat (length (encodeVarint v)))) (set_in rb' r)).
Proof.
  intros Hv Hh.
  destruct (encodeVarint_spec v Hv) as (init & last & He & Hwf & Hval).
  rewrite He in *. unfold readVarint.
  rewrite (readVarint_from_bytes init 10 0 0 last r rb'); try done; try lia.
  rewrite Hval, length_app. simpl. do 2 f_equal; [lia|]. do 2 f_equal. lia.
Qed.

(** Bytes with the continuation bit are read through, up to the ninth. *)
Lemma readVarint_from_continued init : forall (m : nat) i acc r rb1,
  0 <= i -> i + Z.of_nat (length init) <= 9 ->
  Forall (fun b => 128 <= byte_val b) init ->
  holds (in_ r) init rb1 ->
  exists acc',
    readVarint_from (length init + m) i acc r
    = readVarint_from m (i + Z.of_nat (length init)) acc' (set_in rb1 r).
Proof.
  induction init as [|c init IH]; intros m i acc r rb1 Hi Hlen Hall Hh.
  - apply holds_nil in Hh as ->. exists acc. simpl.
    replace (i + Z.of_nat 0) with i by lia. by destruct r.
  - apply holds_cons in Hh as (rb0 & Hb & Hh).
    apply Forall_cons in Hall as [Hc Hall]. simpl length in *.
    simpl readVarint_from. munfold.
    rewrite (in_readStrict1_holds _ _ _ Hb).
    replace (i <? 9) with true by lia.
    rewrite char_continues. replace (byte_val c <? 128) with false by lia.
    edestruct (IH m (i + 1)) as (acc' & ->); [| |exact Hall|exact Hh|]; [lia|lia|].
    exists acc'. f_equal. lia.
Qed.

(** Whenever [readVarint] returns, it has consumed between one and ten
    bytes and advanced the cursor by their number. *)
Lemma readVarint_from_consumes n : forall i acc r v r',
  readVarint_from n i acc r = Ok v r' ->
  exists bs, (1 <= length bs <= n)%nat
             /\ holds (in_ r) bs (in_ r')
             /\ cursor r' = wrap64 (cursor r + (i + Z.of_nat (length bs))).
Proof.
  induction n as [|n IH]; intros i acc r v r'; simpl; [done|]. munfold.
  unfold in_readStrict1.
  destruct (rb_read_byte (in_ r)) as [[c rb1]|] eqn:Hb; [|done].
  assert (Hone : forall w, add_cursor (i + 1) (set_in rb1 r) = Ok w r' ->
            exists bs, (1 <= length bs <= S n)%nat
                       /\ holds (in_ r) bs (in_ r')
                       /\ cursor r' = wrap64 (cursor r + (i + Z.of_nat (length bs)))).
  { intros w [= _ <-]. exists [c]. split; [simpl; lia|]. split.
    - apply holds_cons. exists rb1. split; [done|]. by apply holds_nil.
    - reflexivity. }
  assert (Hmore : forall acc', readVarint_from n (i + 1) acc' (set_in rb1 r) = Ok v r' ->
            exists bs, (1 <= length bs <= S n)%nat
                       /\ holds (in_ r) bs (in_ r')
                       /\ cursor r' = wrap64 (cursor r + (i + Z.of_nat (length bs)))).
  { intros acc' H. apply IH in H as (bs & Hl & Hh & Hc).
    exists (c :: bs). split; [simpl; lia|]. split.
    - apply holds_cons. by exists rb1.
    - rewrite Hc. simpl cursor. simpl length. f_equal. lia. }
  destruct (i <? 9).
  - destruct (Z.land (char_to_int c) 128 =? 0).
    + destruct (add_cursor (i + 1) (set_in rb1 r)) as [w s| | |] eqn:Ea; try done.
      intros [= <- <-]. by eapply Hone.
    + apply Hmore.
  - destruct (char_to_int c =? 1).
    + destruct (add_cursor (i + 1) (set_in rb1 r)) as [w s| | |] eqn:Ea; try done.
      intros [= <- <-]. by eapply Hone.
    + apply Hmore.
Qed.

(** C5.  On the canonical encoding of any value below [2^64], [readVarint]
    returns the value and moves the cursor by the length of the encoding,
    between 1 and 10 bytes.  When nine bytes with the continuation bit are
    followed by a tenth byte, [readVarint] returns the base-128 value if
    that byte is 0x01 and raises UnknownFormat for any other value.  Every
    call that returns has consumed between 1 and 10 bytes. *)
Theorem readVarint_spec (r : SimpleReader) :
  (forall v rb', 0 <= v < 2 ^ 64 ->
     holds (in_ r) (encodeVarint v) rb' ->
     (1 <= length (encodeVarint v) <= 10)%nat
     /\ readVarint r =
        Ok v (set_cursor (wrap64 (cursor r + Z.of_nat (length (encodeVarint v))))
                (set_in rb' r)))
  /\ (forall init tenth rb',
        length init = 9%nat ->
        Forall (fun b => 128 <= byte_val b) init ->
        holds (in_ r) (init ++ [tenth]) rb' ->
        (tenth = Byte.x01 ->
         readVarint r =
           Ok (varint_value (init ++ [tenth]))
              (set_cursor (wrap64 (cursor r + 10)) (set_in rb' r)))
        /\ (tenth <> Byte.x01 -> readVarint r = Throw UnknownFormat))
  /\ (forall v r', readVarint r = Ok v r' ->
        exists bs, (1 <= length bs <= 10)%nat
                   /\ holds (in_ r) bs (in_ r')
                   /\ cursor r' = wrap64 (cursor r + Z.of_nat (length bs))).
Proof.
  split; [|split].
  - intros v rb' Hv Hh. split; [by apply encodeVarint_length|].
    by apply readVarint_encodeVarint.
  - intros init tenth rb' Hlen Hall Hh. split.
    + intros ->. unfold readVarint.
      rewrite (readVarint_from_bytes init 10 0 0 Byte.x01 r rb'); try done; try lia.
      * rewrite Hlen. f_equal. lia.
      * split; [done|]. right. rewrite Hlen. split; [lia|reflexivity].
    + intros Hne. apply holds_app in Hh as (rb1 & Hinit & Hlast).
      apply holds_cons in Hlast as (rb2 & Hb & _).
      destruct (readVarint_from_continued init 1 0 0 r rb1) as (acc' & Heq);
        [lia|lia|done|done|].
      unfold readVarint. rewrite Hlen in Heq. simpl plus in Heq. rewrite Heq.
      simpl. munfold. change (in_ (set_in rb1 r)) with rb1 in *.
      rewrite (in_readStrict1_holds (set_in rb1 r) _ _ Hb).
      rewrite char_is_one.
      replace (byte_val tenth =? 1) with false; [reflexivity|].
      symmetry. apply Z.eqb_neq. intros Hone. apply Hne.
      clear -Hone. destruct tenth; try reflexivity; vm_compute in Hone; discriminate.
  - intros v r' H. apply readVarint_from_consumes in H as (bs & Hl & Hh & Hc).
    exists bs. split; [lia|]. split; [done|]. rewrite Hc. f_equal.
Qed.

Lemma readVarint_spec_witness :
  readVarint (SimpleReader_init (mkReadBuffer [Byte.xac; Byte.x02; Byte.x00] 0 []))
  = Ok 300 (mkSimpleReader (mkReadBuffer [Byte.xac; Byte.x02; Byte.x00] 2 []) 3
              REACHED_END REACHED_END []).
Proof.
  refine (proj2 (proj1 (readVarint_spec
            (SimpleReader_init (mkReadBuffer [Byte.xac; Byte.x02; Byte.x00] 0 [])))
            300 (mkReadBuffer [Byte.xac; Byte.x02; Byte.x00] 2 []) _ _)).
  - lia.
  - vm_compute. reflexivity.
Defined.

(** ** Typed reads: readUInt *)

Lemma END_OF_VARINT_eq : END_OF_VARINT = 2 ^ 64 - 1.
Proof. reflexivity. Qed.

Lemma END_OF_GROUP_eq : END_OF_GROUP = 2 ^ 64 - 2.
Proof. reflexivity. Qed.

Lemma readUInt_consumed r :
  field_end r = REACHED_END -> 0 <= cursor r -> readUInt r = Ok None r.
Proof.
  intros Hf Hc. unfold readUInt. munfold. rewrite Hf.
  replace (cursor r >=? REACHED_END) with true by (unfold REACHED_END; lia).
  destruct r as [rb c e f p]. simpl in *. by subst.
Qed.

Lemma readUInt_one r v r1 :
  cursor r < field_end r ->
  readVarint r = Ok v r1 ->
  readUInt r =
    Ok (Some v)
       (if (field_end r =? END_OF_VARINT) || (cursor r1 >=? field_end r)
        then set_field_end REACHED_END r1 else r1).
Proof.
  intros Hc Hv. unfold readUInt. munfold.
  replace (cursor r >=? field_end r) with false by lia.
  rewrite Hv. destruct (readVarint_frame _ _ _ Hv) as (_ & Hf & _). rewrite Hf.
  by destruct ((field_end r =? END_OF_VARINT) || (cursor r1 >=? field_end r)).
Qed.

Lemma concat_encodeVarint_length vs :
  vs <> [] -> Forall (fun v => 0 <= v < 2 ^ 64) vs ->
  (1 <= length (concat (List.map encodeVarint vs)))%nat.
Proof.
  destruct vs as [|v vs]; [done|]. intros _ Hall.
  apply Forall_cons in Hall as [Hv _]. simpl. rewrite length_app.
  pose proof (encodeVarint_length v Hv). lia.
Qed.

Lemma readUInt_repeat_packed vs : forall r rb',
  vs <> [] -> Forall (fun v => 0 <= v < 2 ^ 64) vs ->
  holds (in_ r) (concat (List.map encodeVarint vs)) rb' ->
  0 <= cursor r ->
  field_end r = cursor r + Z.of_nat (length (concat (List.map encodeVarint vs))) ->
  field_end r < END_OF_GROUP ->
  readUInt_repeat (length vs) r =
    Ok (List.map Some vs)
       (mkSimpleReader rb' (field_end r) (current_message_end r) REACHED_END
          (parent_message_ends r)).
Proof.
  induction vs as [|v vs IH]; intros r rb' Hne Hall Hh Hc Hf Hg; [done|].
  apply Forall_cons in Hall as [Hv Hall].
  simpl in Hh, Hf. apply holds_app in Hh as (rb1 & Hh1 & Hh2).
  rewrite length_app in Hf.
  pose proof (encodeVarint_length v Hv) as Hlen.
  rewrite END_OF_GROUP_eq in Hg.
  pose proof (readVarint_encodeVarint r v rb1 Hv Hh1) as Hread.
  simpl readUInt_repeat. munfold.
  rewrite (readUInt_one r v _ ltac:(lia) Hread).
  replace (field_end r =? END_OF_VARINT) with false
    by (symmetry; apply Z.eqb_neq; rewrite END_OF_VARINT_eq; lia).
  simpl cursor.
  assert (Hw : wrap64 (cursor r + Z.of_nat (length (encodeVarint v)))
               = cursor r + Z.of_nat (length (encodeVarint v)))
    by (unfold wrap64; apply Z.mod_small; lia).
  rewrite Hw. simpl orb.
  destruct vs as [|v' vs].
  - simpl in Hh2, Hf. apply holds_nil in Hh2 as ->.
    replace (cursor r + Z.of_nat (length (encodeVarint v)) >=? field_end r) with true by lia.
    simpl. do 2 f_equal. unfold set_field_end, set_cursor, set_in. simpl. f_equal. lia.
  - pose proof (concat_encodeVarint_length (v' :: vs) ltac:(done) Hall) as Hrest.
    replace (cursor r + Z.of_nat (length (encodeVarint v)) >=? field_end r) with false by lia.
    rewrite (IH _ rb'); try done;
      unfold set_cursor, set_in; cbn [cursor field_end]; rewrite ?END_OF_GROUP_eq; lia.
Qed.

(** C9.  With [field_end] a position of the stream and the cursor before
    it, a call of [readUInt] decodes one varint and returns true, and clears
    [field_end] exactly when the cursor has reached or passed it; on a field
    already consumed it returns false.  For a VARINT field the first call
    returns the value and clears [field_end], the second returns false.  On a
    packed payload of canonical varints the calls return the elements one by
    one, and the call after the last one returns false. *)
Theorem readUInt_spec (r : SimpleReader) :
  (REACHED_END < field_end r < END_OF_GROUP ->
   cursor r < field_end r ->
   forall v r1, readVarint r = Ok v r1 ->
     readUInt r =
       Ok (Some v) (if cursor r1 >=? field_end r
                    then set_field_end REACHED_END r1 else r1))
  /\ (field_end r = REACHED_END -> 0 <= cursor r -> readUInt r = Ok None r)
  /\ (field_end r = END_OF_VARINT ->
      0 <= cursor r < END_OF_VARINT ->
      forall v r1, readVarint r = Ok v r1 ->
        readUInt r = Ok (Some v) (set_field_end REACHED_END r1)
        /\ readUInt (set_field_end REACHED_END r1)
           = Ok None (set_field_end REACHED_END r1))
  /\ (forall vs rb',
        vs <> [] -> Forall (fun v => 0 <= v < 2 ^ 64) vs ->
        holds (in_ r) (concat (List.map encodeVarint vs)) rb' ->
        0 <= cursor r ->
        field_end r = cursor r + Z.of_nat (length (concat (List.map encodeVarint vs))) ->
        field_end r < END_OF_GROUP ->
        let r_end := mkSimpleReader rb' (field_end r) (current_message_end r)
                       REACHED_END (parent_message_ends r) in
        readUInt_repeat (length vs) r = Ok (List.map Some vs) r_end
        /\ readUInt r_end = Ok None r_end).
Proof.
  split; [|split; [|split]].
  - intros [Hlo Hhi] Hc v r1 Hv. rewrite (readUInt_one r v r1 Hc Hv).
    replace (field_end r =? END_OF_VARINT) with false; [done|].
    symmetry. apply Z.eqb_neq. rewrite END_OF_VARINT_eq. rewrite END_OF_GROUP_eq in Hhi. lia.
  - apply readUInt_consumed.
  - intros Hf [Hc0 Hc] v r1 Hv. split.
    + rewrite (readUInt_one r v r1 ltac:(lia) Hv). rewrite Hf.
      by rewrite Z.eqb_refl.
    + apply readUInt_consumed; [reflexivity|]. simpl.
      apply readVarint_from_consumes in Hv as (bs & _ & _ & ->).
      unfold wrap64. apply Z.mod_pos_bound. lia.
  - intros vs rb' Hne Hall Hh Hc Hf Hg r_end. split.
    + by apply readUInt_repeat_packed.
    + apply readUInt_consumed; [reflexivity|]. simpl. lia.
Qed.

Lemma readUInt_spec_witness :
  readUInt_repeat 2 packed_state
  = Ok [Some 1; Some 300]
       (mkSimpleReader (mkReadBuffer [Byte.x01; Byte.xac; Byte.x02] 3 []) 4 4 REACHED_END [])
  /\ readUInt (mkSimpleReader (mkReadBuffer [Byte.x01; Byte.xac; Byte.x02] 3 []) 4 4
                 REACHED_END [])
     = Ok None (mkSimpleReader (mkReadBuffer [Byte.x01; Byte.xac; Byte.x02] 3 []) 4 4
                  REACHED_END []).
Proof.
  refine (proj2 (proj2 (proj2 (readUInt_spec packed_state))) [1; 300]
            (mkReadBuffer [Byte.x01; Byte.xac; Byte.x02] 3 []) _ _ _ _ _ _).
  - discriminate.
  - repeat constructor; lia.
  - vm_compute. reflexivity.
  - simpl. lia.
  - vm_compute. reflexivity.
  - vm_compute. reflexivity.
Defined.

(** ** Ranges of the values the scanner returns *)

Lemma in64_iff x : 0 <= x < 2 ^ 64 <-> Z.land x (Z.ones 64) = x.
Proof.
  rewrite Z.land_ones by lia. split.
  - intros H. apply Z.mod_small. lia.
  - intros <-. apply Z.mod_pos_bound. lia.
Qed.

Lemma wrap64_range z : 0 <= wrap64 z < 2 ^ 64.
Proof. unfold wrap64. apply Z.mod_pos_bound. lia. Qed.

Lemma lor_range a b :
  0 <= a < 2 ^ 64 -> 0 <= b < 2 ^ 64 -> 0 <= Z.lor a b < 2 ^ 64.
Proof.
  rewrite !in64_iff. intros Ha Hb. by rewrite Z.land_lor_distr_l, Ha, Hb.
Qed.

Lemma lxor_range a b :
  0 <= a < 2 ^ 64 -> 0 <= b < 2 ^ 64 -> 0 <= Z.lxor a b < 2 ^ 64.
Proof.
  rewrite !in64_iff. intros Ha Hb. apply Z.bits_inj'. intros n Hn.
  rewrite Z.land_spec, Z.lxor_spec, Z.testbit_ones_nonneg by lia.
  destruct (n <? 64) eqn:E; [apply andb_true_r|].
  rewrite <- Ha, <- Hb, !Z.land_spec, Z.testbit_ones_nonneg, E by lia.
  by rewrite !andb_false_r.
Qed.

Lemma land_range a m : 0 <= a < 2 ^ 64 -> 0 <= Z.land a m < 2 ^ 64.
Proof.
  rewrite !in64_iff. intros Ha.
  by rewrite <- Z.land_assoc, (Z.land_comm m), Z.land_assoc, Ha.
Qed.

Lemma readVarint_from_range n : forall i acc r v r',
  0 <= acc < 2 ^ 64 ->
  readVarint_from n i acc r = Ok v r' -> 0 <= v < 2 ^ 64.
Proof.
  induction n as [|n IH]; intros i acc r v r' Hacc; simpl; [done|]. munfold.
  destruct (in_readStrict1 r) as [c r1| | |]; try done.
  pose proof (lor_range acc _ Hacc (wrap64_range (Z.shiftl (char_to_UInt64 c) (7 * i)))) as Hl.
  destruct (i <? 9).
  - destruct (Z.land (char_to_int c) 128 =? 0).
    + unfold add_cursor. by intros [= <- _].
    + apply IH. destruct (i <? 8); [by apply land_range|done].
  - destruct (char_to_int c =? 1).
    + unfold add_cursor. by intros [= <- _].
    + by apply IH.
Qed.

Lemma readVarint_range r v r' : readVarint r = Ok v r' -> 0 <= v < 2 ^ 64.
Proof. apply readVarint_from_range. lia. Qed.

Lemma readUInt_range r v r' : readUInt r = Ok (Some v) r' -> 0 <= v < 2 ^ 64.
Proof.
  unfold readUInt. munfold. destruct (cursor r >=? field_end r); [done|].
  destruct (readVarint r) as [w r1| | |] eqn:Hv; try done.
  apply readVarint_range in Hv.
  destruct ((field_end r1 =? END_OF_VARINT) || (cursor r1 >=? field_end r1));
    simpl; by intros [= <- _].
Qed.

Lemma to_Int64_range z : 0 <= z < 2 ^ 64 -> - 2 ^ 63 <= to_Int64 z < 2 ^ 63.
Proof. intros H. unfold to_Int64. destruct (z <? 2 ^ 63) eqn:E; lia. Qed.

Lemma readInt_range r v r' : readInt r = Ok (Some v) r' -> - 2 ^ 63 <= v < 2 ^ 63.
Proof.
  unfold readInt. munfold.
  destruct (readUInt r) as [[w|] r1| | |] eqn:Hv; try done.
  apply readUInt_range in Hv. intros [= <- _]. by apply to_Int64_range.
Qed.

Lemma decodeZigZag_range n : 0 <= n < 2 ^ 64 -> - 2 ^ 63 <= decodeZigZag n < 2 ^ 63.
Proof.
  intros Hn. unfold decodeZigZag. apply to_Int64_range.
  apply lxor_range; [|apply wrap64_range].
  rewrite Z.shiftr_div_pow2 by lia. split.
  - apply Z.div_pos; lia.
  - apply Z.div_lt_upper_bound; lia.
Qed.

Lemma readSInt_range r v r' : readSInt r = Ok (Some v) r' -> - 2 ^ 63 <= v < 2 ^ 63.
Proof.
  unfold readSInt. munfold.
  destruct (readUInt r) as [[w|] r1| | |] eqn:Hv; try done.
  apply readUInt_range in Hv. intros [= <- _]. by apply decodeZigZag_range.
Qed.

Lemma le_value_range bs : 0 <= le_value bs < 256 ^ Z.of_nat (length bs).
Proof.
  induction bs as [|b bs IH].
  - simpl. lia.
  - simpl length. rewrite Nat2Z.inj_succ, Z.pow_succ_r by lia. simpl le_value.
    pose proof (byte_val_range b). lia.
Qed.

Lemma readFixed_length size r bs r' :
  readFixed size r = Ok (Some bs) r' -> length bs = Z.to_nat size.
Proof.
  unfold readFixed, readBinary, in_readStrict, add_cursor. munfold.
  destruct (cursor r >=? field_end r); [done|].
  destruct (rb_read (Z.to_nat size) (in_ r)) as [[cs rb]|] eqn:E; [|done].
  apply rb_read_length in E. simpl.
  match goal with |- context [if ?b then _ else _] => destruct b end;
    simpl; by intros [= <- _].
Qed.

Lemma static_cast_range t z :
  is_integral t = true -> num_lowest t <= static_cast t z <= num_max t.
Proof.
  intros Ht. unfold static_cast.
  assert (0 < num_max t - num_lowest t + 1) by (destruct t; try done; simpl; lia).
  pose proof (Z.mod_pos_bound (z - num_lowest t) (num_max t - num_lowest t + 1)). lia.
Qed.

Lemma in_range_iff t z :
  in_range t z = true <-> num_lowest t <= z <= num_max t.
Proof. unfold in_range. lia. Qed.

(** A number converter with an integral carrier reads values of the
    carrier. *)
Lemma FromNumber_readField_range field_type_id T r number r' :
  number_carrier field_type_id = Some T ->
  is_integral T = true ->
  FromNumber_readField field_type_id r = Ok (Some number) r' ->
  in_range T number = true.
Proof.
  intros HT Hint Hread. apply in_range_iff.
  assert (Hfix : forall (size : Z) (f : list Byte.byte -> Z),
            option_map_value f (readFixed size) r = Ok (Some number) r' ->
            exists bs, number = f bs /\ length bs = Z.to_nat size).
  { intros size f. unfold option_map_value. munfold.
    destruct (readFixed size r) as [[bs|] r1| | |] eqn:E; try done.
    intros [= <- _]. exists bs. split; [done|]. by eapply readFixed_length. }
  destruct field_type_id; simpl in HT; try done; injection HT as <-; try done;
    simpl in Hread |- *.
  - apply readInt_range in Hread. lia.
  - apply readUInt_range in Hread. lia.
  - apply readInt_range in Hread. lia.
  - apply Hfix in Hread as (bs & -> & Hl).
    pose proof (le_value_range bs) as Hr. rewrite Hl in Hr.
    change (256 ^ Z.of_nat (Z.to_nat 8)) with (2 ^ 64) in Hr. lia.
  - apply Hfix in Hread as (bs & -> & Hl).
    pose proof (le_value_range bs) as Hr. rewrite Hl in Hr.
    change (256 ^ Z.of_nat (Z.to_nat 4)) with (2 ^ 32) in Hr. lia.
  - apply readUInt_range in Hread. lia.
  - apply Hfix in Hread as (bs & -> & Hl). by apply (static_cast_range Int32).
  - apply Hfix in Hread as (bs & -> & Hl). by apply (static_cast_range Int64).
  - apply readSInt_range in Hread. lia.
  - apply readSInt_range in Hread. lia.
Qed.

(** ** Number converters: the range-checked cast *)

Lemma NumType_eqb_eq a b : NumType_eqb a b = true -> a = b.
Proof. by destruct a, b. Qed.

(** C6.  Every number converter narrows the decoded value with
    [numericCast]: the value is returned as it is when the target is the
    carrier type, and otherwise BadCast is raised exactly when the cast
    throws.  With an integral carrier and an integral target the cast is a
    range check: the value is returned when the target can represent it, and
    BadCast is raised otherwise.  With the carrier [float] or [double] and an
    integral target the cast is a range check as well: BadCast is raised for
    an infinity and for every finite value that, its fractional part
    discarded, the target cannot represent; a value that the target can
    represent is returned without its fractional part; and no other value is
    ever returned.  For a NaN the converter does what the cast does. *)
Theorem FromNumber_readNumeric_range_checked
    (boost_float : NumType -> NumType -> Z -> option Z)
    (field_type_id : FieldType) (T To : NumType)
    (s : SimpleReader * ConverterFromNumber) (number : Z) (r' : SimpleReader) :
  number_carrier field_type_id = Some T ->
  is_integral To = true ->
  FromNumber_readField field_type_id (fst s) = Ok (Some number) r' ->
  FromNumber_readNumeric boost_float field_type_id T To s =
    match (if NumType_eqb To T then Some number
           else boost_numeric_cast boost_float To T number) with
    | Some value => Ok (Some value) (r', snd s)
    | None => Throw BadCast
    end
  /\ (is_integral T = true ->
      FromNumber_readNumeric boost_float field_type_id T To s =
        if in_range To number then Ok (Some number) (r', snd s) else Throw BadCast)
  /\ (is_integral T = false ->
      forall open : NumType -> NumType -> Z -> option Z,
        let result :=
          FromNumber_readNumeric (boost_numeric_cast_floating open) field_type_id T To s in
        match float_decode T number with
        | FNaN =>
            result = match open To T number with
                     | Some value => Ok (Some value) (r', snd s)
                     | None => Throw BadCast
                     end
        | FInf _ => result = Throw BadCast
        | FFinite negative m e =>
            let truncated := float_truncate negative m e in
            (in_range To truncated = false -> result = Throw BadCast)
            /\ (in_range To truncated = true ->
                float_bound_is_exact T To = true \/ num_lowest To < truncated ->
                result = Ok (Some truncated) (r', snd s))
            /\ (forall value s', result = Ok (Some value) s' ->
                  value = truncated /\ in_range To value = true)
        end).
Proof.
  intros HT HiTo Hread.
  assert (Hcast : forall boost,
    FromNumber_readNumeric boost field_type_id T To s =
    match (if NumType_eqb To T then Some number
           else boost_numeric_cast boost To T number) with
    | Some value => Ok (Some value) (r', snd s)
    | None => Throw BadCast
    end).
  { intros boost. unfold FromNumber_readNumeric, numericCast. munfold. rewrite Hread.
    destruct (NumType_eqb To T); [done|].
    by destruct (boost_numeric_cast boost To T number). }
  split; [exact (Hcast boost_float)|]. split.
  - intros HiT. rewrite Hcast.
    pose proof (FromNumber_readField_range _ _ _ _ _ HT HiT Hread) as Hrange.
    unfold boost_numeric_cast. destruct (NumType_eqb To T) eqn:E.
    + apply NumType_eqb_eq in E as ->. by rewrite Hrange.
    + rewrite HiT, HiTo. simpl. by destruct (in_range To number).
  - intros HiT open result. unfold result. rewrite Hcast.
    assert (Hne : NumType_eqb To T = false).
    { destruct (NumType_eqb To T) eqn:E; [|done].
      apply NumType_eqb_eq in E as ->. congruence. }
    rewrite Hne. unfold boost_numeric_cast, boost_numeric_cast_floating.
    rewrite HiTo, HiT. cbn [andb negb].
    destruct (float_decode T number) as [|negative|negative m e]; [done|done|].
    cbv zeta.
    set (truncated := float_truncate negative m e).
    set (below := if float_bound_is_exact T To then num_lowest To - 1 else num_lowest To).
    assert (Hbelow : below = num_lowest To - 1 \/ below = num_lowest To)
      by (unfold below; destruct (float_bound_is_exact T To); auto).
    unfold in_range.
    destruct ((below <? truncated) && (truncated <? num_max To + 1)) eqn:Hcheck.
    + apply andb_true_iff in Hcheck as [Hlo Hhi].
      split; [intros Hout; lia|]. split; [done|].
      intros value s' [= <- _]. split; [done|lia].
    + apply andb_false_iff in Hcheck.
      split; [done|]. split; [|done].
      intros Hin [Hexact|Hlowest].
      * unfold below in Hcheck. rewrite Hexact in Hcheck. lia.
      * lia.
Qed.

Lemma varint_300_field_reached :
  (run startMessage; readFieldNumber)
    (SimpleReader_init (mkReadBuffer [Byte.x03; Byte.x08; Byte.xac; Byte.x02] 0 []))
  = Ok (Some 1) varint_300_field.
Proof. vm_compute. reflexivity. Qed.

Lemma float_infinity_field_reached :
  (run startMessage; readFieldNumber)
    (SimpleReader_init
       (mkReadBuffer [Byte.x05; Byte.x0d; Byte.x00; Byte.x00; Byte.x80; Byte.x7f] 0 []))
  = Ok (Some 1) float_infinity_field.
Proof. vm_compute. reflexivity. Qed.

(** Decoding the wire value 300 of a UInt64 field into a UInt8 target raises
    BadCast, and so does decoding the infinity of a float field. *)
Lemma FromNumber_readNumeric_range_checked_witness :
  FromNumber_readNumeric (fun _ _ _ => None) TYPE_UINT64 UInt64 UInt8
    (varint_300_field, mkConverterFromNumber None)
  = Throw BadCast
  /\ FromNumber_readNumeric (boost_numeric_cast_floating (fun _ _ _ => None))
       TYPE_FLOAT Float32 UInt8
       (float_infinity_field, mkConverterFromNumber None)
     = Throw BadCast.
Proof.
  split.
  - refine (proj1 (proj2 (FromNumber_readNumeric_range_checked (fun _ _ _ => None)
                   TYPE_UINT64 UInt64 UInt8
                   (varint_300_field, mkConverterFromNumber None) 300
                   (mkSimpleReader
                      (mkReadBuffer [Byte.x03; Byte.x08; Byte.xac; Byte.x02] 4 []) 5 5
                      REACHED_END []) _ _ _)) _).
    + reflexivity.
    + reflexivity.
    + vm_compute. reflexivity.
    + reflexivity.
  - refine (proj2 (proj2 (FromNumber_readNumeric_range_checked (fun _ _ _ => None)
                   TYPE_FLOAT Float32 UInt8
                   (float_infinity_field, mkConverterFromNumber None) 2139095040
                   (mkSimpleReader
                      (mkReadBuffer
                         [Byte.x05; Byte.x0d; Byte.x00; Byte.x00; Byte.x80; Byte.x7f] 6 [])
                      7 7 REACHED_END []) _ _ _)) _ (fun _ _ _ => None)).
    + reflexivity.
    + reflexivity.
    + vm_compute. reflexivity.
    + reflexivity.
Defined.

(** The float 255.5 of such a field is returned as 255 into a UInt8 target,
    and the float 256 raises BadCast. *)
Lemma FromNumber_readNumeric_float_examples :
  FromNumber_readNumeric (boost_numeric_cast_floating (fun _ _ _ => None))
    TYPE_FLOAT Float32 UInt8
    (mkSimpleReader (mkReadBuffer [Byte.x00; Byte.x80; Byte.x7f; Byte.x43] 0 []) 3 7 7 [],
     mkConverterFromNumber None)
  = Ok (Some 255)
       (mkSimpleReader (mkReadBuffer [Byte.x00; Byte.x80; Byte.x7f; Byte.x43] 4 []) 7 7
          REACHED_END [],
        mkConverterFromNumber None)
  /\ FromNumber_readNumeric (boost_numeric_cast_floating (fun _ _ _ => None))
       TYPE_FLOAT Float32 UInt8
       (mkSimpleReader (mkReadBuffer [Byte.x00; Byte.x00; Byte.x80; Byte.x43] 0 []) 3 7 7 [],
        mkConverterFromNumber None)
     = Throw BadCast.
Proof. split; vm_compute; reflexivity. Qed.

(** The value 200 of the same field fits a UInt8 target and is returned. *)
Lemma FromNumber_readNumeric_in_range :
  FromNumber_readNumeric (fun _ _ _ => None) TYPE_UINT64 UInt64 UInt8
    (mkSimpleReader (mkReadBuffer [Byte.xc8; Byte.x01] 0 []) 3 5 END_OF_VARINT [],
     mkConverterFromNumber None)
  = Ok (Some 200)
       (mkSimpleReader (mkReadBuffer [Byte.xc8; Byte.x01] 2 []) 5 5 REACHED_END [],
        mkConverterFromNumber None).
Proof. vm_compute. reflexivity. Qed.

(** ** The TYPE_ENUM converter *)

Lemma emplace_lookup `{Countable K} {V} (k k' : K) (v : V) (m : gmap K V) :
  emplace k v m !! k' =
  match m !! k' with
  | Some x => Some x
  | None => if decide (k = k') then Some v else None
  end.
Proof.
  unfold emplace. destruct (m !! k) as [x|] eqn:E.
  - destruct (m !! k') as [y|] eqn:E'; [done|].
    destruct (decide (k = k')) as [->|]; [congruence|done].
  - destruct (decide (k = k')) as [->|Hne].
    + by rewrite lookup_insert_eq, E.
    + rewrite lookup_insert_ne by done. by destruct (m !! k').
Qed.

Lemma pbnumber_to_name_fold enum_type : forall (m : gmap Z string) number,
  fold_left (fun m p => emplace (snd p) (fst p) m) enum_type m !! number =
  match m !! number with
  | Some name => Some name
  | None => name_of_number enum_type number
  end.
Proof.
  induction enum_type as [|[name n] l IH]; intros m number; simpl.
  - unfold name_of_number. simpl. by destruct (m !! number).
  - rewrite IH, emplace_lookup. unfold name_of_number. simpl.
    destruct (m !! number) as [x|]; [done|].
    destruct (decide (n = number)) as [->|Hne].
    + by rewrite Z.eqb_refl.
    + by replace (n =? number) with false by lia.
Qed.

Lemma pbnumber_to_name_loop_lookup enum_type number :
  pbnumber_to_name_loop enum_type !! number = name_of_number enum_type number.
Proof.
  unfold pbnumber_to_name_loop. by rewrite pbnumber_to_name_fold, lookup_empty.
Qed.

Lemma pbnumber_to_value_fold enum_type pairs : forall (m : gmap Z Z) number,
  fold_left
    (fun m p =>
       let value := snd p in
       match FindValueByName enum_type (fst p) with
       | Some number => emplace number value m
       | None => m
       end) pairs m !! number =
  match m !! number with
  | Some value => Some value
  | None => target_value_of_number enum_type pairs number
  end.
Proof.
  induction pairs as [|[name value] l IH]; intros m number; simpl.
  - unfold target_value_of_number. simpl. by destruct (m !! number).
  - rewrite IH. unfold target_value_of_number. simpl.
    destruct (FindValueByName enum_type name) as [n|].
    + rewrite emplace_lookup. destruct (m !! number) as [x|]; [done|].
      destruct (decide (n = number)) as [->|Hne].
      * by rewrite Z.eqb_refl.
      * by replace (n =? number) with false by lia.
    + by destruct (m !! number).
Qed.

Lemma pbnumber_to_value_loop_lookup enum_type pairs number :
  pbnumber_to_value_loop enum_type pairs !! number
  = target_value_of_number enum_type pairs number.
Proof.
  unfold pbnumber_to_value_loop. by rewrite pbnumber_to_value_fold, lookup_empty.
Qed.

(** [static_cast] keeps a value the target type can represent. *)
Lemma static_cast_in_range t z :
  is_integral t = true -> in_range t z = true -> static_cast t z = z.
Proof.
  intros Ht Hr. apply in_range_iff in Hr. unfold static_cast.
  rewrite Z.mod_small; lia.
Qed.

(** C7.  The TYPE_ENUM converter takes the enum number from [readInt], a
    varint read as a signed 64-bit value.  For a String target it writes the
    name the descriptor gives to the number and raises BadCast when there is
    none.  For an integral target it returns the number when the target can
    represent it and raises BadCast otherwise.  For an Enum8 or Enum16
    target, after the mapping was prepared from the supplied pairs, it
    returns the value of the first pair whose name the descriptor declares
    with that number and raises BadCast when there is none. *)
Theorem Enum_converter_spec
    (boost_float : NumType -> NumType -> Z -> option Z)
    (r r' : SimpleReader) (c : ConverterEnum) (pbnumber : Z) :
  readInt r = Ok (Some pbnumber) r' ->
  Enum_readField (r, c) = Ok (Some pbnumber) (r', c)
  /\ (enum_pbnumber_to_name_map c = None
      \/ enum_pbnumber_to_name_map c = Some (pbnumber_to_name_loop (field_enum_type c)) ->
      Enum_readStringInto (r, c) =
        match name_of_number (field_enum_type c) pbnumber with
        | Some name =>
            Ok (Some name)
               (r', mkConverterEnum (field_enum_type c)
                      (Some (pbnumber_to_name_loop (field_enum_type c)))
                      (enum_pbnumber_to_value_map c))
        | None => Throw BadCast
        end)
  /\ (forall T, is_integral T = true ->
        Enum_readNumeric boost_float T (r, c) =
          if in_range T pbnumber then Ok (Some pbnumber) (r', c) else Throw BadCast)
  /\ (forall T name_value_pairs,
        enum_pbnumber_to_value_map c = None ->
        (run Enum_prepareEnumPbNumberToValueMap name_value_pairs; Enum_readEnum T) (r, c) =
          match target_value_of_number (field_enum_type c) name_value_pairs pbnumber with
          | Some value =>
              Ok (Some (static_cast T value))
                 (r', mkConverterEnum (field_enum_type c) (enum_pbnumber_to_name_map c)
                        (Some (pbnumber_to_value_loop (field_enum_type c) name_value_pairs)))
          | None => Throw BadCast
          end).
Proof.
  intros Hread.
  assert (Hfield : forall c', Enum_readField (r, c') = Ok (Some pbnumber) (r', c')).
  { intros c'. unfold Enum_readField. munfold. simpl. by rewrite Hread. }
  split; [apply Hfield|]. split; [|split].
  - intros Hmap. unfold Enum_readStringInto, Enum_prepareEnumPbNumberToNameMap.
    munfold. simpl.
    destruct Hmap as [Hmap|Hmap]; rewrite Hmap; simpl.
    + rewrite Hfield. simpl. rewrite pbnumber_to_name_loop_lookup.
      by destruct (name_of_number (field_enum_type c) pbnumber).
    + rewrite Hfield. simpl. rewrite Hmap, pbnumber_to_name_loop_lookup.
      destruct c as [et nm vm]. simpl in *. subst nm.
      by destruct (name_of_number et pbnumber).
  - intros T HT. unfold Enum_readNumeric, numericCast, boost_numeric_cast. munfold.
    rewrite Hfield. pose proof (readInt_range _ _ _ Hread) as Hrange.
    destruct (NumType_eqb T Int64) eqn:E.
    + apply NumType_eqb_eq in E as ->.
      replace (in_range Int64 pbnumber) with true; [done|].
      symmetry. apply in_range_iff. simpl. lia.
    + rewrite HT. simpl. by destruct (in_range T pbnumber).
  - intros T pairs Hmap.
    unfold Enum_readEnum, Enum_prepareEnumPbNumberToValueMap. munfold. simpl.
    rewrite Hmap. simpl. rewrite Hfield. simpl.
    rewrite pbnumber_to_value_loop_lookup.
    by destruct (target_value_of_number (field_enum_type c) pairs pbnumber).
Qed.

Lemma enum_field_5_reached :
  (run startMessage; readFieldNumber)
    (SimpleReader_init (mkReadBuffer [Byte.x02; Byte.x08; Byte.x05] 0 []))
  = Ok (Some 1) enum_field_5.
Proof. vm_compute. reflexivity. Qed.

Lemma Enum_converter_spec_witness :
  (exists s, Enum_readStringInto (enum_field_5, enum_RED) = Ok (Some "RED"%string) s)
  /\ (exists s, (run Enum_prepareEnumPbNumberToValueMap [("RED"%string, 1)];
                 Enum_readEnum Int8) (enum_field_5, enum_RED) = Ok (Some 1) s)
  /\ Enum_readStringInto (enum_field_99, enum_RED) = Throw BadCast
  /\ (run Enum_prepareEnumPbNumberToValueMap [("RED"%string, 1)];
      Enum_readEnum Int8) (enum_field_99, enum_RED) = Throw BadCast.
Proof.
  assert (H5 : readInt enum_field_5
               = Ok (Some 5) (mkSimpleReader (mkReadBuffer [Byte.x02; Byte.x08; Byte.x05] 3 [])
                                4 4 REACHED_END []))
    by (vm_compute; reflexivity).
  assert (H99 : readInt enum_field_99
                = Ok (Some 99) (mkSimpleReader (mkReadBuffer [Byte.x02; Byte.x08; Byte.x63] 3 [])
                                  4 4 REACHED_END []))
    by (vm_compute; reflexivity).
  destruct (Enum_converter_spec (fun _ _ _ => None) _ _ enum_RED _ H5) as (_ & S5 & _ & E5).
  destruct (Enum_converter_spec (fun _ _ _ => None) _ _ enum_RED _ H99) as (_ & S99 & _ & E99).
  split; [|split; [|split]].
  - eexists. rewrite S5 by (by left). reflexivity.
  - eexists. rewrite (E5 Int8 [("RED"%string, 1)]) by reflexivity. reflexivity.
  - rewrite S99 by (by left). reflexivity.
  - rewrite (E99 Int8 [("RED"%string, 1)]) by reflexivity. reflexivity.
Defined.

(** ** The lazily built enum mappings *)

Lemma readUInt_rt r : returns_or_throws (readUInt r).
Proof.
  unfold readUInt. munfold. destruct (cursor r >=? field_end r); [done|].
  pose proof (readVarint_rt r) as H. destruct (readVarint r) as [v r1| | |]; try done.
  by destruct ((field_end r1 =? END_OF_VARINT) || (cursor r1 >=? field_end r1)).
Qed.

Lemma readInt_rt r : returns_or_throws (readInt r).
Proof.
  unfold readInt. munfold. pose proof (readUInt_rt r) as H.
  by destruct (readUInt r) as [[v|] r1| | |].
Qed.

Lemma readSInt_rt r : returns_or_throws (readSInt r).
Proof.
  unfold readSInt. munfold. pose proof (readUInt_rt r) as H.
  by destruct (readUInt r) as [[v|] r1| | |].
Qed.

Lemma readFixed_rt size r : returns_or_throws (readFixed size r).
Proof.
  unfold readFixed. munfold. destruct (cursor r >=? field_end r); [done|].
  pose proof (readBinary_rt size r) as H.
  destruct (readBinary size r) as [v r1| | |]; try done.
  by destruct (cursor r1 >=? field_end r1).
Qed.

Lemma readStringInto_rt str r : returns_or_throws (readStringInto str r).
Proof.
  unfold readStringInto. munfold. destruct (cursor r >? field_end r); [done|].
  pose proof (readBinary_rt (wrap64 (field_end r - cursor r)) r) as H.
  by destruct (readBinary _ r) as [v r1| | |].
Qed.

Lemma option_map_value_rt {A B} (f : A -> B) m r :
  returns_or_throws (m r) -> returns_or_throws (option_map_value f m r).
Proof.
  unfold option_map_value. munfold. by destruct (m r) as [[v|] r1| | |].
Qed.

Lemma FromNumber_readField_rt field_type_id r :
  returns_or_throws (FromNumber_readField field_type_id r).
Proof.
  destruct field_type_id; simpl;
    auto using readInt_rt, readSInt_rt, readUInt_rt, option_map_value_rt, readFixed_rt.
Qed.

Lemma numericCast_rt {St} boost_float To From value (s : St) :
  returns_or_throws (numericCast boost_float To From value s).
Proof.
  unfold numericCast. munfold. destruct (NumType_eqb To From); [done|].
  by destruct (boost_numeric_cast boost_float To From value).
Qed.

Lemma FromString_readTempString_rt r c :
  returns_or_throws (FromString_readTempString (r, c)).
Proof.
  unfold FromString_readTempString. munfold. simpl.
  pose proof (readStringInto_rt [] r) as H.
  by destruct (readStringInto [] r) as [v r1| | |].
Qed.

(** C10.  [readEnum] of each converter family dereferences its mapping
    without a check.  Called on a converter whose mapping was never
    prepared, it has undefined behaviour as soon as the field was read (and,
    for a number converter, cast); once the mapping holds a value, which is
    what the matching [prepareEnumMapping] establishes, the call returns or
    throws.  The number-to-name map of the TYPE_ENUM string target is built
    by [readStringInto] itself, which returns or throws in every state. *)
Theorem readEnum_requires_prepared_mapping
    (boost_float : NumType -> NumType -> Z -> option Z) (r : SimpleReader) :
  (forall T (c : ConverterFromString),
     (enum_name_to_value_map c = None ->
      forall bytes r', readStringInto [] r = Ok (true, bytes) r' ->
        FromString_readEnum T (r, c) = Undefined)
     /\ (is_Some (enum_name_to_value_map c) ->
         returns_or_throws (FromString_readEnum T (r, c)))
     /\ (forall pairs, exists c',
           FromString_prepareEnumNameToValueMap pairs (r, c) = Ok tt (r, c')
           /\ is_Some (enum_name_to_value_map c')))
  /\ (forall field_type_id T EnumType (c : ConverterFromNumber),
        (set_of_enum_values c = None ->
         is_integral T = true ->
         forall number value r',
           FromNumber_readField field_type_id r = Ok (Some number) r' ->
           numericCast boost_float EnumType T number (r', c) = Ok value (r', c) ->
           FromNumber_readEnum boost_float field_type_id T EnumType (r, c) = Undefined)
        /\ (is_Some (set_of_enum_values c) ->
            returns_or_throws
              (FromNumber_readEnum boost_float field_type_id T EnumType (r, c)))
        /\ (forall pairs, exists c',
              FromNumber_prepareSetOfEnumValues pairs (r, c) = Ok tt (r, c')
              /\ is_Some (set_of_enum_values c')))
  /\ (forall T (c : ConverterEnum),
        (enum_pbnumber_to_value_map c = None ->
         forall pbnumber r', readInt r = Ok (Some pbnumber) r' ->
           Enum_readEnum T (r, c) = Undefined)
        /\ (is_Some (enum_pbnumber_to_value_map c) ->
            returns_or_throws (Enum_readEnum T (r, c)))
        /\ (forall pairs, exists c',
              Enum_prepareEnumPbNumberToValueMap pairs (r, c) = Ok tt (r, c')
              /\ is_Some (enum_pbnumber_to_value_map c'))
        /\ returns_or_throws (Enum_readStringInto (r, c))).
Proof.
  split; [|split].
  - intros T c. split; [|split].
    + intros Hmap bytes r' Hread.
      unfold FromString_readEnum, FromString_readTempString. munfold. simpl.
      rewrite Hread. simpl. by rewrite Hmap.
    + intros [m Hmap]. unfold FromString_readEnum. munfold.
      pose proof (FromString_readTempString_rt r c) as H.
      destruct (FromString_readTempString (r, c)) as [ok s| | |] eqn:E; try done.
      destruct ok; simpl; [|done].
      assert (Hs : enum_name_to_value_map (snd s) = Some m).
      { revert E. unfold FromString_readTempString. munfold. simpl.
        destruct (readStringInto [] r) as [v r1| | |]; try done.
        simpl. by intros [= _ <-]. }
      rewrite Hs. by destruct (m !! _).
    + intros pairs. unfold FromString_prepareEnumNameToValueMap. munfold. simpl.
      destruct (enum_name_to_value_map c) as [m|] eqn:E.
      * exists c. by rewrite E.
      * eexists. split; [reflexivity|]. simpl. by eexists.
  - intros ft T EnumType c. split; [|split].
    + intros Hmap HT number value r' Hread Hcast.
      unfold FromNumber_readEnum. munfold. rewrite HT. simpl.
      rewrite Hread, Hcast. simpl. by rewrite Hmap.
    + intros [m Hmap]. unfold FromNumber_readEnum. munfold.
      destruct (is_integral T); simpl; [|done].
      pose proof (FromNumber_readField_rt ft r) as H.
      destruct (FromNumber_readField ft r) as [[number|] r1| | |]; try done.
      pose proof (numericCast_rt boost_float EnumType T number (r1, c)) as Hc.
      destruct (numericCast boost_float EnumType T number (r1, c)) as [v s| | |] eqn:E;
        try done.
      assert (Hs : snd s = c).
      { revert E. unfold numericCast. munfold.
        destruct (NumType_eqb EnumType T); [by intros [= _ <-]|].
        destruct (boost_numeric_cast boost_float EnumType T number); [by intros [= _ <-]|done]. }
      rewrite Hs, Hmap. by destruct (decide (v ∈ m)).
    + intros pairs. unfold FromNumber_prepareSetOfEnumValues. munfold. simpl.
      destruct (set_of_enum_values c) as [m|] eqn:E.
      * exists c. by rewrite E.
      * eexists. split; [reflexivity|]. simpl. by eexists.
  - intros T c. split; [|split; [|split]].
    + intros Hmap pbnumber r' Hread.
      unfold Enum_readEnum, Enum_readField. munfold. simpl.
      rewrite Hread. simpl. by rewrite Hmap.
    + intros [m Hmap]. unfold Enum_readEnum, Enum_readField. munfold. simpl.
      pose proof (readInt_rt r) as H.
      destruct (readInt r) as [[number|] r1| | |]; try done.
      simpl. rewrite Hmap. by destruct (m !! number).
    + intros pairs. unfold Enum_prepareEnumPbNumberToValueMap. munfold. simpl.
      destruct (enum_pbnumber_to_value_map c) as [m|] eqn:E.
      * exists c. by rewrite E.
      * eexists. split; [reflexivity|]. simpl. by eexists.
    + unfold Enum_readStringInto, Enum_prepareEnumPbNumberToNameMap, Enum_readField.
      munfold. simpl. pose proof (readInt_rt r) as H.
      destruct (enum_pbnumber_to_name_map c) as [m|] eqn:E; simpl.
      * destruct (readInt r) as [[number|] r1| | |]; try done.
        simpl. rewrite E. by destruct (m !! number).
      * destruct (readInt r) as [[number|] r1| | |]; try done.
        simpl. by destruct (pbnumber_to_name_loop (field_enum_type c) !! number).
Qed.

(** An Enum target read by the TYPE_ENUM converter before and after the
    mapping was prepared. *)
Lemma readEnum_requires_prepared_mapping_witness :
  Enum_readEnum Int8 (enum_field_5, enum_RED) = Undefined
  /\ returns_or_throws
       (Enum_readEnum Int8
          (enum_field_5,
           mkConverterEnum [("RED"%string, 5)] None
             (Some (pbnumber_to_value_loop [("RED"%string, 5)] [("RED"%string, 1)])))).
Proof.
  destruct (readEnum_requires_prepared_mapping (fun _ _ _ => None) enum_field_5)
    as (_ & _ & HE).
  split.
  - refine (proj1 (HE Int8 enum_RED) _ 5
              (mkSimpleReader (mkReadBuffer [Byte.x02; Byte.x08; Byte.x05] 3 [])
                 4 4 REACHED_END []) _).
    + reflexivity.
    + vm_compute. reflexivity.
  - refine (proj1 (proj2 (HE Int8 _)) _). simpl. by eexists.
Defined.

(** ** The dispatcher: fields that are not in the schema *)

Lemma wire_type_of_code wt : wire_type_of (wire_type_code wt) = Some wt.
Proof. by destruct wt. Qed.

Lemma land_disjoint a m k :
  0 <= k -> 0 <= a < 2 ^ k -> Z.land a (m * 2 ^ k) = 0.
Proof.
  intros Hk Ha. apply Z.bits_inj'. intros n Hn. rewrite Z.land_spec, Z.bits_0.
  destruct (Z.lt_ge_cases n k) as [Hlt|Hge].
  - rewrite Z.mul_pow2_bits_low by lia. apply andb_false_r.
  - rewrite <- (Z.mod_small a (2 ^ k)) by lia.
    rewrite Z.mod_pow2_bits_high by lia. reflexivity.
Qed.

(** The key of a field: its number and its wire type. *)
Lemma key_decomposition number wt :
  0 <= number < 2 ^ 29 ->
  let key := number * 8 + wire_type_code wt in
  0 <= key < 2 ^ 32
  /\ Z.land key (wrap64 (Z.shiftl 4294967295 32)) = 0
  /\ Z.shiftr (key mod 2 ^ 32) 3 = number
  /\ wire_type_of (Z.land (key mod 2 ^ 32) 7) = Some wt.
Proof.
  intros Hn key.
  assert (Hc : 0 <= wire_type_code wt < 8) by (destruct wt; simpl; lia).
  assert (Hk : 0 <= key < 2 ^ 32) by (unfold key; lia).
  split; [exact Hk|]. rewrite (Z.mod_small key) by lia. split; [|split].
  - change (wrap64 (Z.shiftl 4294967295 32)) with (4294967295 * 2 ^ 32).
    apply land_disjoint; lia.
  - rewrite Z.shiftr_div_pow2 by lia. unfold key.
    change (2 ^ 3) with 8. rewrite Z.div_add_l by lia.
    rewrite Z.div_small by lia. lia.
  - change 7 with (Z.ones 3). rewrite Z.land_ones by lia. unfold key.
    change (2 ^ 3) with 8. rewrite Z.add_comm, Z.mod_add by lia.
    rewrite Z.mod_small by lia. apply wire_type_of_code.
Qed.

Lemma ignoreVarint_from_bytes init : forall (n : nat) i last r rb',
  Z.of_nat n = 10 - i -> 0 <= i <= 9 ->
  varint_bytes_from i init last ->
  holds (in_ r) (init ++ [last]) rb' ->
  ignoreVarint_from n i r =
    Ok tt (set_cursor (wrap64 (cursor r + (i + Z.of_nat (length init) + 1))) (set_in rb' r)).
Proof.
  induction init as [|c init IH]; intros n i last r rb' Hn Hi [Hall Hend] Hh.
  - simpl in *. apply holds_cons in Hh as (rb1 & Hb & Hnil).
    apply holds_nil in Hnil as ->.
    destruct n as [|n]; [lia|]. simpl. munfold.
    rewrite (in_readStrict1_holds _ _ _ Hb).
    pose proof (byte_val_range last) as Hr.
    rewrite char_continues, char_is_one.
    destruct Hend as [[Hlen Hlast]|[Hlen Hlast]].
    + replace (i <? 9) with true by lia.
      replace (byte_val last <? 128) with true by lia.
      unfold add_cursor. simpl. do 3 f_equal. lia.
    + replace (i <? 9) with false by lia.
      replace (byte_val last =? 1) with true by lia.
      unfold add_cursor. simpl. do 3 f_equal. lia.
  - simpl in Hh. apply holds_cons in Hh as (rb1 & Hb & Hh).
    apply Forall_cons in Hall as [Hc Hall].
    simpl length in *.
    destruct n as [|n]; [lia|]. simpl ignoreVarint_from. munfold.
    rewrite (in_readStrict1_holds _ _ _ Hb).
    replace (i <? 9) with true by lia.
    rewrite char_continues. replace (byte_val c <? 128) with false by lia.
    rewrite (IH n (i + 1) last (set_in rb1 r) rb'); try done; try lia.
    + unfold set_cursor, set_in. simpl. do 3 f_equal. lia.
    + split; [done|]. destruct Hend as [[H1 H2]|[H1 H2]]; [left|right]; split; lia.
Qed.

Lemma ignore_holds r bs rb' :
  holds (in_ r) bs rb' ->
  ignore (Z.of_nat (length bs)) r =
    Ok tt (set_cursor (wrap64 (cursor r + Z.of_nat (length bs))) (set_in rb' r)).
Proof.
  intros Hh. apply (ignore_ok _ _ bs). by rewrite Nat2Z.id.
Qed.

(** What [readFieldNumber] does first: it disposes of a field left in
    progress.  A call on a state with a field in progress goes on as a call
    on the state the disposal leads to. *)
Lemma readFieldNumber_after_disposal r1 r2 :
  field_end r1 <> REACHED_END ->
  (run (if field_end r1 =? END_OF_VARINT then ignoreVarint
        else if field_end r1 =? END_OF_GROUP then ignoreGroup
        else if cursor r1 <? field_end r1 then
          ignore (wrap64 (field_end r1 - cursor r1))
        else ret tt);
   modify (set_field_end REACHED_END)) r1 = Ok tt r2 ->
  readFieldNumber r1 = readFieldNumber r2.
Proof.
  intros Hpending Hdispose.
  assert (Hf2 : field_end r2 = REACHED_END).
  { revert Hdispose. munfold.
    match goal with |- context [match ?x with _ => _ end] => destruct x end; try done.
    by intros [= <-]. }
  unfold readFieldNumber at 1. unfold bind at 1. unfold get at 1.
  unfold bind at 1.
  replace (negb (field_end r1 =? REACHED_END)) with true
    by (symmetry; apply negb_true_iff; by apply Z.eqb_neq).
  rewrite Hdispose. symmetry.
  unfold readFieldNumber. unfold bind at 1. unfold get at 1.
  unfold bind at 1. rewrite Hf2. reflexivity.
Qed.

(** Disposal of a field in progress whose end is a position of the
    stream. *)
Lemma readFieldNumber_disposes_definite r1 body rb' :
  0 < cursor r1 ->
  field_end r1 = cursor r1 + Z.of_nat (length body) ->
  field_end r1 < END_OF_GROUP ->
  holds (in_ r1) body rb' ->
  readFieldNumber r1 =
    readFieldNumber (mkSimpleReader rb' (field_end r1) (current_message_end r1)
                       REACHED_END (parent_message_ends r1)).
Proof.
  intros Hc Hf Hg Hh. rewrite END_OF_GROUP_eq in Hg.
  apply readFieldNumber_after_disposal; [unfold REACHED_END; lia|].
  munfold.
  replace (field_end r1 =? END_OF_VARINT) with false
    by (symmetry; apply Z.eqb_neq; rewrite END_OF_VARINT_eq; lia).
  replace (field_end r1 =? END_OF_GROUP) with false
    by (symmetry; apply Z.eqb_neq; rewrite END_OF_GROUP_eq; lia).
  destruct (cursor r1 <? field_end r1) eqn:E.
  - replace (wrap64 (field_end r1 - cursor r1)) with (Z.of_nat (length body))
      by (unfold wrap64; rewrite Z.mod_small; lia).
    rewrite (ignore_holds _ _ _ Hh).
    replace (wrap64 (cursor r1 + Z.of_nat (length body))) with (field_end r1)
      by (unfold wrap64; rewrite Z.mod_small; lia).
    reflexivity.
  - assert (Hnil : body = []) by (destruct body; [done|simpl in Hf; lia]).
    subst body. apply holds_nil in Hh as ->.
    simpl in Hf. replace (field_end r1) with (cursor r1) by lia.
    by destruct r1.
Qed.

(** Disposal of a varint field in progress. *)
Lemma readFieldNumber_disposes_varint r1 init last rb' :
  0 <= cursor r1 ->
  field_end r1 = END_OF_VARINT ->
  varint_bytes_from 0 init last ->
  cursor r1 + Z.of_nat (length (init ++ [last])) < 2 ^ 64 ->
  holds (in_ r1) (init ++ [last]) rb' ->
  readFieldNumber r1 =
    readFieldNumber
      (mkSimpleReader rb' (cursor r1 + Z.of_nat (length (init ++ [last])))
         (current_message_end r1) REACHED_END (parent_message_ends r1)).
Proof.
  intros Hc Hf Hwf Hlen Hh. rewrite length_app in *. simpl length in *.
  apply readFieldNumber_after_disposal; [by rewrite Hf|].
  munfold. rewrite Hf, Z.eqb_refl. unfold ignoreVarint.
  rewrite (ignoreVarint_from_bytes init 10 0 last r1 rb'); try done; try lia.
  replace (wrap64 (cursor r1 + (0 + Z.of_nat (length init) + 1)))
    with (cursor r1 + Z.of_nat (length init + 1))
    by (unfold wrap64; rewrite Z.mod_small; lia).
  reflexivity.
Qed.

(** A field with its payload in the stream: [readFieldNumber] returns its
    number and leaves it in progress; the next call disposes of the payload
    and goes on right after it. *)
Lemma readFieldNumber_field r number wt payload rb' :
  field_end r = REACHED_END ->
  0 < cursor r < current_message_end r ->
  0 <= number < 2 ^ 29 ->
  field_payload wt payload ->
  let field_bytes := encodeVarint (number * 8 + wire_type_code wt) ++ payload in
  holds (in_ r) field_bytes rb' ->
  cursor r + Z.of_nat (length field_bytes) < END_OF_GROUP ->
  exists r1,
    readFieldNumber r = Ok (Some number) r1
    /\ field_end r1 <> REACHED_END
    /\ readFieldNumber r1 =
       readFieldNumber
         (mkSimpleReader rb' (cursor r + Z.of_nat (length field_bytes))
            (current_message_end r) REACHED_END (parent_message_ends r)).
Proof.
  intros Hf [Hc0 Hc] Hn Hpay field_bytes Hh Hmax.
  destruct (key_decomposition number wt Hn) as (Hkey & Hhigh & Hnum & Hwt).
  set (key := number * 8 + wire_type_code wt) in *.
  rewrite END_OF_GROUP_eq in Hmax. unfold field_bytes in *.
  rewrite length_app in Hmax.
  apply holds_app in Hh as (rbk & Hhk & Hhp).
  pose proof (encodeVarint_length key ltac:(lia)) as Hlk.
  pose proof (readVarint_encodeVarint r key rbk ltac:(lia) Hhk) as Hread.
  set (lk := Z.of_nat (length (encodeVarint key))) in *.
  assert (Hwk : wrap64 (cursor r + lk) = cursor r + lk)
    by (unfold wrap64; rewrite Z.mod_small; lia).
  rewrite Hwk in Hread.
  assert (Hunfold : readFieldNumber r =
    (match wt with
     | BITS64 =>
         run modify (fun r => set_field_end (wrap64 (cursor r + 8)) r);
         ret (Some number)
     | LENGTH_DELIMITED =>
         do length <- readVarint;
         run modify (fun r => set_field_end (wrap64 (cursor r + length)) r);
         ret (Some number)
     | VARINT => run modify (set_field_end END_OF_VARINT); ret (Some number)
     | GROUP_START => run modify (set_field_end END_OF_GROUP); ret (Some number)
     | GROUP_END =>
         do r <- get;
         run (if negb (current_message_end r =? END_OF_GROUP)
              then unknownFormat else ret tt);
         run modify (set_current_message_end REACHED_END);
         ret None
     | BITS32 =>
         run modify (fun r => set_field_end (wrap64 (cursor r + 4)) r);
         ret (Some number)
     end) (set_cursor (cursor r + lk) (set_in rbk r))).
  { unfold readFieldNumber. munfold.
    rewrite Hf. change (negb (REACHED_END =? REACHED_END)) with false.
    cbv beta iota.
    replace (cursor r >=? current_message_end r) with false by lia.
    rewrite Hread, Hhigh. change (negb (0 =? 0)) with false. cbv beta iota.
    rewrite Hwt, Hnum. reflexivity. }
  set (rk := set_cursor (cursor r + lk) (set_in rbk r)) in *.
  assert (Hrk : cursor rk = cursor r + lk) by reflexivity.
  assert (Hrb : in_ rk = rbk) by reflexivity.
  destruct Hpay as [init last Hwf|bs Hlen|bs Hlen|body].
  - exists (set_field_end END_OF_VARINT rk). split; [exact Hunfold|].
    split; [done|].
    rewrite (readFieldNumber_disposes_varint _ init last rb'); try done.
    + cbn [cursor set_field_end current_message_end parent_message_ends].
      rewrite Hrk. do 2 f_equal. rewrite !length_app. lia.
    + cbn [cursor set_field_end]. lia.
    + cbn [cursor set_field_end]. lia.
  - exists (set_field_end (wrap64 (cursor rk + 8)) rk). split; [exact Hunfold|].
    assert (Hw : wrap64 (cursor rk + 8) = cursor r + lk + 8)
      by (unfold wrap64; rewrite Hrk, Z.mod_small; lia).
    rewrite Hw. split; [cbn [field_end set_field_end]; unfold REACHED_END; lia|].
    rewrite (readFieldNumber_disposes_definite _ bs rb'); try done.
    + cbn [cursor field_end set_field_end current_message_end parent_message_ends].
      do 2 f_equal. rewrite !length_app. lia.
    + cbn [cursor set_field_end]. lia.
    + cbn [cursor field_end set_field_end]. lia.
    + cbn [field_end set_field_end]. rewrite END_OF_GROUP_eq. lia.
  - exists (set_field_end (wrap64 (cursor rk + 4)) rk). split; [exact Hunfold|].
    assert (Hw : wrap64 (cursor rk + 4) = cursor r + lk + 4)
      by (unfold wrap64; rewrite Hrk, Z.mod_small; lia).
    rewrite Hw. split; [cbn [field_end set_field_end]; unfold REACHED_END; lia|].
    rewrite (readFieldNumber_disposes_definite _ bs rb'); try done.
    + cbn [cursor field_end set_field_end current_message_end parent_message_ends].
      do 2 f_equal. rewrite !length_app. lia.
    + cbn [cursor set_field_end]. lia.
    + cbn [cursor field_end set_field_end]. lia.
    + cbn [field_end set_field_end]. rewrite END_OF_GROUP_eq. lia.
  - apply holds_app in Hhp as (rbl & Hhl & Hhb).
    rewrite length_app in Hmax.
    set (L := Z.of_nat (length body)) in *.
    rewrite <- Hrb in Hhl.
    pose proof (readVarint_encodeVarint rk L rbl ltac:(lia) Hhl) as HreadL.
    set (ll := Z.of_nat (length (encodeVarint L))) in *.
    assert (Hwl : wrap64 (cursor rk + ll) = cursor r + lk + ll)
      by (unfold wrap64; rewrite Hrk, Z.mod_small; lia).
    rewrite Hwl in HreadL.
    assert (Hw : wrap64 (cursor r + lk + ll + L) = cursor r + lk + ll + L)
      by (unfold wrap64; rewrite Z.mod_small; lia).
    exists (set_field_end (cursor r + lk + ll + L)
              (set_cursor (cursor r + lk + ll) (set_in rbl rk))).
    split; [|split].
    + rewrite Hunfold. unfold bind at 1. rewrite HreadL. munfold.
      cbn [cursor set_cursor]. by rewrite Hw.
    + cbn [field_end set_field_end]. unfold REACHED_END. lia.
    + rewrite (readFieldNumber_disposes_definite _ body rb'); try done.
      * cbn [cursor field_end set_field_end current_message_end parent_message_ends].
        do 2 f_equal. rewrite !length_app. lia.
      * cbn [cursor set_field_end set_cursor]. lia.
      * cbn [field_end set_field_end]. rewrite END_OF_GROUP_eq. lia.
Qed.

(** C4.  An unknown field changes what a row emits.  With the schema whose
    root has the nested message as field 1, the row [0A 02 08 07] emits 7 in
    column 0, and the same row with the unknown field 2 in front emits
    nothing: the linear advance for the number 2 leaves
    [current_field_index] past field 1, and the map of field numbers, which
    [readColumnIndex] falls back on, does not hold field 1, because
    [setTraitsDataAfterMatchingColumns] leaves the loop body by [continue]
    before the [emplace] for a field with a nested message.  A plain field
    in the same place is in the map, and is emitted with the unknown field in
    front or without it.  The unknown field is not needed for the loss: with
    two fields that the schema has, the nested message is emitted when it
    comes first and is lost when it comes second. *)
Theorem readColumnIndex_unknown_field_changes_emissions :
  (exists s, row_emissions nested_schema stream_without_unknown = Ok [(0, Some 7)] s)
  /\ (exists s, row_emissions nested_schema stream_with_unknown = Ok [] s)
  /\ (exists s, row_emissions leaf_schema leaf_stream_without_unknown
                = Ok [(0, Some 7)] s)
  /\ (exists s, row_emissions leaf_schema leaf_stream_with_unknown
                = Ok [(0, Some 7)] s)
  /\ (exists s, row_emissions mixed_schema mixed_stream_in_order
                = Ok [(2, Some 7); (1, Some 5)] s)
  /\ (exists s, row_emissions mixed_schema mixed_stream_out_of_order
                = Ok [(1, Some 5)] s)
  /\ (exists root, nested_schema !! 0%nat = Some root
                   /\ fields root !! 0%nat = Some (mkField 1 0 TYPE_MESSAGE (Some 1%nat))
                   /\ linear_advance (fields root) 0 2 = (1%nat, None)
                   /\ field_number_to_field_map root !! 2 = None
                   /\ linear_advance (skipn 1 (fields root)) 1 1 = (1%nat, None)
                   /\ field_number_to_field_map root !! 1 = None)
  /\ (exists root, leaf_schema !! 0%nat = Some root
                   /\ fields root !! 0%nat = Some (mkField 1 0 TYPE_INT32 None)
                   /\ linear_advance (fields root) 0 2 = (1%nat, None)
                   /\ field_number_to_field_map root !! 2 = None
                   /\ linear_advance (skipn 1 (fields root)) 1 1 = (1%nat, None)
                   /\ field_number_to_field_map root !! 1 = Some 0%nat).
Proof.
  repeat split.
  - eexists. vm_compute. reflexivity.
  - eexists. vm_compute. reflexivity.
  - eexists. vm_compute. reflexivity.
  - eexists. vm_compute. reflexivity.
  - eexists. vm_compute. reflexivity.
  - eexists. vm_compute. reflexivity.
  - eexists. split; [reflexivity|]. split; [reflexivity|]. split; [reflexivity|].
    split; [vm_compute; reflexivity|]. split; [reflexivity|]. vm_compute. reflexivity.
  - eexists. split; [reflexivity|]. split; [reflexivity|]. split; [reflexivity|].
    split; [vm_compute; reflexivity|]. split; [reflexivity|]. vm_compute. reflexivity.
Qed.

(** X22.  What the dispatcher does, as it is written, with a field that it
    does not find.  A field of wire type VARINT, BITS64, BITS32 or
    LENGTH_DELIMITED whose number is found neither by the linear advance nor
    in [field_number_to_field_map] is not yielded: [readFieldNumber] returns
    its number and leaves it in progress, the next [readFieldNumber] call
    disposes of the payload, and [readColumnIndex] goes on as a call made
    right after the field, with [current_field_index] where the linear
    advance stopped. *)
Theorem readColumnIndex_skips_unknown_field
    (messages : list Message) (st : ProtobufReader) (id : nat) (message : Message)
    (number : Z) (wt : WireType) (payload : list Byte.byte) (rb' : ReadBuffer)
    (index' : nat) (fuel : nat) :
  let r := simple_reader st in
  let field_bytes := encodeVarint (number * 8 + wire_type_code wt) ++ payload in
  current_message st = Some id ->
  messages !! id = Some message ->
  field_end r = REACHED_END ->
  0 < cursor r < current_message_end r ->
  0 <= number < 2 ^ 29 ->
  field_payload wt payload ->
  holds (in_ r) field_bytes rb' ->
  cursor r + Z.of_nat (length field_bytes) < END_OF_GROUP ->
  linear_advance (skipn (current_field_index st) (fields message))
    (current_field_index st) number = (index', None) ->
  field_number_to_field_map message !! number = None ->
  let after :=
    mkProtobufReader
      (mkSimpleReader rb' (cursor r + Z.of_nat (length field_bytes))
         (current_message_end r) REACHED_END (parent_message_ends r))
      (Some id) index' (current_converter st) in
  (exists r1, readFieldNumber r = Ok (Some number) r1
              /\ field_end r1 <> REACHED_END
              /\ readFieldNumber r1 = readFieldNumber (simple_reader after))
  /\ readColumnIndex messages (S fuel) st = readColumnIndex messages fuel after.
Proof.
  intros r field_bytes Hcur Hmsg Hf Hc Hn Hpay Hh Hmax Hadv Hmap after.
  destruct (readFieldNumber_field r number wt payload rb' Hf Hc Hn Hpay Hh Hmax)
    as (r1 & Hread & Hpending & Hnext).
  split; [by exists r1|].
  cbn [readColumnIndex]. unfold bind at 1. unfold on_simple_reader at 1.
  fold r. rewrite Hread. unfold bind at 1. unfold get at 1.
  unfold bind at 1. cbn [current_message]. rewrite Hcur.
  unfold deref_message. rewrite Hmsg. unfold ret at 1.
  cbn [current_field_index]. rewrite Hadv.
  unfold bind at 1. unfold modify at 1. rewrite Hmap.
  destruct fuel as [|fuel]; [reflexivity|].
  cbn [readColumnIndex]. unfold bind at 1. unfold on_simple_reader at 1.
  cbn [simple_reader set_current_field_index]. rewrite Hnext.
  symmetry. unfold bind at 1. unfold on_simple_reader at 1.
  unfold after. cbn [simple_reader current_message current_field_index current_converter].
  reflexivity.
Qed.

Lemma bool_row_start_reached :
  ProtobufReader_startMessage
    (ProtobufReader_init
       (mkReadBuffer [Byte.x04; Byte.x08; Byte.x01; Byte.x10; Byte.x01] 0 []))
  = Ok true bool_row_start.
Proof. vm_compute. reflexivity. Qed.

Lemma readColumnIndex_skips_unknown_field_witness :
  readColumnIndex bool_schema 10 bool_row_start
  = readColumnIndex bool_schema 9 bool_row_after_unknown
  /\ exists s, readColumnIndex bool_schema 9 bool_row_after_unknown = Ok (Some 0) s.
Proof.
  split.
  - refine (proj2 (readColumnIndex_skips_unknown_field bool_schema bool_row_start 0
              (mkMessage None 0 [mkField 2 0 TYPE_BOOL None] {[ 2 := 0%nat ]})
              1 VARINT ([] ++ [Byte.x01])
              (mkReadBuffer [Byte.x04; Byte.x08; Byte.x01; Byte.x10; Byte.x01] 3 [])
              0 9 _ _ _ _ _ _ _ _ _ _)).
    + reflexivity.
    + vm_compute. reflexivity.
    + reflexivity.
    + simpl. lia.
    + lia.
    + constructor. split; [constructor|]. left. split; [simpl; lia|vm_compute; reflexivity].
    + vm_compute. reflexivity.
    + vm_compute. reflexivity.
    + reflexivity.
    + vm_compute. reflexivity.
  - eexists. vm_compute. reflexivity.
Defined.

(** * Further properties *)

(** ** ZigZag *)

Lemma lxor_all_ones m :
  0 <= m < 2 ^ 64 -> Z.lxor m (2 ^ 64 - 1) = 2 ^ 64 - 1 - m.
Proof.
  intros Hm.
  assert (H : Z.lxor m (Z.ones 64) = Z.land (Z.lnot m) (Z.ones 64)).
  { apply Z.bits_inj'. intros i Hi.
    rewrite Z.lxor_spec, Z.land_spec, Z.lnot_spec, Z.testbit_ones_nonneg by lia.
    destruct (i <? 64) eqn:E.
    - by rewrite xorb_true_r, andb_true_r.
    - rewrite xorb_false_r, andb_false_r.
      apply in64_iff in Hm. rewrite <- Hm, Z.land_spec, Z.testbit_ones_nonneg, E by lia.
      apply andb_false_r. }
  change (2 ^ 64 - 1) with (Z.ones 64) at 1. rewrite H, Z.land_ones by lia.
  unfold Z.lnot. symmetry. apply (Z.mod_unique _ _ (-1)); lia.
Qed.

Lemma decodeZigZag_even m : 0 <= m < 2 ^ 63 -> decodeZigZag (2 * m) = m.
Proof.
  intros Hm. unfold decodeZigZag.
  change (Z.land (2 * m) 1) with (Z.land (2 * m) (Z.ones 1)).
  rewrite Z.land_ones by lia.
  rewrite Z.shiftr_div_pow2 by lia.
  replace ((2 * m) mod 2 ^ 1) with 0 by (apply (Z.mod_unique _ _ m); lia).
  replace (2 * m / 2 ^ 1) with m by (apply (Z.div_unique _ _ _ 0); lia).
  replace (wrap64 (wrap64 (Z.lnot 0) + 1)) with 0 by reflexivity.
  rewrite Z.lxor_0_r. unfold to_Int64. by replace (m <? 2 ^ 63) with true by lia.
Qed.

Lemma decodeZigZag_odd m : 0 <= m < 2 ^ 63 -> decodeZigZag (2 * m + 1) = - m - 1.
Proof.
  intros Hm. unfold decodeZigZag.
  change (Z.land (2 * m + 1) 1) with (Z.land (2 * m + 1) (Z.ones 1)).
  rewrite Z.land_ones by lia.
  rewrite Z.shiftr_div_pow2 by lia.
  replace ((2 * m + 1) mod 2 ^ 1) with 1 by (apply (Z.mod_unique _ _ m); lia).
  replace ((2 * m + 1) / 2 ^ 1) with m by (apply (Z.div_unique _ _ _ 1); lia).
  replace (wrap64 (wrap64 (Z.lnot 1) + 1)) with (2 ^ 64 - 1) by reflexivity.
  rewrite lxor_all_ones by lia. unfold to_Int64.
  replace (2 ^ 64 - 1 - m <? 2 ^ 63) with false by lia. lia.
Qed.

Lemma encodeZigZag_range n :
  - 2 ^ 63 <= n < 2 ^ 63 -> 0 <= encodeZigZag n < 2 ^ 64.
Proof. intros Hn. unfold encodeZigZag. destruct (n <? 0) eqn:E; lia. Qed.

Lemma decodeZigZag_encodeZigZag n :
  - 2 ^ 63 <= n < 2 ^ 63 -> decodeZigZag (encodeZigZag n) = n.
Proof.
  intros Hn. unfold encodeZigZag. destruct (n <? 0) eqn:E.
  - replace (- 2 * n - 1) with (2 * (- n - 1) + 1) by lia.
    rewrite decodeZigZag_odd by lia. lia.
  - apply decodeZigZag_even. lia.
Qed.

(** X1.  ZigZag round trip: [decodeZigZag] undoes the ZigZag encoding of
    every signed 64-bit value, and every unsigned 64-bit value is the
    encoding of the value it decodes to. *)
Theorem decodeZigZag_round_trip :
  (forall n, - 2 ^ 63 <= n < 2 ^ 63 ->
     0 <= encodeZigZag n < 2 ^ 64 /\ decodeZigZag (encodeZigZag n) = n)
  /\ (forall u, 0 <= u < 2 ^ 64 -> encodeZigZag (decodeZigZag u) = u).
Proof.
  split.
  - intros n Hn. split; [by apply encodeZigZag_range|by apply decodeZigZag_encodeZigZag].
  - intros u Hu.
    pose proof (Z.div_mod u 2 ltac:(lia)) as Hdm.
    pose proof (Z.mod_pos_bound u 2 ltac:(lia)) as Hb.
    destruct (Z.eq_dec (u mod 2) 0) as [H0|H1].
    + replace u with (2 * (u / 2)) at 1 by lia.
      rewrite decodeZigZag_even by lia. unfold encodeZigZag.
      replace (u / 2 <? 0) with false by lia. lia.
    + replace u with (2 * (u / 2) + 1) at 1 by lia.
      rewrite decodeZigZag_odd by lia. unfold encodeZigZag.
      replace (- (u / 2) - 1 <? 0) with true by lia. lia.
Qed.

Lemma decodeZigZag_round_trip_witness :
  decodeZigZag (encodeZigZag (-2)) = -2 /\ encodeZigZag (decodeZigZag 3) = 3.
Proof.
  split.
  - refine (proj2 (proj1 decodeZigZag_round_trip (-2) _)). lia.
  - refine (proj2 decodeZigZag_round_trip 3 _). lia.
Defined.

(** ** ignoreVarint *)

Lemma ignoreVarint_from_mirror n : forall i acc r,
  ignoreVarint_from n i r = (run readVarint_from n i acc; ret tt) r.
Proof.
  induction n as [|n IH]; intros i acc r; simpl; [done|].
  munfold. destruct (in_readStrict1 r) as [c r1| | |]; try done.
  destruct (i <? 9).
  - destruct (Z.land (char_to_int c) 128 =? 0).
    + unfold add_cursor. reflexivity.
    + rewrite (IH (i + 1) (if i <? 8
                           then Z.land (Z.lor acc (wrap64 (Z.shiftl (char_to_UInt64 c) (7 * i))))
                                  (wrap64 (Z.shiftl 128 (7 * i)) - 1)
                           else Z.lor acc (wrap64 (Z.shiftl (char_to_UInt64 c) (7 * i))))).
      reflexivity.
  - destruct (char_to_int c =? 1).
    + unfold add_cursor. reflexivity.
    + rewrite (IH (i + 1) (Z.lor acc (wrap64 (Z.shiftl (char_to_UInt64 c) (7 * i))))).
      reflexivity.
Qed.

(** X2.  [ignoreVarint] mirrors [readVarint]: on every state it ends as
    [readVarint] does, in the same state or with the same exception, and
    only drops the value. *)
Theorem ignoreVarint_mirrors_readVarint (r : SimpleReader) :
  ignoreVarint r = (run readVarint; ret tt) r.
Proof. apply ignoreVarint_from_mirror. Qed.

(** ** The cursor and the stream *)

Lemma unread_load_next w off later :
  (length w <= off)%nat -> unread (load_next w off later) = concat later.
Proof.
  intros Hoff. induction later as [|w' later IH]; simpl.
  - unfold unread. simpl. by rewrite skipn_all2.
  - destruct w' as [|b w']; [exact IH|]. reflexivity.
Qed.

Lemma unread_fill rb : unread (fill rb) = unread rb.
Proof.
  unfold fill. destruct (offset rb <? length (working_buffer rb))%nat eqn:E; [done|].
  apply Nat.ltb_ge in E. rewrite unread_load_next by done.
  unfold unread. by rewrite skipn_all2.
Qed.

Lemma skipn_nth_error {A} (l : list A) n x :
  nth_error l n = Some x -> skipn n l = x :: skipn (S n) l.
Proof.
  revert n. induction l as [|a l IH]; intros [|n]; simpl; try done.
  - by intros [= ->].
  - intros H. by rewrite (IH n H).
Qed.

Lemma rb_read_byte_unread rb b rb' :
  rb_read_byte rb = Some (b, rb') -> unread rb = b :: unread rb'.
Proof.
  unfold rb_read_byte.
  destruct (nth_error (working_buffer (fill rb)) (offset (fill rb))) as [c|] eqn:E; [|done].
  intros [= <- <-]. rewrite <- unread_fill. unfold unread at 1.
  by rewrite (skipn_nth_error _ _ _ E).
Qed.

Lemma rb_read_unread n : forall rb bs rb',
  rb_read n rb = Some (bs, rb') -> unread rb = bs ++ unread rb'.
Proof.
  induction n as [|n IH]; intros rb bs rb'; simpl.
  - by intros [= <- <-].
  - destruct (rb_read_byte rb) as [[c rb1]|] eqn:Hb; [|done].
    destruct (rb_read n rb1) as [[cs rb2]|] eqn:E; [|done].
    intros [= <- <-]. apply rb_read_byte_unread in Hb. apply IH in E.
    by rewrite Hb, E.
Qed.

Lemma in_step_refl r : 0 <= cursor r < 2 ^ 64 -> in_step r r.
Proof.
  intros Hc. exists []. split; [done|]. simpl. unfold wrap64.
  rewrite Z.add_0_r, Z.mod_small; lia.
Qed.

Lemma in_step_trans r1 r2 r3 : in_step r1 r2 -> in_step r2 r3 -> in_step r1 r3.
Proof.
  intros (bs1 & Hu1 & Hc1) (bs2 & Hu2 & Hc2). exists (bs1 ++ bs2). split.
  - by rewrite Hu1, Hu2, app_assoc.
  - rewrite Hc2, Hc1, length_app, Nat2Z.inj_add. unfold wrap64.
    rewrite Z.add_mod_idemp_l by lia. f_equal. lia.
Qed.

Lemma in_step_cursor_range r r' : in_step r r' -> 0 <= cursor r' < 2 ^ 64.
Proof. intros (bs & _ & ->). apply wrap64_range. Qed.

(** Changes of the frame alone keep the cursor in step. *)
Lemma in_step_frame r r' r'' :
  in_step r r' -> in_ r'' = in_ r' -> cursor r'' = cursor r' -> in_step r r''.
Proof.
  intros (bs & Hu & Hc) Hi Hcc. exists bs. by rewrite Hi, Hcc.
Qed.

Lemma readVarint_in_step r v r' : readVarint r = Ok v r' -> in_step r r'.
Proof.
  intros H. apply readVarint_from_consumes in H as (bs & _ & Hh & Hc).
  exists bs. split; [by apply (rb_read_unread _ _ _ _ Hh)|]. rewrite Hc. f_equal.
Qed.

Lemma ignoreVarint_in_step r u r' : ignoreVarint r = Ok u r' -> in_step r r'.
Proof.
  unfold ignoreVarint. rewrite (ignoreVarint_from_mirror 10 0 0). munfold.
  destruct (readVarint_from 10 0 0 r) as [v r1| | |] eqn:E; try done.
  intros [= _ <-]. by apply (readVarint_in_step r v).
Qed.

Lemma ignore_in_step n r u r' : 0 <= n -> ignore n r = Ok u r' -> in_step r r'.
Proof.
  intros Hn. unfold ignore, in_ignore, add_cursor. munfold.
  destruct (rb_read (Z.to_nat n) (in_ r)) as [[bs rb]|] eqn:E; [|done].
  intros [= _ <-]. exists bs. split; [by apply (rb_read_unread _ _ _ _ E)|].
  simpl. apply rb_read_length in E. rewrite E, Z2Nat.id by lia. reflexivity.
Qed.

Lemma readBinary_in_step n r bs r' :
  0 <= n -> readBinary n r = Ok bs r' -> in_step r r'.
Proof.
  intros Hn. unfold readBinary, in_readStrict, add_cursor. munfold.
  destruct (rb_read (Z.to_nat n) (in_ r)) as [[cs rb]|] eqn:E; [|done].
  intros [= <- <-]. exists cs. split; [by apply (rb_read_unread _ _ _ _ E)|].
  simpl. apply rb_read_length in E. rewrite E, Z2Nat.id by lia. reflexivity.
Qed.

Lemma ignoreGroup_in_step r u r' : ignoreGroup r = Ok u r' -> in_step r r'.
Proof.
  intros H. apply ignoreGroup_returns_only_on_GROUP_END in H as (key & H & _).
  by apply (readVarint_in_step r key).
Qed.

Lemma readUInt_in_step r v r' :
  0 <= cursor r < 2 ^ 64 -> readUInt r = Ok v r' -> in_step r r'.
Proof.
  intros Hc. unfold readUInt. munfold. destruct (cursor r >=? field_end r).
  - intros [= _ <-]. by apply (in_step_frame r r); [apply in_step_refl| |].
  - destruct (readVarint r) as [w r1| | |] eqn:E; try done.
    apply readVarint_in_step in E.
    destruct ((field_end r1 =? END_OF_VARINT) || (cursor r1 >=? field_end r1));
      simpl; intros [= _ <-]; [by apply (in_step_frame r r1)|done].
Qed.

Lemma readFixed_in_step size r v r' :
  0 <= size -> 0 <= cursor r < 2 ^ 64 -> readFixed size r = Ok v r' -> in_step r r'.
Proof.
  intros Hs Hc. unfold readFixed. munfold. destruct (cursor r >=? field_end r).
  - intros [= _ <-]. by apply (in_step_frame r r); [apply in_step_refl| |].
  - destruct (readBinary size r) as [w r1| | |] eqn:E; try done.
    apply readBinary_in_step in E; [|done].
    destruct (cursor r1 >=? field_end r1);
      simpl; intros [= _ <-]; [by apply (in_step_frame r r1)|done].
Qed.

Lemma readStringInto_in_step str r v r' :
  0 <= cursor r < 2 ^ 64 -> readStringInto str r = Ok v r' -> in_step r r'.
Proof.
  intros Hc. unfold readStringInto. munfold. destruct (cursor r >? field_end r).
  - intros [= _ <-]. by apply in_step_refl.
  - destruct (readBinary _ r) as [w r1| | |] eqn:E; try done.
    apply readBinary_in_step in E; [|apply wrap64_range].
    intros [= _ <-]. by apply (in_step_frame r r1).
Qed.

Lemma startMessage_in_step r b r' :
  0 <= cursor r < 2 ^ 64 -> startMessage r = Ok b r' -> in_step r r'.
Proof.
  intros Hc. unfold startMessage. munfold.
  destruct ((current_message_end r =? REACHED_END)
            && match parent_message_ends r with [] => true | _ => false end).
  - unfold in_eof. destruct (rb_eof (in_ r)) as [at_eof rb] eqn:Ee.
    assert (Hrb : unread rb = unread (in_ r)).
    { unfold rb_eof in Ee. injection Ee as _ <-. apply unread_fill. }
    assert (H1 : in_step r (set_in rb r)).
    { exists []. split; [by rewrite <- Hrb|]. simpl. unfold wrap64.
      rewrite Z.add_0_r, Z.mod_small; lia. }
    destruct at_eof; [by intros [= _ <-]|].
    destruct (readVarint (set_in rb r)) as [w r1| | |] eqn:E; try done.
    apply readVarint_in_step in E. intros [= _ <-].
    apply (in_step_frame r r1); [|done|done]. by apply (in_step_trans _ (set_in rb r)).
  - intros [= _ <-]. by apply (in_step_frame r r); [apply in_step_refl| |].
Qed.

Lemma readFieldNumber_in_step r v r' :
  0 <= cursor r < 2 ^ 64 -> readFieldNumber r = Ok v r' -> in_step r r'.
Proof.
  intros Hc. unfold readFieldNumber. unfold bind at 1. unfold get at 1.
  unfold bind at 1.
  assert (Hblock : forall u ra,
    (if negb (field_end r =? REACHED_END)
     then run (if field_end r =? END_OF_VARINT then ignoreVarint
               else if field_end r =? END_OF_GROUP then ignoreGroup
               else if cursor r <? field_end r
                    then ignore (wrap64 (field_end r - cursor r))
                    else ret tt);
          modify (set_field_end REACHED_END)
     else ret tt) r = Ok u ra -> in_step r ra).
  { intros u ra. destruct (negb (field_end r =? REACHED_END)).
    - munfold. destruct (field_end r =? END_OF_VARINT).
      + destruct (ignoreVarint r) as [w r1| | |] eqn:E; try done.
        apply ignoreVarint_in_step in E. intros [= _ <-]. by apply (in_step_frame r r1).
      + destruct (field_end r =? END_OF_GROUP).
        * destruct (ignoreGroup r) as [w r1| | |] eqn:E; try done.
          apply ignoreGroup_in_step in E. intros [= _ <-]. by apply (in_step_frame r r1).
        * destruct (cursor r <? field_end r).
          -- destruct (ignore _ r) as [w r1| | |] eqn:E; try done.
             apply ignore_in_step in E; [|apply wrap64_range].
             intros [= _ <-]. by apply (in_step_frame r r1).
          -- intros [= _ <-]. by apply (in_step_frame r r); [apply in_step_refl| |].
    - munfold. intros [= _ <-]. by apply in_step_refl. }
  match goal with |- context [match ?x with _ => _ end] =>
    destruct x as [u ra| | |] eqn:Eb end; try done.
  pose proof (Hblock u ra eq_refl) as Hra. clear Hblock Eb. rename Hra into Eb. munfold.
  destruct (cursor ra >=? current_message_end ra).
  - intros [= _ <-]. by apply (in_step_frame r ra).
  - destruct (readVarint ra) as [key rb| | |] eqn:Ek; try done.
    apply readVarint_in_step in Ek.
    pose proof (in_step_trans _ _ _ Eb Ek) as Hb.
    destruct (negb (Z.land key (wrap64 (Z.shiftl 4294967295 32)) =? 0)); [done|].
    destruct (wire_type_of (Z.land (key mod 2 ^ 32) 7)) as [[]|]; try done.
    + intros [= _ <-]. by apply (in_step_frame r rb).
    + intros [= _ <-]. by apply (in_step_frame r rb).
    + destruct (readVarint rb) as [len rc| | |] eqn:El; try done.
      apply readVarint_in_step in El. intros [= _ <-].
      apply (in_step_frame r rc); [|done|done]. by apply (in_step_trans _ rb).
    + intros [= _ <-]. by apply (in_step_frame r rb).
    + destruct (negb (current_message_end rb =? END_OF_GROUP)); [done|].
      intros [= _ <-]. by apply (in_step_frame r rb).
    + intros [= _ <-]. by apply (in_step_frame r rb).
Qed.

(** X3.  The cursor stays in step with the stream: every forward operation
    of the scanner that returns has advanced the cursor by exactly the
    number of bytes it took from the stream. *)
Theorem scanner_keeps_cursor_in_step (r : SimpleReader) :
  0 <= cursor r < 2 ^ 64 ->
  (forall b r', startMessage r = Ok b r' -> in_step r r')
  /\ (forall v r', readFieldNumber r = Ok v r' -> in_step r r')
  /\ (forall v r', readUInt r = Ok v r' -> in_step r r')
  /\ (forall v r', readInt r = Ok v r' -> in_step r r')
  /\ (forall v r', readSInt r = Ok v r' -> in_step r r')
  /\ (forall size v r', 0 <= size -> readFixed size r = Ok v r' -> in_step r r')
  /\ (forall str v r', readStringInto str r = Ok v r' -> in_step r r')
  /\ (forall v r', readVarint r = Ok v r' -> in_step r r')
  /\ (forall u r', ignoreVarint r = Ok u r' -> in_step r r')
  /\ (forall u r', ignoreGroup r = Ok u r' -> in_step r r').
Proof.
  intros Hc. repeat split.
  - intros b r'. by apply startMessage_in_step.
  - intros v r'. by apply readFieldNumber_in_step.
  - intros v r'. by apply readUInt_in_step.
  - intros v r'. unfold readInt. munfold.
    destruct (readUInt r) as [[w|] r1| | |] eqn:E; try done;
      intros [= _ <-]; by apply (readUInt_in_step r _ _ Hc E).
  - intros v r'. unfold readSInt. munfold.
    destruct (readUInt r) as [[w|] r1| | |] eqn:E; try done;
      intros [= _ <-]; by apply (readUInt_in_step r _ _ Hc E).
  - intros size v r' Hs. by apply readFixed_in_step.
  - intros str v r'. by apply readStringInto_in_step.
  - intros v r'. apply readVarint_in_step.
  - intros u r'. apply ignoreVarint_in_step.
  - intros u r'. apply ignoreGroup_in_step.
Qed.

Lemma scanner_keeps_cursor_in_step_witness :
  in_step (SimpleReader_init nested_stream)
    (mkSimpleReader
       (mkReadBuffer [Byte.x06; Byte.x0a; Byte.x02; Byte.x08; Byte.x01; Byte.x10; Byte.x01] 1 [])
       2 8 REACHED_END []).
Proof.
  refine (proj1 (scanner_keeps_cursor_in_step (SimpleReader_init nested_stream) _) true _ _).
  - simpl. lia.
  - vm_compute. reflexivity.
Defined.

(** ** Keys: readFieldNumber *)

Lemma key_parts number code :
  0 <= number < 2 ^ 29 -> 0 <= code < 8 ->
  let key := number * 8 + code in
  0 <= key < 2 ^ 32
  /\ Z.land key (wrap64 (Z.shiftl 4294967295 32)) = 0
  /\ Z.shiftr (key mod 2 ^ 32) 3 = number
  /\ Z.land (key mod 2 ^ 32) 7 = code.
Proof.
  intros Hn Hc key.
  assert (Hk : 0 <= key < 2 ^ 32) by (unfold key; lia).
  split; [exact Hk|]. rewrite (Z.mod_small key) by lia. split; [|split].
  - change (wrap64 (Z.shiftl 4294967295 32)) with (4294967295 * 2 ^ 32).
    apply land_disjoint; lia.
  - rewrite Z.shiftr_div_pow2 by lia. unfold key.
    change (2 ^ 3) with 8. rewrite Z.div_add_l by lia.
    rewrite Z.div_small by lia. lia.
  - change 7 with (Z.ones 3). rewrite Z.land_ones by lia. unfold key.
    change (2 ^ 3) with 8. rewrite Z.add_comm, Z.mod_add by lia.
    apply Z.mod_small. lia.
Qed.

Lemma land_high_bits key :
  2 ^ 32 <= key < 2 ^ 64 -> Z.land key (wrap64 (Z.shiftl 4294967295 32)) <> 0.
Proof.
  intros [Hlo Hhi] Hz.
  assert (Hpos : 0 < key) by lia.
  assert (H32 : 32 <= Z.log2 key).
  { rewrite <- (Z.log2_pow2 32) by lia. by apply Z.log2_le_mono. }
  assert (H64 : Z.log2 key < 64) by (by apply Z.log2_lt_pow2).
  assert (Hbit : Z.testbit (Z.land key (wrap64 (Z.shiftl 4294967295 32))) (Z.log2 key) = true).
  { change (wrap64 (Z.shiftl 4294967295 32)) with (Z.shiftl (Z.ones 32) 32).
    rewrite Z.land_spec, Z.bit_log2, Z.shiftl_spec, Z.testbit_ones_nonneg by lia.
    simpl. lia. }
  rewrite Hz, Z.bits_0 in Hbit. discriminate.
Qed.

(** The part of [readFieldNumber] after the key was read, on a state with
    no field in progress and the cursor inside the message. *)
Ltac readFieldNumber_key Hf Hread :=
  unfold readFieldNumber; munfold; rewrite Hf;
  change (negb (REACHED_END =? REACHED_END)) with false; cbv beta iota;
  match goal with
  | |- context [cursor ?r >=? current_message_end ?r] =>
      replace (cursor r >=? current_message_end r) with false by lia
  end;
  rewrite Hread.

(** X4.  A key that cannot be a key is rejected: when the varint of the key
    exceeds 32 bits, or when its wire type is 6 or 7, [readFieldNumber]
    raises UnknownFormat. *)
Theorem readFieldNumber_rejects_malformed_key (r : SimpleReader) (key : Z)
    (rbk : ReadBuffer) :
  field_end r = REACHED_END ->
  cursor r < current_message_end r ->
  0 <= key < 2 ^ 64 ->
  holds (in_ r) (encodeVarint key) rbk ->
  2 ^ 32 <= key \/ key mod 8 = 6 \/ key mod 8 = 7 ->
  readFieldNumber r = Throw UnknownFormat.
Proof.
  intros Hf Hc Hkey Hh Hbad.
  pose proof (readVarint_encodeVarint r key rbk Hkey Hh) as Hread.
  readFieldNumber_key Hf Hread.
  destruct (Z_lt_ge_dec key (2 ^ 32)) as [Hsmall|Hbig].
  - destruct Hbad as [Hbad|Hbad]; [lia|].
    pose proof (Z.div_mod key 8 ltac:(lia)) as Hdm.
    pose proof (Z.mod_pos_bound key 8 ltac:(lia)) as Hm.
    destruct (key_parts (key / 8) (key mod 8)) as (_ & Hhigh & _ & Hcode);
      [split; [apply Z.div_pos; lia|apply Z.div_lt_upper_bound; lia]|lia|].
    replace (key / 8 * 8 + key mod 8) with key in * by lia.
    rewrite Hhigh, Hcode. simpl.
    by destruct Hbad as [-> | ->].
  - pose proof (land_high_bits key ltac:(lia)) as Hne.
    apply Z.eqb_neq in Hne. by rewrite Hne.
Qed.

Lemma readFieldNumber_rejects_malformed_key_witness :
  readFieldNumber
    (mkSimpleReader (mkReadBuffer [Byte.x01; Byte.x0f] 1 []) 2 3 REACHED_END [])
  = Throw UnknownFormat.
Proof.
  apply (readFieldNumber_rejects_malformed_key _ 15 (mkReadBuffer [Byte.x01; Byte.x0f] 2 [])).
  - reflexivity.
  - simpl. lia.
  - lia.
  - vm_compute. reflexivity.
  - right. right. reflexivity.
Defined.

(** X5.  A GROUP_END key is legal only in a group frame: there it finishes
    the frame and [readFieldNumber] returns false; in a frame with a
    declared end, the root message included, it raises UnknownFormat. *)
Theorem readFieldNumber_GROUP_END (r : SimpleReader) (number : Z) (rbk : ReadBuffer) :
  field_end r = REACHED_END ->
  cursor r < current_message_end r ->
  0 <= number < 2 ^ 29 ->
  holds (in_ r) (encodeVarint (number * 8 + 4)) rbk ->
  (current_message_end r <> END_OF_GROUP -> readFieldNumber r = Throw UnknownFormat)
  /\ (current_message_end r = END_OF_GROUP ->
      readFieldNumber r =
        Ok None
           (mkSimpleReader rbk
              (wrap64 (cursor r + Z.of_nat (length (encodeVarint (number * 8 + 4)))))
              REACHED_END REACHED_END (parent_message_ends r))).
Proof.
  intros Hf Hc Hn Hh.
  destruct (key_parts number 4 Hn ltac:(lia)) as (Hkey & Hhigh & _ & Hcode).
  pose proof (readVarint_encodeVarint r (number * 8 + 4) rbk ltac:(lia) Hh) as Hread.
  split; intros He.
  - readFieldNumber_key Hf Hread. rewrite Hhigh, Hcode. simpl.
    apply Z.eqb_neq in He. by rewrite He.
  - readFieldNumber_key Hf Hread. rewrite Hhigh, Hcode. simpl.
    rewrite He, Z.eqb_refl. simpl.
    unfold set_current_message_end, set_cursor, set_in. simpl. by rewrite Hf.
Qed.

Lemma readFieldNumber_GROUP_END_witness :
  readFieldNumber
    (mkSimpleReader (mkReadBuffer [Byte.x01; Byte.x0c] 1 []) 2 3 REACHED_END [])
  = Throw UnknownFormat.
Proof.
  refine (proj1 (readFieldNumber_GROUP_END _ 1 (mkReadBuffer [Byte.x01; Byte.x0c] 2 [])
                   _ _ _ _) _).
  - reflexivity.
  - simpl. lia.
  - lia.
  - vm_compute. reflexivity.
  - vm_compute. discriminate.
Defined.

(** ** Scanning the fields of a message *)

Lemma wire_field_bytes_length f :
  wire_field_ok f -> (1 <= length (wire_field_bytes f))%nat.
Proof.
  intros [Hn _]. unfold wire_field_bytes. rewrite length_app.
  assert (Hc : 0 <= wire_type_code (wf_type f) < 8) by (destruct (wf_type f); simpl; lia).
  pose proof (encodeVarint_length (wf_number f * 8 + wire_type_code (wf_type f)) ltac:(lia)).
  lia.
Qed.

Lemma readFieldNumber_repeat_first r1 r2 k :
  readFieldNumber r1 = readFieldNumber r2 ->
  readFieldNumber_repeat (S k) r1 = readFieldNumber_repeat (S k) r2.
Proof. intros H. simpl. unfold bind at 1 3. by rewrite H. Qed.

(** X6.  Scanning a message: on a message made of fields of the wire types
    VARINT, BITS64, BITS32 and LENGTH_DELIMITED, successive calls of
    [readFieldNumber] return the field numbers in the order of the stream
    and then false; every payload that was not read is skipped, exactly the
    bytes of the message are consumed, and the frame is marked finished. *)
Theorem readFieldNumber_scans_message (fs : list wire_field) (r : SimpleReader)
    (rb' : ReadBuffer) :
  Forall wire_field_ok fs ->
  field_end r = REACHED_END ->
  0 < cursor r ->
  current_message_end r = cursor r + Z.of_nat (length (message_bytes fs)) ->
  current_message_end r < END_OF_GROUP ->
  holds (in_ r) (message_bytes fs) rb' ->
  readFieldNumber_repeat (S (length fs)) r =
    Ok (List.map (fun f => Some (wf_number f)) fs ++ [None])
       (mkSimpleReader rb' (current_message_end r) REACHED_END REACHED_END
          (parent_message_ends r)).
Proof.
  revert r rb'.
  induction fs as [|f fs IH]; intros r rb' Hall Hf Hc He Hg Hh.
  - simpl in He, Hh. apply holds_nil in Hh as ->.
    simpl. unfold readFieldNumber. munfold. rewrite Hf.
    change (negb (REACHED_END =? REACHED_END)) with false. cbv beta iota.
    replace (cursor r >=? current_message_end r) with true by lia.
    destruct r as [rb c e fe p]. simpl in *. subst fe.
    assert (e = c) as -> by lia. reflexivity.
  - apply Forall_cons in Hall as [Hok Hall].
    unfold message_bytes in He, Hh. simpl in He, Hh. fold (message_bytes fs) in He, Hh.
    rewrite length_app in He.
    apply holds_app in Hh as (rb1 & Hh1 & Hh2).
    pose proof (wire_field_bytes_length f Hok) as Hlen.
    destruct Hok as [Hn Hpay].
    destruct (readFieldNumber_field r (wf_number f) (wf_type f) (wf_payload f) rb1)
      as (r1 & Hread & _ & Hnext); try done.
    { lia. }
    { fold (wire_field_bytes f). rewrite END_OF_GROUP_eq in *. lia. }
    fold (wire_field_bytes f) in Hnext.
    change (readFieldNumber_repeat (S (length (f :: fs))) r)
      with ((do v <- readFieldNumber;
             do vs <- readFieldNumber_repeat (S (length fs));
             ret (v :: vs)) r).
    unfold bind at 1. rewrite Hread.
    unfold bind at 1.
    rewrite (readFieldNumber_repeat_first _ _ (length fs) Hnext).
    rewrite (IH _ rb'); try done; simpl; lia.
Qed.

Lemma readFieldNumber_scans_message_witness :
  readFieldNumber_repeat 3
    (mkSimpleReader
       (mkReadBuffer [Byte.x06; Byte.x0a; Byte.x02; Byte.x08; Byte.x01; Byte.x10; Byte.x01] 1 [])
       2 8 REACHED_END [])
  = Ok [Some 1; Some 2; None]
       (mkSimpleReader
          (mkReadBuffer [Byte.x06; Byte.x0a; Byte.x02; Byte.x08; Byte.x01; Byte.x10; Byte.x01] 7 [])
          8 REACHED_END REACHED_END []).
Proof.
  apply (readFieldNumber_scans_message
           [ mkWireField 1 LENGTH_DELIMITED
               (encodeVarint (Z.of_nat (length [Byte.x08; Byte.x01])) ++ [Byte.x08; Byte.x01]);
             mkWireField 2 VARINT ([] ++ [Byte.x01]) ]).
  - repeat constructor; simpl; try lia.
  - reflexivity.
  - simpl. lia.
  - vm_compute. reflexivity.
  - vm_compute. reflexivity.
  - vm_compute. reflexivity.
Defined.

(** ** Typed reads after a key: round trips *)

(** After the key of a field of wire type VARINT, BITS64 or BITS32 the field
    is in progress, with the end its wire type gives it. *)
Lemma readFieldNumber_pending r number wt rbk :
  field_end r = REACHED_END ->
  0 <= cursor r < current_message_end r ->
  0 <= number < 2 ^ 29 ->
  wt = VARINT \/ wt = BITS64 \/ wt = BITS32 ->
  let lk := Z.of_nat (length (encodeVarint (number * 8 + wire_type_code wt))) in
  holds (in_ r) (encodeVarint (number * 8 + wire_type_code wt)) rbk ->
  cursor r + lk + match wt with BITS64 => 8 | BITS32 => 4 | _ => 0 end < 2 ^ 64 ->
  readFieldNumber r =
    Ok (Some number)
       (mkSimpleReader rbk (cursor r + lk) (current_message_end r)
          (match wt with
           | BITS64 => cursor r + lk + 8
           | BITS32 => cursor r + lk + 4
           | _ => END_OF_VARINT
           end)
          (parent_message_ends r)).
Proof.
  intros Hf Hc Hn Hwt lk Hh Hmax.
  destruct (key_decomposition number wt Hn) as (Hkey & Hhigh & Hnum & Hcode).
  pose proof (readVarint_encodeVarint r (number * 8 + wire_type_code wt) rbk
                ltac:(lia) Hh) as Hread.
  fold lk in Hread.
  assert (Hlk : 0 <= lk) by (unfold lk; lia).
  assert (Hw : wrap64 (cursor r + lk) = cursor r + lk)
    by (unfold wrap64; rewrite Z.mod_small; [done|destruct Hwt as [-> | [-> | ->]]; lia]).
  rewrite Hw in Hread.
  readFieldNumber_key Hf Hread. rewrite Hhigh, Hcode, Hnum.
  change (negb (0 =? 0)) with false. cbv beta iota.
  destruct Hwt as [-> | [-> | ->]]; cbv beta iota;
    unfold set_field_end, set_cursor, set_in; cbn [cursor in_ current_message_end
      field_end parent_message_ends]; unfold wrap64; rewrite ?Z.mod_small by lia;
    reflexivity.
Qed.

(** After the key and the length of a LENGTH_DELIMITED field the field is in
    progress, and ends where its payload ends. *)
Lemma readFieldNumber_pending_length_delimited r number len rbk :
  field_end r = REACHED_END ->
  0 <= cursor r < current_message_end r ->
  0 <= number < 2 ^ 29 ->
  0 <= len ->
  let header := encodeVarint (number * 8 + 2) ++ encodeVarint len in
  holds (in_ r) header rbk ->
  cursor r + Z.of_nat (length header) + len < 2 ^ 64 ->
  readFieldNumber r =
    Ok (Some number)
       (mkSimpleReader rbk (cursor r + Z.of_nat (length header)) (current_message_end r)
          (cursor r + Z.of_nat (length header) + len) (parent_message_ends r)).
Proof.
  intros Hf Hc Hn Hlen header Hh Hmax. unfold header in *.
  rewrite length_app, Nat2Z.inj_add in *.
  destruct (key_decomposition number LENGTH_DELIMITED Hn) as (Hkey & Hhigh & Hnum & Hcode).
  simpl wire_type_code in *.
  apply holds_app in Hh as (rb1 & Hh1 & Hh2).
  pose proof (readVarint_encodeVarint r (number * 8 + 2) rb1 ltac:(lia) Hh1) as Hread.
  set (lk := Z.of_nat (length (encodeVarint (number * 8 + 2)))) in *.
  set (ll := Z.of_nat (length (encodeVarint len))) in *.
  assert (Hlk : 0 <= lk) by (unfold lk; lia).
  assert (Hll : 0 <= ll) by (unfold ll; lia).
  assert (Hw : wrap64 (cursor r + lk) = cursor r + lk)
    by (unfold wrap64; rewrite Z.mod_small; lia).
  rewrite Hw in Hread.
  pose proof (readVarint_encodeVarint (set_cursor (cursor r + lk) (set_in rb1 r)) len rbk
                ltac:(lia) Hh2) as Hread2.
  fold ll in Hread2. cbn [cursor set_cursor] in Hread2.
  assert (Hw2 : wrap64 (cursor r + lk + ll) = cursor r + lk + ll)
    by (unfold wrap64; rewrite Z.mod_small; lia).
  rewrite Hw2 in Hread2.
  readFieldNumber_key Hf Hread. rewrite Hhigh, Hcode, Hnum.
  change (negb (0 =? 0)) with false. cbv beta iota.
  rewrite Hread2.
  unfold set_field_end, set_cursor, set_in; cbn [cursor in_ current_message_end
      field_end parent_message_ends]; unfold wrap64; rewrite ?Z.mod_small by lia.
  rewrite !Z.add_assoc. reflexivity.
Qed.

(** X7.  Round trip of a LENGTH_DELIMITED field: after [readFieldNumber]
    has returned the number of the field, [readStringInto] appends exactly
    the payload to the array, leaves the cursor right after the field, and a
    second call returns false and appends nothing. *)
Theorem readStringInto_round_trip (r : SimpleReader) (number : Z)
    (body str : list Byte.byte) (rb' : ReadBuffer) :
  field_end r = REACHED_END ->
  0 < cursor r < current_message_end r ->
  0 <= number < 2 ^ 29 ->
  let field_bytes :=
    encodeVarint (number * 8 + 2) ++ encodeVarint (Z.of_nat (length body)) ++ body in
  holds (in_ r) field_bytes rb' ->
  cursor r + Z.of_nat (length field_bytes) < 2 ^ 64 ->
  (do n <- readFieldNumber;
   do first <- readStringInto str;
   do second <- readStringInto (snd first);
   ret (n, first, second)) r =
    Ok (Some number, (true, str ++ body), (false, str ++ body))
       (mkSimpleReader rb' (cursor r + Z.of_nat (length field_bytes))
          (current_message_end r) REACHED_END (parent_message_ends r)).
Proof.
  intros Hf Hc Hn field_bytes Hh Hmax. unfold field_bytes in *.
  rewrite app_assoc in Hh. apply holds_app in Hh as (rbk & Hhk & Hhb).
  rewrite !length_app, !Nat2Z.inj_add in Hmax.
  pose proof (readFieldNumber_pending_length_delimited r number
                (Z.of_nat (length body)) rbk Hf ltac:(lia) Hn ltac:(lia) Hhk) as Hkey.
  rewrite length_app, Nat2Z.inj_add in Hkey. specialize (Hkey ltac:(lia)).
  set (lk := Z.of_nat (length (encodeVarint (number * 8 + 2)))) in *.
  set (ll := Z.of_nat (length (encodeVarint (Z.of_nat (length body))))) in *.
  set (L := Z.of_nat (length body)) in *.
  assert (Hlk : 0 <= lk) by (unfold lk; lia).
  assert (Hll : 0 <= ll) by (unfold ll; lia).
  assert (HL : 0 <= L) by (unfold L; lia).
  unfold bind at 1. rewrite Hkey.
  unfold bind at 1. unfold readStringInto at 1. munfold.
  cbn [cursor field_end in_].
  replace (cursor r + (lk + ll) >? cursor r + (lk + ll) + L) with false by lia.
  replace (wrap64 (cursor r + (lk + ll) + L - (cursor r + (lk + ll)))) with L
    by (unfold wrap64; rewrite Z.mod_small; lia).
  unfold readBinary, in_readStrict, add_cursor. munfold. cbn [in_].
  unfold holds in Hhb. unfold L at 1. rewrite Nat2Z.id, Hhb.
  cbn [cursor set_in set_field_end set_cursor snd fst field_end].
  unfold readStringInto. munfold.
  unfold set_field_end, set_cursor, set_in.
  cbn [cursor field_end in_ current_message_end parent_message_ends].
  replace (wrap64 (cursor r + (lk + ll) + L)) with (cursor r + (lk + (ll + L)))
    by (unfold wrap64; rewrite Z.mod_small; lia).
  replace (cursor r + (lk + (ll + L)) >? REACHED_END) with true
    by (unfold REACHED_END; lia).
  rewrite !length_app, !Nat2Z.inj_add. reflexivity.
Qed.

Lemma readStringInto_round_trip_witness :
  (do n <- readFieldNumber;
   do first <- readStringInto [];
   do second <- readStringInto (snd first);
   ret (n, first, second))
    (mkSimpleReader
       (mkReadBuffer [Byte.x04; Byte.x0a; Byte.x02; Byte.x68; Byte.x69] 1 []) 2 6
       REACHED_END [])
  = Ok (Some 1, (true, [Byte.x68; Byte.x69]), (false, [Byte.x68; Byte.x69]))
       (mkSimpleReader
          (mkReadBuffer [Byte.x04; Byte.x0a; Byte.x02; Byte.x68; Byte.x69] 5 []) 6 6
          REACHED_END []).
Proof.
  refine (readStringInto_round_trip
            (mkSimpleReader
               (mkReadBuffer [Byte.x04; Byte.x0a; Byte.x02; Byte.x68; Byte.x69] 1 []) 2 6
               REACHED_END [])
            1 [Byte.x68; Byte.x69] []
            (mkReadBuffer [Byte.x04; Byte.x0a; Byte.x02; Byte.x68; Byte.x69] 5 [])
            _ _ _ _ _).
  - reflexivity.
  - simpl. lia.
  - lia.
  - vm_compute. reflexivity.
  - vm_compute. reflexivity.
Defined.

Lemma le_bytes_length k : forall v, length (le_bytes k v) = k.
Proof. induction k as [|k IH]; intros v; simpl; [done|by rewrite IH]. Qed.

Lemma le_value_le_bytes k : forall v, le_value (le_bytes k v) = v mod 256 ^ Z.of_nat k.
Proof.
  induction k as [|k IH]; intros v.
  - simpl. by rewrite Z.mod_1_r.
  - cbn [le_bytes le_value]. rewrite byte_val_of_Z, IH.
    rewrite Nat2Z.inj_succ, Z.pow_succ_r by lia.
    rewrite Z.rem_mul_r by lia. reflexivity.
Qed.

Lemma to_Int64_of_Int64 v : - 2 ^ 63 <= v < 2 ^ 63 -> to_Int64 (of_Int64 v) = v.
Proof.
  intros Hv. unfold to_Int64, of_Int64, wrap64.
  destruct (Z_lt_dec v 0) as [Hneg|Hpos].
  - rewrite <- (Z.mod_unique v (2 ^ 64) (-1) (v + 2 ^ 64)) by lia.
    replace (v + 2 ^ 64 <? 2 ^ 63) with false by lia. lia.
  - rewrite Z.mod_small by lia. replace (v <? 2 ^ 63) with true by lia. done.
Qed.

Lemma static_cast_mod T v :
  is_integral T = true -> in_range T v = true ->
  static_cast T (v mod (num_max T - num_lowest T + 1)) = v.
Proof.
  intros HT Hv. apply in_range_iff in Hv. unfold static_cast.
  assert (Hw : 0 < num_max T - num_lowest T + 1) by (destruct T; simpl in *; lia).
  rewrite Zminus_mod_idemp_l.
  rewrite Z.mod_small by lia. lia.
Qed.

(** A single varint read from a field of wire type VARINT finishes the
    field. *)
Lemma readUInt_varint_field r v rb' :
  field_end r = END_OF_VARINT ->
  0 <= cursor r ->
  0 <= v < 2 ^ 64 ->
  holds (in_ r) (encodeVarint v) rb' ->
  cursor r + Z.of_nat (length (encodeVarint v)) < 2 ^ 64 ->
  readUInt r =
    Ok (Some v)
       (mkSimpleReader rb' (cursor r + Z.of_nat (length (encodeVarint v)))
          (current_message_end r) REACHED_END (parent_message_ends r)).
Proof.
  intros Hf Hc Hv Hh Hmax.
  pose proof (encodeVarint_length v Hv) as Hlen.
  rewrite (readUInt_one r v _ ltac:(rewrite Hf, END_OF_VARINT_eq; lia)
             (readVarint_encodeVarint r v rb' Hv Hh)).
  rewrite Hf, Z.eqb_refl. cbn [orb].
  unfold set_field_end, set_cursor, set_in.
  cbn [cursor field_end in_ current_message_end parent_message_ends].
  unfold wrap64. rewrite Z.mod_small by lia. reflexivity.
Qed.

(** The bytes of a field of wire type BITS32 or BITS64, read at once, finish
    the field. *)
Lemma readFixed_bits_field r size bs rb' :
  0 < size ->
  Z.of_nat (length bs) = size ->
  field_end r = cursor r + size ->
  0 <= cursor r ->
  cursor r + size < 2 ^ 64 ->
  holds (in_ r) bs rb' ->
  readFixed size r =
    Ok (Some bs)
       (mkSimpleReader rb' (cursor r + size) (current_message_end r) REACHED_END
          (parent_message_ends r)).
Proof.
  intros Hs Hl Hf Hc Hmax Hh. unfold readFixed. munfold.
  replace (cursor r >=? field_end r) with false by lia.
  unfold readBinary, in_readStrict, add_cursor. munfold.
  unfold holds in Hh. rewrite <- Hl, Nat2Z.id, Hh.
  unfold set_field_end, set_cursor, set_in.
  cbn [cursor field_end in_ current_message_end parent_message_ends].
  rewrite Hl. replace (wrap64 (cursor r + size)) with (cursor r + size)
    by (unfold wrap64; rewrite Z.mod_small; lia).
  rewrite Hf. replace (cursor r + size >=? cursor r + size) with true by lia.
  reflexivity.
Qed.

(** Once a field is finished a further read returns false and leaves the
    scanner as it is. *)
Lemma FromNumber_readField_finished ft T r :
  number_carrier ft = Some T ->
  field_end r = REACHED_END ->
  0 <= cursor r ->
  FromNumber_readField ft r = Ok None r.
Proof.
  intros HT Hf Hc.
  assert (HU : readUInt r = Ok None r).
  { unfold readUInt. munfold. rewrite Hf.
    replace (cursor r >=? REACHED_END) with true by (unfold REACHED_END; lia).
    unfold set_field_end. rewrite <- Hf. by destruct r. }
  assert (HF : forall size, readFixed size r = Ok None r).
  { intros size. unfold readFixed. munfold. rewrite Hf.
    replace (cursor r >=? REACHED_END) with true by (unfold REACHED_END; lia).
    unfold set_field_end. rewrite <- Hf. by destruct r. }
  destruct ft; try discriminate HT; unfold FromNumber_readField, readInt, readSInt,
    option_map_value; munfold; rewrite ?HU, ?HF; reflexivity.
Qed.

(** X8.  Round trip of a number field: for each of the ten integral field
    types, after the key of a field whose payload encodes a value [v] of the
    type the converter reads into, [readField] returns [v] and leaves the
    cursor right after the field with the field finished; a second read
    returns false. *)
Theorem FromNumber_readField_round_trip (ft : FieldType) (T : NumType) (v : Z)
    (r : SimpleReader) (number : Z) (rb' : ReadBuffer) :
  number_carrier ft = Some T ->
  is_integral T = true ->
  in_range T v = true ->
  field_end r = REACHED_END ->
  0 <= cursor r < current_message_end r ->
  0 <= number < 2 ^ 29 ->
  let field_bytes :=
    encodeVarint (number * 8 + wire_type_code (number_wire_type ft))
      ++ encode_number ft v in
  holds (in_ r) field_bytes rb' ->
  cursor r + Z.of_nat (length field_bytes) < 2 ^ 64 ->
  (do n <- readFieldNumber;
   do first <- FromNumber_readField ft;
   do second <- FromNumber_readField ft;
   ret (n, first, second)) r =
    Ok (Some number, Some v, None)
       (mkSimpleReader rb' (cursor r + Z.of_nat (length field_bytes))
          (current_message_end r) REACHED_END (parent_message_ends r)).
Proof.
  intros HT Hint Hv Hf Hc Hn field_bytes Hh Hmax. unfold field_bytes in *.
  apply holds_app in Hh as (rbk & Hhk & Hhp).
  rewrite length_app, Nat2Z.inj_add in *.
  set (lk := Z.of_nat (length (encodeVarint
                (number * 8 + wire_type_code (number_wire_type ft))))) in *.
  assert (Hlk : 0 <= lk) by (unfold lk; lia).
  apply in_range_iff in Hv as Hrange.
  assert (Hwt : number_wire_type ft = VARINT \/ number_wire_type ft = BITS64
                \/ number_wire_type ft = BITS32)
    by (destruct ft; simpl; auto).
  assert (Hp : match number_wire_type ft with BITS64 => 8 | BITS32 => 4 | _ => 0 end
               <= Z.of_nat (length (encode_number ft v))).
  { destruct ft; try discriminate HT; injection HT as <-; try discriminate Hint;
      simpl; rewrite ?le_bytes_length; lia. }
  pose proof (readFieldNumber_pending r number (number_wire_type ft) rbk Hf Hc Hn Hwt Hhk
                ltac:(fold lk; lia)) as Hkey.
  fold lk in Hkey.
  unfold bind at 1. rewrite Hkey.
  set (rk := mkSimpleReader rbk _ _ _ _) in *.
  assert (Hsecond : forall rb c,
            0 <= c ->
            FromNumber_readField ft
              (mkSimpleReader rb c (current_message_end r) REACHED_END
                 (parent_message_ends r)) =
            Ok None (mkSimpleReader rb c (current_message_end r) REACHED_END
                       (parent_message_ends r))).
  { intros rb c Hc0. by apply (FromNumber_readField_finished ft T). }
  assert (Hvarint : forall u,
            number_wire_type ft = VARINT ->
            encode_number ft v = encodeVarint u ->
            0 <= u < 2 ^ 64 ->
            readUInt rk =
              Ok (Some u)
                 (mkSimpleReader rb' (cursor r + (lk + Z.of_nat (length (encode_number ft v))))
                    (current_message_end r) REACHED_END (parent_message_ends r))).
  { intros u Hw He Hu. rewrite He in *.
    rewrite (readUInt_varint_field rk u rb'); subst rk; cbn [cursor field_end
      current_message_end parent_message_ends in_]; try done; try lia.
    - by rewrite Z.add_assoc.
    - by rewrite Hw. }
  assert (Hfixed : forall size,
            (number_wire_type ft = BITS32 /\ size = 4
             \/ number_wire_type ft = BITS64 /\ size = 8) ->
            Z.of_nat (length (encode_number ft v)) = size ->
            readFixed size rk =
              Ok (Some (encode_number ft v))
                 (mkSimpleReader rb' (cursor r + (lk + Z.of_nat (length (encode_number ft v))))
                    (current_message_end r) REACHED_END (parent_message_ends r))).
  { intros size Hw Hl.
    rewrite (readFixed_bits_field rk size (encode_number ft v) rb'); subst rk;
      cbn [cursor field_end current_message_end parent_message_ends in_];
      try done; try lia.
    - by rewrite Hl, Z.add_assoc.
    - destruct Hw as [[-> ->] | [-> ->]]; reflexivity. }
  destruct ft; try discriminate HT; injection HT as <-; try discriminate Hint;
    simpl in Hrange;
    unfold FromNumber_readField at 1, readInt, readSInt, option_map_value;
    unfold bind at 1.
  - (* TYPE_INT64 *)
    unfold bind at 1.
    rewrite (Hvarint (of_Int64 v) eq_refl eq_refl (wrap64_range v)).
    cbv beta iota. unfold ret at 1. unfold bind at 1.
    rewrite Hsecond by lia. unfold ret. by rewrite to_Int64_of_Int64 by lia.
  - (* TYPE_UINT64 *)
    rewrite (Hvarint v eq_refl eq_refl ltac:(lia)).
    unfold bind at 1. rewrite Hsecond by lia. reflexivity.
  - (* TYPE_INT32 *)
    unfold bind at 1.
    rewrite (Hvarint (of_Int64 v) eq_refl eq_refl (wrap64_range v)).
    cbv beta iota. unfold ret at 1. unfold bind at 1.
    rewrite Hsecond by lia. unfold ret. by rewrite to_Int64_of_Int64 by lia.
  - (* TYPE_FIXED64 *)
    unfold bind at 1.
    rewrite (Hfixed 8 ltac:(right; done) ltac:(reflexivity)).
    cbv beta iota. unfold ret at 1. unfold bind at 1.
    rewrite Hsecond by lia. unfold ret, encode_number.
    rewrite le_value_le_bytes. change (256 ^ Z.of_nat 8) with (2 ^ 64).
    by rewrite Z.mod_small by lia.
  - (* TYPE_FIXED32 *)
    unfold bind at 1.
    rewrite (Hfixed 4 ltac:(left; done) ltac:(reflexivity)).
    cbv beta iota. unfold ret at 1. unfold bind at 1.
    rewrite Hsecond by lia. unfold ret, encode_number.
    rewrite le_value_le_bytes. change (256 ^ Z.of_nat 4) with (2 ^ 32).
    by rewrite Z.mod_small by lia.
  - (* TYPE_UINT32 *)
    rewrite (Hvarint v eq_refl eq_refl ltac:(lia)).
    unfold bind at 1. rewrite Hsecond by lia. reflexivity.
  - (* TYPE_SFIXED32 *)
    unfold bind at 1.
    rewrite (Hfixed 4 ltac:(left; done) ltac:(reflexivity)).
    cbv beta iota. unfold ret at 1. unfold bind at 1.
    rewrite Hsecond by lia. unfold ret, encode_number.
    rewrite le_value_le_bytes.
    change (256 ^ Z.of_nat 4) with (num_max Int32 - num_lowest Int32 + 1).
    by rewrite static_cast_mod.
  - (* TYPE_SFIXED64 *)
    unfold bind at 1.
    rewrite (Hfixed 8 ltac:(right; done) ltac:(reflexivity)).
    cbv beta iota. unfold ret at 1. unfold bind at 1.
    rewrite Hsecond by lia. unfold ret, encode_number.
    rewrite le_value_le_bytes.
    change (256 ^ Z.of_nat 8) with (num_max Int64 - num_lowest Int64 + 1).
    by rewrite static_cast_mod.
  - (* TYPE_SINT32 *)
    unfold bind at 1.
    rewrite (Hvarint (encodeZigZag v) eq_refl eq_refl (encodeZigZag_range v ltac:(lia))).
    cbv beta iota. unfold ret at 1. unfold bind at 1.
    rewrite Hsecond by lia. unfold ret. by rewrite decodeZigZag_encodeZigZag by lia.
  - (* TYPE_SINT64 *)
    unfold bind at 1.
    rewrite (Hvarint (encodeZigZag v) eq_refl eq_refl (encodeZigZag_range v ltac:(lia))).
    cbv beta iota. unfold ret at 1. unfold bind at 1.
    rewrite Hsecond by lia. unfold ret. by rewrite decodeZigZag_encodeZigZag by lia.
Qed.

Lemma FromNumber_readField_round_trip_witness :
  (do n <- readFieldNumber;
   do first <- FromNumber_readField TYPE_SFIXED32;
   do second <- FromNumber_readField TYPE_SFIXED32;
   ret (n, first, second))
    (mkSimpleReader
       (mkReadBuffer [Byte.x05; Byte.x1d; Byte.xfe; Byte.xff; Byte.xff; Byte.xff] 1 [])
       1 6 REACHED_END [])
  = Ok (Some 3, Some (-2), None)
       (mkSimpleReader
          (mkReadBuffer [Byte.x05; Byte.x1d; Byte.xfe; Byte.xff; Byte.xff; Byte.xff] 6 [])
          6 6 REACHED_END []).
Proof.
  refine (FromNumber_readField_round_trip TYPE_SFIXED32 Int32 (-2)
            (mkSimpleReader
               (mkReadBuffer [Byte.x05; Byte.x1d; Byte.xfe; Byte.xff; Byte.xff; Byte.xff] 1 [])
               1 6 REACHED_END [])
            3
            (mkReadBuffer [Byte.x05; Byte.x1d; Byte.xfe; Byte.xff; Byte.xff; Byte.xff] 6 [])
            _ _ _ _ _ _ _ _).
  - reflexivity.
  - reflexivity.
  - reflexivity.
  - reflexivity.
  - simpl. lia.
  - lia.
  - vm_compute. reflexivity.
  - vm_compute. reflexivity.
Defined.

(** ** The converters of strings, numbers and booleans *)

Lemma name_to_value_fold pairs : forall (m : gmap string Z) name,
  fold_left (fun m p => emplace (fst p) (snd p) m) pairs m !! name =
  match m !! name with
  | Some value => Some value
  | None => value_of_name pairs name
  end.
Proof.
  induction pairs as [|[n v] l IH]; intros m name; simpl.
  - unfold value_of_name. simpl. by destruct (m !! name).
  - rewrite IH, emplace_lookup. unfold value_of_name. simpl.
    destruct (m !! name) as [x|]; [done|].
    destruct (decide (n = name)) as [->|Hne].
    + by rewrite String.eqb_refl.
    + apply String.eqb_neq in Hne. by rewrite Hne.
Qed.

Lemma name_to_value_loop_lookup pairs name :
  name_to_value_loop pairs !! name = value_of_name pairs name.
Proof. unfold name_to_value_loop. by rewrite name_to_value_fold, lookup_empty. Qed.

(** X9.  [readEnum] of a string converter, once the mapping was prepared
    from the supplied pairs: the payload is read as a name, the value of the
    first pair with that name is returned, narrowed to the target, and
    BadCast is raised when no pair has the name; when the field has no string
    left the call returns false. *)
Theorem FromString_readEnum_spec (T : NumType) (c : ConverterFromString)
    (name_value_pairs : list (string * Z)) (r r' : SimpleReader)
    (ok : bool) (bytes : list Byte.byte) :
  enum_name_to_value_map c = None ->
  readStringInto [] r = Ok (ok, bytes) r' ->
  (run FromString_prepareEnumNameToValueMap name_value_pairs;
   FromString_readEnum T) (r, c) =
    if ok then
      match value_of_name name_value_pairs (string_of_list_byte bytes) with
      | Some value =>
          Ok (Some (static_cast T value))
             (r', mkConverterFromString bytes (Some (name_to_value_loop name_value_pairs)))
      | None => Throw BadCast
      end
    else
      Ok None (r', mkConverterFromString bytes (Some (name_to_value_loop name_value_pairs))).
Proof.
  intros Hmap Hread.
  unfold FromString_prepareEnumNameToValueMap, FromString_readEnum,
    FromString_readTempString. munfold. simpl. rewrite Hmap. simpl.
  rewrite Hread. simpl. destruct ok; simpl; [|done].
  rewrite name_to_value_loop_lookup.
  by destruct (value_of_name name_value_pairs (string_of_list_byte bytes)).
Qed.

Lemma FromString_readEnum_spec_witness :
  (run FromString_prepareEnumNameToValueMap [("a"%string, 7); ("hi"%string, 300);
                                             ("hi"%string, 5)];
   FromString_readEnum Int16)
    (mkSimpleReader (mkReadBuffer [Byte.x68; Byte.x69] 0 []) 5 9 7 [],
     mkConverterFromString [] None)
  = Ok (Some 300)
       (mkSimpleReader (mkReadBuffer [Byte.x68; Byte.x69] 2 []) 7 9 REACHED_END [],
        mkConverterFromString [Byte.x68; Byte.x69]
          (Some (name_to_value_loop [("a"%string, 7); ("hi"%string, 300);
                                     ("hi"%string, 5)]))).
Proof.
  refine (FromString_readEnum_spec Int16 (mkConverterFromString [] None)
            [("a"%string, 7); ("hi"%string, 300); ("hi"%string, 5)]
            (mkSimpleReader (mkReadBuffer [Byte.x68; Byte.x69] 0 []) 5 9 7 [])
            (mkSimpleReader (mkReadBuffer [Byte.x68; Byte.x69] 2 []) 7 9 REACHED_END [])
            true [Byte.x68; Byte.x69] _ _).
  - reflexivity.
  - vm_compute. reflexivity.
Defined.

Lemma set_of_values_fold pairs : forall (s : gset Z) value,
  value ∈ fold_left (fun s p => {[ snd p ]} ∪ s) pairs s
  <-> value ∈ s \/ is_value_of_pairs pairs value = true.
Proof.
  induction pairs as [|[n v] l IH]; intros s value; simpl.
  - split; [by left|]. by intros [H|H].
  - rewrite IH. rewrite elem_of_union, elem_of_singleton, orb_true_iff, Z.eqb_eq.
    split; [intros [[H|H]|H]|intros [H|[H|H]]]; auto.
Qed.

Lemma set_of_values_loop_elem pairs value :
  value ∈ set_of_values_loop pairs <-> is_value_of_pairs pairs value = true.
Proof.
  unfold set_of_values_loop. rewrite set_of_values_fold.
  split; [intros [H|H]|by right]; [|done]. by apply not_elem_of_empty in H.
Qed.

(** X10.  [readEnum] of a number converter.  With a floating-point carrier
    it raises BadCast before anything is read.  With an integral carrier,
    once the set of values was prepared from the supplied pairs, the number
    read is returned when the target can represent it and it is the value of
    one of the pairs, and BadCast is raised otherwise. *)
Theorem FromNumber_readEnum_spec
    (boost_float : NumType -> NumType -> Z -> option Z)
    (field_type_id : FieldType) (T EnumType : NumType)
    (c : ConverterFromNumber) (r : SimpleReader) :
  (is_integral T = false ->
   FromNumber_readEnum boost_float field_type_id T EnumType (r, c) = Throw BadCast)
  /\ (forall name_value_pairs number r',
        is_integral T = true ->
        is_integral EnumType = true ->
        set_of_enum_values c = None ->
        FromNumber_readField field_type_id r = Ok (Some number) r' ->
        (run FromNumber_prepareSetOfEnumValues name_value_pairs;
         FromNumber_readEnum boost_float field_type_id T EnumType) (r, c) =
          if (NumType_eqb EnumType T || in_range EnumType number)
             && is_value_of_pairs name_value_pairs number
          then Ok (Some number)
                  (r', mkConverterFromNumber (Some (set_of_values_loop name_value_pairs)))
          else Throw BadCast).
Proof.
  split.
  - intros HT. unfold FromNumber_readEnum. munfold. by rewrite HT.
  - intros pairs number r' HT HE Hset Hread.
    unfold FromNumber_prepareSetOfEnumValues, FromNumber_readEnum, numericCast,
      boost_numeric_cast. munfold. simpl. rewrite Hset. simpl.
    rewrite HT. simpl. rewrite Hread. simpl. rewrite HE. simpl.
    assert (Hin : forall s : SimpleReader * ConverterFromNumber,
              (if decide (number ∈ set_of_values_loop pairs)
               then fun s => Ok (Some number) s
               else throw BadCast) s =
              if is_value_of_pairs pairs number then Ok (Some number) s
              else Throw BadCast).
    { intros s. destruct (decide (number ∈ set_of_values_loop pairs)) as [H|H].
      - apply set_of_values_loop_elem in H. by rewrite H.
      - destruct (is_value_of_pairs pairs number) eqn:E; [|done].
        by apply set_of_values_loop_elem in E. }
    destruct (NumType_eqb EnumType T); simpl.
    + apply Hin.
    + destruct (in_range EnumType number); simpl; [apply Hin|done].
Qed.

Lemma FromNumber_readEnum_spec_witness :
  FromNumber_readEnum (fun _ _ _ => None) TYPE_FLOAT Float32 Int8
    (SimpleReader_init (mkReadBuffer [] 0 []), mkConverterFromNumber None) = Throw BadCast
  /\ (run FromNumber_prepareSetOfEnumValues [("a"%string, 7); ("b"%string, 300)];
      FromNumber_readEnum (fun _ _ _ => None) TYPE_UINT32 UInt64 Int16)
       (mkSimpleReader (mkReadBuffer [Byte.xac; Byte.x02] 0 []) 5 9 END_OF_VARINT [],
        mkConverterFromNumber None)
     = Ok (Some 300)
          (mkSimpleReader (mkReadBuffer [Byte.xac; Byte.x02] 2 []) 7 9 REACHED_END [],
           mkConverterFromNumber
             (Some (set_of_values_loop [("a"%string, 7); ("b"%string, 300)]))).
Proof.
  split.
  - refine (proj1 (FromNumber_readEnum_spec (fun _ _ _ => None) TYPE_FLOAT Float32 Int8
                     (mkConverterFromNumber None)
                     (SimpleReader_init (mkReadBuffer [] 0 []))) _).
    reflexivity.
  - refine (proj2 (FromNumber_readEnum_spec (fun _ _ _ => None) TYPE_UINT32 UInt64 Int16
                     (mkConverterFromNumber None)
                     (mkSimpleReader (mkReadBuffer [Byte.xac; Byte.x02] 0 []) 5 9
                        END_OF_VARINT []))
                  [("a"%string, 7); ("b"%string, 300)] 300
                  (mkSimpleReader (mkReadBuffer [Byte.xac; Byte.x02] 2 []) 7 9
                     REACHED_END [])
                  _ _ _ _).
    + reflexivity.
    + reflexivity.
    + reflexivity.
    + vm_compute. reflexivity.
Defined.

(** X11.  The enum mappings are built once: a call of the prepare function
    of a converter that follows another one changes nothing, whatever pairs
    it is given. *)
Theorem enum_mappings_built_once (pairs1 pairs2 : list (string * Z)) (r : SimpleReader) :
  (forall c : ConverterFromString,
     (run FromString_prepareEnumNameToValueMap pairs1;
      FromString_prepareEnumNameToValueMap pairs2) (r, c)
     = FromString_prepareEnumNameToValueMap pairs1 (r, c))
  /\ (forall c : ConverterFromNumber,
        (run FromNumber_prepareSetOfEnumValues pairs1;
         FromNumber_prepareSetOfEnumValues pairs2) (r, c)
        = FromNumber_prepareSetOfEnumValues pairs1 (r, c))
  /\ (forall c : ConverterEnum,
        (run Enum_prepareEnumPbNumberToValueMap pairs1;
         Enum_prepareEnumPbNumberToValueMap pairs2) (r, c)
        = Enum_prepareEnumPbNumberToValueMap pairs1 (r, c))
  /\ (forall c : ConverterEnum,
        (run Enum_prepareEnumPbNumberToNameMap;
         Enum_prepareEnumPbNumberToNameMap) (r, c)
        = Enum_prepareEnumPbNumberToNameMap (r, c)).
Proof.
  split; [|split; [|split]]; intros c.
  - unfold FromString_prepareEnumNameToValueMap. munfold. simpl.
    destruct (enum_name_to_value_map c) as [m|] eqn:E; simpl; by rewrite ?E.
  - unfold FromNumber_prepareSetOfEnumValues. munfold. simpl.
    destruct (set_of_enum_values c) as [m|] eqn:E; simpl; by rewrite ?E.
  - unfold Enum_prepareEnumPbNumberToValueMap. munfold. simpl.
    destruct (enum_pbnumber_to_value_map c) as [m|] eqn:E; simpl; by rewrite ?E.
  - unfold Enum_prepareEnumPbNumberToNameMap. munfold. simpl.
    destruct (enum_pbnumber_to_name_map c) as [m|] eqn:E; simpl; by rewrite ?E.
Qed.

(** X12.  Dates and times of a number converter with an integral carrier:
    [readDate] returns the number read when it is below [2^16] and not
    negative, [readDateTime] when it is below [2^32] and not negative, and
    both raise BadCast otherwise. *)
Theorem FromNumber_readDate_range_checked
    (boost_float : NumType -> NumType -> Z -> option Z)
    (field_type_id : FieldType) (T : NumType)
    (c : ConverterFromNumber) (r r' : SimpleReader) (number : Z) :
  number_carrier field_type_id = Some T ->
  is_integral T = true ->
  FromNumber_readField field_type_id r = Ok (Some number) r' ->
  FromNumber_readDate boost_float field_type_id T (r, c) =
    (if (0 <=? number) && (number <? 2 ^ 16) then Ok (Some number) (r', c)
     else Throw BadCast)
  /\ FromNumber_readDateTime boost_float field_type_id T (r, c) =
    (if (0 <=? number) && (number <? 2 ^ 32) then Ok (Some number) (r', c)
     else Throw BadCast).
Proof.
  intros HC HT Hread.
  pose proof (FromNumber_readField_range _ _ _ _ _ HC HT Hread) as Hrange.
  apply in_range_iff in Hrange.
  assert (Hcast : forall To, is_integral To = true ->
            FromNumber_readNumeric boost_float field_type_id T To (r, c) =
            if in_range To number then Ok (Some number) (r', c) else Throw BadCast).
  { intros To HTo. unfold FromNumber_readNumeric, numericCast, boost_numeric_cast.
    munfold. simpl. rewrite Hread. simpl. rewrite HTo, HT. simpl.
    destruct (NumType_eqb To T) eqn:E.
    - apply NumType_eqb_eq in E as ->.
      replace (in_range T number) with true by (symmetry; by apply in_range_iff).
      done.
    - by destruct (in_range To number). }
  split.
  - unfold FromNumber_readDate. unfold bind. rewrite (Hcast UInt16 eq_refl).
    unfold in_range. simpl num_lowest. simpl num_max.
    replace (number <=? 2 ^ 16 - 1) with (number <? 2 ^ 16) by lia.
    by destruct ((0 <=? number) && (number <? 2 ^ 16)).
  - unfold FromNumber_readDateTime. unfold bind. rewrite (Hcast UInt32 eq_refl).
    unfold in_range. simpl num_lowest. simpl num_max.
    replace (number <=? 2 ^ 32 - 1) with (number <? 2 ^ 32) by lia.
    by destruct ((0 <=? number) && (number <? 2 ^ 32)).
Qed.

Lemma FromNumber_readDate_range_checked_witness :
  FromNumber_readDate (fun _ _ _ => None) TYPE_INT32 Int64
    (mkSimpleReader (mkReadBuffer [Byte.x80; Byte.x80; Byte.x04] 0 []) 5 9 END_OF_VARINT [],
     mkConverterFromNumber None) = Throw BadCast
  /\ FromNumber_readDateTime (fun _ _ _ => None) TYPE_INT32 Int64
       (mkSimpleReader (mkReadBuffer [Byte.x80; Byte.x80; Byte.x04] 0 []) 5 9
          END_OF_VARINT [],
        mkConverterFromNumber None)
     = Ok (Some 65536)
          (mkSimpleReader (mkReadBuffer [Byte.x80; Byte.x80; Byte.x04] 3 []) 8 9
             REACHED_END [],
           mkConverterFromNumber None).
Proof.
  refine (FromNumber_readDate_range_checked (fun _ _ _ => None) TYPE_INT32 Int64
            (mkConverterFromNumber None)
            (mkSimpleReader (mkReadBuffer [Byte.x80; Byte.x80; Byte.x04] 0 []) 5 9
               END_OF_VARINT [])
            (mkSimpleReader (mkReadBuffer [Byte.x80; Byte.x80; Byte.x04] 3 []) 8 9
               REACHED_END [])
            65536 _ _ _).
  - reflexivity.
  - reflexivity.
  - vm_compute. reflexivity.
Defined.

(** X13.  A boolean field: after the key of a VARINT field whose payload is
    the varint of [u], the TYPE_BOOL converter returns 1 and the text true
    for every [u] other than 0, whatever its size, and 0 and the text false
    for 0; the field is finished and the cursor is right after it. *)
Theorem Bool_field_round_trip (r : SimpleReader) (number u : Z) (rb' : ReadBuffer) :
  field_end r = REACHED_END ->
  0 <= cursor r < current_message_end r ->
  0 <= number < 2 ^ 29 ->
  0 <= u < 2 ^ 64 ->
  let field_bytes := encodeVarint (number * 8 + 0) ++ encodeVarint u in
  let after :=
    mkSimpleReader rb' (cursor r + Z.of_nat (length field_bytes))
      (current_message_end r) REACHED_END (parent_message_ends r) in
  holds (in_ r) field_bytes rb' ->
  cursor r + Z.of_nat (length field_bytes) < 2 ^ 64 ->
  (do n <- readFieldNumber; do x <- Bool_readNumeric; ret (n, x)) r =
    Ok (Some number, Some (if u =? 0 then 0 else 1)) after
  /\ (do n <- readFieldNumber; do x <- Bool_readStringInto; ret (n, x)) r =
    Ok (Some number, Some (if u =? 0 then "false"%string else "true"%string)) after.
Proof.
  intros Hf Hc Hn Hu field_bytes after Hh Hmax. unfold after, field_bytes in *.
  apply holds_app in Hh as (rbk & Hhk & Hhp).
  rewrite length_app, Nat2Z.inj_add in *.
  pose proof (encodeVarint_length u Hu) as Hlu.
  pose proof (readFieldNumber_pending r number VARINT rbk Hf Hc Hn ltac:(by left) Hhk
                ltac:(simpl wire_type_code; lia)) as Hkey.
  simpl wire_type_code in Hkey.
  set (lk := Z.of_nat (length (encodeVarint (number * 8 + 0)))) in *.
  assert (Hlk : 0 <= lk) by (unfold lk; lia).
  assert (Hread : Bool_readField
            (mkSimpleReader rbk (cursor r + lk) (current_message_end r) END_OF_VARINT
               (parent_message_ends r)) =
          Ok (Some (negb (u =? 0)))
             (mkSimpleReader rb' (cursor r + (lk + Z.of_nat (length (encodeVarint u))))
                (current_message_end r) REACHED_END (parent_message_ends r))).
  { unfold Bool_readField. unfold bind.
    rewrite (readUInt_varint_field _ u rb'); cbn [cursor field_end in_
      current_message_end parent_message_ends]; try done; try lia.
    by rewrite Z.add_assoc. }
  split.
  - unfold bind at 1. rewrite Hkey. unfold Bool_readNumeric. unfold bind at 1 2.
    rewrite Hread. by destruct (u =? 0).
  - unfold bind at 1. rewrite Hkey. unfold Bool_readStringInto. unfold bind at 1 2.
    rewrite Hread. by destruct (u =? 0).
Qed.

Lemma Bool_field_round_trip_witness :
  (do n <- readFieldNumber; do x <- Bool_readNumeric; ret (n, x))
    (mkSimpleReader (mkReadBuffer [Byte.x03; Byte.x08; Byte.x80; Byte.x02] 1 []) 2 5
       REACHED_END [])
  = Ok (Some 1, Some 1)
       (mkSimpleReader (mkReadBuffer [Byte.x03; Byte.x08; Byte.x80; Byte.x02] 4 []) 5 5
          REACHED_END []).
Proof.
  refine (proj1 (Bool_field_round_trip
                   (mkSimpleReader
                      (mkReadBuffer [Byte.x03; Byte.x08; Byte.x80; Byte.x02] 1 []) 2 5
                      REACHED_END [])
                   1 256
                   (mkReadBuffer [Byte.x03; Byte.x08; Byte.x80; Byte.x02] 4 [])
                   _ _ _ _ _ _)).
  - reflexivity.
  - simpl. lia.
  - lia.
  - lia.
  - vm_compute. reflexivity.
  - vm_compute. reflexivity.
Defined.

(** ** The dispatcher: the map of field numbers *)

Lemma setTraitsData_fields_lookup fs : forall index (map : gmap Z nat) number,
  setTraitsData_fields fs index map !! number =
  match map !! number with
  | Some i => Some i
  | None => find_leaf fs index number
  end.
Proof.
  induction fs as [|f fs IH]; intros index map number; simpl.
  - by destruct (map !! number).
  - destruct (nested_message f); rewrite IH; [done|].
    rewrite emplace_lookup. destruct (map !! number) as [i|]; [done|].
    destruct (decide (field_number f = number)) as [->|Hne].
    + by rewrite Z.eqb_refl.
    + by replace (field_number f =? number) with false by lia.
Qed.

Lemma find_leaf_Some fs : forall index number i,
  find_leaf fs index number = Some i ->
  (index <= i)%nat
  /\ exists f, fs !! (i - index)%nat = Some f
               /\ nested_message f = None /\ field_number f = number
               /\ forall j g, (j < i - index)%nat -> fs !! j = Some g ->
                    nested_message g = None -> field_number g <> number.
Proof.
  induction fs as [|f fs IH]; intros index number i; simpl; [done|].
  assert (Hrec : find_leaf fs (S index) number = Some i ->
            (nested_message f <> None \/ field_number f <> number) ->
            (index <= i)%nat
            /\ exists f0, (f :: fs) !! (i - index)%nat = Some f0
                 /\ nested_message f0 = None /\ field_number f0 = number
                 /\ forall j g, (j < i - index)%nat -> (f :: fs) !! j = Some g ->
                      nested_message g = None -> field_number g <> number).
  { intros H Hf. apply IH in H as (Hle & f0 & Hl & Hn & Hnum & Hfirst).
    split; [lia|]. exists f0.
    replace (i - index)%nat with (S (i - S index)) by lia.
    split; [done|]. split; [done|]. split; [done|].
    intros [|j] g Hj Hg Hleaf.
    - injection Hg as <-. by destruct Hf.
    - apply (Hfirst j g); [lia|done|done]. }
  destruct (nested_message f) eqn:En.
  - intros H. apply Hrec; [done|by left].
  - destruct (field_number f =? number) eqn:E.
    + intros [= <-]. split; [lia|]. exists f. rewrite Nat.sub_diag.
      split; [done|]. split; [done|]. split; [lia|]. intros j g Hj. lia.
    + intros H. apply Hrec; [done|right; lia].
Qed.

Lemma find_leaf_complete fs : forall index number j f,
  fs !! j = Some f -> nested_message f = None -> field_number f = number ->
  is_Some (find_leaf fs index number).
Proof.
  induction fs as [|g fs IH]; intros index number j f; [done|].
  destruct j as [|j]; simpl.
  - intros [= ->] -> ->. by rewrite Z.eqb_refl.
  - intros Hl Hn Hnum. destruct (nested_message g); [by eapply IH|].
    destruct (field_number g =? number); [done|by eapply IH].
Qed.

(** X14.  The map of field numbers that [setTraitsDataAfterMatchingColumns]
    builds for a message, starting from an empty map: a number is mapped to
    the first field of the message that has the number and no nested
    message; a field with a nested message is never in the map.  The parent
    and the fields of the message are left as they are. *)
Theorem setTraitsData_map_spec (messages : list Message) (id : nat) (m : Message)
    (number : Z) :
  messages !! id = Some m ->
  field_number_to_field_map m = ∅ ->
  exists m',
    setTraitsDataAfterMatchingColumns messages !! id = Some m'
    /\ parent m' = parent m /\ index_in_parent m' = index_in_parent m
    /\ fields m' = fields m
    /\ field_number_to_field_map m' !! number = find_leaf (fields m) 0 number
    /\ forall i, field_number_to_field_map m' !! number = Some i ->
         exists f, fields m !! i = Some f
                   /\ nested_message f = None /\ field_number f = number
                   /\ forall j g, (j < i)%nat -> fields m !! j = Some g ->
                        nested_message g = None -> field_number g <> number.
Proof.
  intros Hm Hempty. eexists. split.
  - unfold setTraitsDataAfterMatchingColumns.
    change (List.map ?f messages) with (f <$> messages).
    rewrite list_lookup_fmap, Hm. reflexivity.
  - cbn [parent index_in_parent fields field_number_to_field_map].
    rewrite setTraitsData_fields_lookup, Hempty, lookup_empty.
    repeat split. intros i Hi.
    apply find_leaf_Some in Hi as (_ & f & Hl & Hn & Hnum & Hfirst).
    rewrite Nat.sub_0_r in *. by exists f.
Qed.

Lemma setTraitsData_map_spec_witness :
  exists m',
    setTraitsDataAfterMatchingColumns
      [mkMessage None 0 [mkField 1 10 TYPE_MESSAGE (Some 1%nat);
                         mkField 2 11 TYPE_INT32 None;
                         mkField 2 12 TYPE_INT64 None] ∅;
       mkMessage (Some 0%nat) 0 [mkField 1 13 TYPE_INT32 None] ∅] !! 0%nat = Some m'
    /\ field_number_to_field_map m' !! 2 = Some 1%nat
    /\ field_number_to_field_map m' !! 1 = None.
Proof.
  destruct (setTraitsData_map_spec
              [mkMessage None 0 [mkField 1 10 TYPE_MESSAGE (Some 1%nat);
                                 mkField 2 11 TYPE_INT32 None;
                                 mkField 2 12 TYPE_INT64 None] ∅;
               mkMessage (Some 0%nat) 0 [mkField 1 13 TYPE_INT32 None] ∅]
              0
              (mkMessage None 0 [mkField 1 10 TYPE_MESSAGE (Some 1%nat);
                                 mkField 2 11 TYPE_INT32 None;
                                 mkField 2 12 TYPE_INT64 None] ∅)
              2 eq_refl eq_refl) as (m' & Hm' & _ & _ & _ & H2 & _).
  exists m'. split; [exact Hm'|]. split; [exact H2|].
  injection Hm' as <-. reflexivity.
Defined.

(** ** The dispatcher: fields of the schema *)

Lemma linear_advance_found fs : forall index number idx i,
  linear_advance fs index number = (idx, Some i) ->
  (index <= i)%nat
  /\ exists f, fs !! (i - index)%nat = Some f /\ field_number f = number.
Proof.
  induction fs as [|f fs IH]; intros index number idx i; simpl; [done|].
  destruct (field_number f =? number) eqn:E.
  - intros [= <- <-]. split; [lia|]. exists f. rewrite Nat.sub_diag. split; [done|lia].
  - destruct (field_number f >? number); [done|].
    intros H. apply IH in H as (Hle & g & Hg & Hn). split; [lia|]. exists g.
    by replace (i - index)%nat with (S (i - S index)) by lia.
Qed.

(** [readColumnIndex] begins with [readFieldNumber]: two states that differ
    in the scanner alone, on which [readFieldNumber] does the same, give the
    same call. *)
Lemma readColumnIndex_first messages fuel s1 s2 :
  readFieldNumber (simple_reader s1) = readFieldNumber (simple_reader s2) ->
  current_message s1 = current_message s2 ->
  current_field_index s1 = current_field_index s2 ->
  current_converter s1 = current_converter s2 ->
  readColumnIndex messages fuel s1 = readColumnIndex messages fuel s2.
Proof.
  intros Hr Hm Hi Hc. destruct fuel as [|fuel]; [reflexivity|].
  cbn [readColumnIndex]. unfold bind at 1. unfold on_simple_reader at 1.
  symmetry. unfold bind at 1. unfold on_simple_reader at 1.
  by rewrite Hr, Hm, Hi, Hc.
Qed.

Lemma at_fields_end message_end parents rb' r :
  at_fields message_end parents rb' r [] ->
  readFieldNumber r =
    Ok None (mkSimpleReader rb' message_end REACHED_END REACHED_END parents).
Proof.
  intros (Hf & Hc & He & Hlen & Hp & Hh). simpl in Hlen, Hh.
  apply holds_nil in Hh as ->.
  unfold readFieldNumber. munfold. rewrite Hf.
  change (negb (REACHED_END =? REACHED_END)) with false. cbv beta iota.
  replace (cursor r >=? current_message_end r) with true by lia.
  destruct r as [rb c e fe p]. simpl in *. rewrite Z.add_0_r in Hlen. by subst.
Qed.

Lemma at_fields_step message_end parents rb' r f fs :
  message_end < END_OF_GROUP ->
  wire_field_ok f ->
  at_fields message_end parents rb' r (f :: fs) ->
  exists r1 r',
    readFieldNumber r = Ok (Some (wf_number f)) r1
    /\ readFieldNumber r1 = readFieldNumber r'
    /\ at_fields message_end parents rb' r' fs.
Proof.
  intros Hg Hok (Hf & Hc & He & Hlen & Hp & Hh).
  unfold message_bytes in Hlen, Hh. simpl in Hlen, Hh. fold (message_bytes fs) in Hlen, Hh.
  rewrite length_app, Nat2Z.inj_add in Hlen.
  apply holds_app in Hh as (rb1 & Hh1 & Hh2).
  pose proof (wire_field_bytes_length f Hok) as Hl.
  destruct Hok as [Hn Hpay].
  destruct (readFieldNumber_field r (wf_number f) (wf_type f) (wf_payload f) rb1)
    as (r1 & Hread & _ & Hnext); try done.
  { lia. }
  { fold (wire_field_bytes f). rewrite END_OF_GROUP_eq in *. lia. }
  fold (wire_field_bytes f) in Hnext.
  exists r1. eexists. split; [exact Hread|]. split; [exact Hnext|].
  unfold at_fields. cbn [field_end cursor current_message_end parent_message_ends in_].
  repeat split; try done; lia.
Qed.

Lemma first_known_columns fields wfs :
  columns_of fields wfs =
  match first_known fields wfs with
  | None => []
  | Some (column, rest) => column :: columns_of fields rest
  end.
Proof.
  induction wfs as [|wf wfs IH]; [done|]. unfold columns_of in *. simpl.
  by destruct (column_of_number fields (wf_number wf)).
Qed.

Lemma first_known_rest fields wfs column rest :
  first_known fields wfs = Some (column, rest) ->
  (length rest < length wfs)%nat
  /\ (Forall wire_field_ok wfs -> Forall wire_field_ok rest).
Proof.
  induction wfs as [|wf wfs IH]; [done|]. simpl.
  destruct (column_of_number fields (wf_number wf)).
  - intros [= _ <-]. split; [lia|]. intros H. by apply Forall_cons in H as [_ H].
  - intros H. apply IH in H as [Hl Hall]. split; [lia|].
    intros H. apply Forall_cons in H as [_ H]. by apply Hall.
Qed.

Section KnownFields.

(** The current message of the dispatcher, with the map of field numbers as
    [setTraitsDataAfterMatchingColumns] builds it, and field numbers that
    differ from one another. *)
Variable messages : list Message.
Variable id : nat.
Variable message : Message.
Hypothesis Hmsg : messages !! id = Some message.
Hypothesis Hmap :
  field_number_to_field_map message = setTraitsData_fields (fields message) 0 ∅.
Hypothesis Hnodup : NoDup (field_number <$> fields message).

Lemma unique_field i j f g :
  fields message !! i = Some f -> fields message !! j = Some g ->
  field_number f = field_number g -> i = j.
Proof.
  intros Hi Hj Hn.
  apply (NoDup_lookup _ i j (field_number f) Hnodup);
    rewrite list_lookup_fmap, ?Hi, ?Hj; simpl; congruence.
Qed.

Lemma readColumnIndex_known st number r1 i field fuel :
  current_message st = Some id ->
  readFieldNumber (simple_reader st) = Ok (Some number) r1 ->
  fields message !! i = Some field ->
  field_number field = number ->
  nested_message field = None ->
  readColumnIndex messages (S fuel) st =
    Ok (Some (column_index field))
       (mkProtobufReader r1 (Some id)
          (fst (linear_advance (skipn (current_field_index st) (fields message))
                  (current_field_index st) number))
          (Some (id, i))).
Proof.
  intros Hcur Hread Hi Hnum Hleaf.
  cbn [readColumnIndex]. unfold bind at 1. unfold on_simple_reader at 1.
  rewrite Hread. unfold bind at 1. unfold get at 1.
  unfold bind at 1. cbn [current_message]. rewrite Hcur.
  unfold deref_message. rewrite Hmsg. unfold ret at 1.
  cbn [current_field_index].
  destruct (linear_advance (skipn (current_field_index st) (fields message))
              (current_field_index st) number) as [idx found] eqn:Hadv.
  unfold bind at 1. unfold modify at 1.
  assert (Hfound : match found with
                   | Some i0 => Some i0
                   | None => field_number_to_field_map message !! number
                   end = Some i).
  { destruct found as [j|].
    - apply linear_advance_found in Hadv as (Hle & g & Hg & Hgn).
      change (skipn ?n ?l) with (drop n l) in Hg. rewrite lookup_drop in Hg.
      replace (current_field_index st + (j - current_field_index st))%nat with j in Hg
        by lia.
      f_equal. apply (unique_field j i g field); congruence.
    - rewrite Hmap, setTraitsData_fields_lookup, lookup_empty.
      destruct (find_leaf_complete (fields message) 0 number i field Hi Hleaf Hnum)
        as [j Hj].
      rewrite Hj. apply find_leaf_Some in Hj as (_ & g & Hg & _ & Hgn & _).
      rewrite Nat.sub_0_r in Hg. f_equal.
      apply (unique_field j i g field); congruence. }
  rewrite Hfound, Hi, Hleaf. reflexivity.
Qed.

Lemma readColumnIndex_unknown st number r1 fuel :
  current_message st = Some id ->
  readFieldNumber (simple_reader st) = Ok (Some number) r1 ->
  (forall i f, fields message !! i = Some f -> field_number f <> number) ->
  readColumnIndex messages (S fuel) st =
    readColumnIndex messages fuel
      (mkProtobufReader r1 (Some id)
         (fst (linear_advance (skipn (current_field_index st) (fields message))
                 (current_field_index st) number))
         (current_converter st)).
Proof.
  intros Hcur Hread Hno.
  cbn [readColumnIndex]. unfold bind at 1. unfold on_simple_reader at 1.
  rewrite Hread. unfold bind at 1. unfold get at 1.
  unfold bind at 1. cbn [current_message]. rewrite Hcur.
  unfold deref_message. rewrite Hmsg. unfold ret at 1.
  cbn [current_field_index].
  destruct (linear_advance (skipn (current_field_index st) (fields message))
              (current_field_index st) number) as [idx found] eqn:Hadv.
  unfold bind at 1. unfold modify at 1.
  destruct found as [j|].
  - apply linear_advance_found in Hadv as (Hle & g & Hg & Hgn).
    change (skipn ?n ?l) with (drop n l) in Hg. rewrite lookup_drop in Hg.
    by destruct (Hno _ _ Hg).
  - rewrite Hmap, setTraitsData_fields_lookup, lookup_empty.
    destruct (find_leaf (fields message) 0 number) as [j|] eqn:Hj.
    + apply find_leaf_Some in Hj as (_ & g & Hg & _ & Hgn & _).
      by destruct (Hno _ _ Hg).
    + reflexivity.
Qed.

(** The message is the root and none of its fields has a nested message;
    the scanner is in a message that ends at [message_end]. *)
Hypothesis Hroot : parent message = None.
Hypothesis Hflat : Forall (fun f => nested_message f = None) (fields message).
Variable message_end : Z.
Variable parents : list Z.
Variable rb' : ReadBuffer.
Hypothesis Hend : message_end < END_OF_GROUP.

Lemma column_of_number_Some number column :
  column_of_number (fields message) number = Some column ->
  exists i f, fields message !! i = Some f /\ field_number f = number
              /\ nested_message f = None /\ column_index f = column.
Proof.
  unfold column_of_number.
  destruct (List.find (fun f => field_number f =? number) (fields message)) as [f|] eqn:E;
    [|done].
  intros [= <-]. apply find_some in E as [Hin Hn].
  apply list_elem_of_In, list_elem_of_lookup in Hin as [i Hi].
  exists i, f. split; [done|]. split; [lia|]. split; [|done].
  by apply (proj1 (Forall_lookup _ _) Hflat i f).
Qed.

Lemma column_of_number_None number :
  column_of_number (fields message) number = None ->
  forall i f, fields message !! i = Some f -> field_number f <> number.
Proof.
  unfold column_of_number.
  destruct (List.find (fun f => field_number f =? number) (fields message)) as [f|] eqn:E;
    [done|].
  intros _ i f Hi Hn.
  pose proof (find_none _ _ E f) as Hnone.
  assert (Hin : List.In f (fields message))
    by (apply list_elem_of_In, list_elem_of_lookup; by exists i).
  specialize (Hnone Hin). simpl in Hnone. lia.
Qed.

Lemma readColumnIndex_next fs : forall st r fuel,
  Forall wire_field_ok fs ->
  current_message st = Some id ->
  readFieldNumber (simple_reader st) = readFieldNumber r ->
  at_fields message_end parents rb' r fs ->
  (length fs < fuel)%nat ->
  match first_known (fields message) fs with
  | None =>
      exists idx,
        readColumnIndex messages fuel st =
          Ok None
             (mkProtobufReader
                (mkSimpleReader rb' message_end REACHED_END REACHED_END parents)
                (Some id) idx None)
  | Some (column, rest) =>
      exists st1 r1,
        readColumnIndex messages fuel st = Ok (Some column) st1
        /\ current_message st1 = Some id
        /\ readFieldNumber (simple_reader st1) = readFieldNumber r1
        /\ at_fields message_end parents rb' r1 rest
  end.
Proof.
  induction fs as [|f fs IH]; intros st r fuel Hall Hcur Hfirst Hat Hfuel;
    (destruct fuel as [|fuel]; [simpl in Hfuel; lia|]).
  - simpl. exists (current_field_index st).
    cbn [readColumnIndex]. unfold bind at 1. unfold on_simple_reader at 1.
    rewrite Hfirst, (at_fields_end _ _ _ _ Hat).
    unfold bind at 1. unfold get at 1.
    unfold bind at 1. cbn [current_message]. rewrite Hcur.
    unfold deref_message. rewrite Hmsg. unfold ret at 1.
    rewrite Hroot. reflexivity.
  - apply Forall_cons in Hall as [Hok Hall].
    destruct (at_fields_step _ _ _ _ _ _ Hend Hok Hat) as (r1 & r' & Hread & Hnext & Hat').
    rewrite <- Hfirst in Hread.
    simpl first_known.
    destruct (column_of_number (fields message) (wf_number f)) as [column|] eqn:Hcol.
    + apply column_of_number_Some in Hcol as (i & field & Hi & Hn & Hleaf & <-).
      rewrite (readColumnIndex_known st _ r1 i field fuel Hcur Hread Hi Hn Hleaf).
      eexists. exists r'. split; [reflexivity|].
      split; [reflexivity|]. split; [exact Hnext|exact Hat'].
    + pose proof (column_of_number_None _ Hcol) as Hno.
      rewrite (readColumnIndex_unknown st _ r1 fuel Hcur Hread Hno).
      apply (IH _ r'); try done. simpl in Hfuel. lia.
Qed.

Lemma readColumnIndex_repeat_fields n : forall fs st r fuel,
  (length fs <= n)%nat ->
  Forall wire_field_ok fs ->
  current_message st = Some id ->
  readFieldNumber (simple_reader st) = readFieldNumber r ->
  at_fields message_end parents rb' r fs ->
  (length fs < fuel)%nat ->
  exists idx,
    readColumnIndex_repeat messages fuel (S (length (columns_of (fields message) fs))) st =
      Ok (List.map Some (columns_of (fields message) fs) ++ [None])
         (mkProtobufReader
            (mkSimpleReader rb' message_end REACHED_END REACHED_END parents)
            (Some id) idx None).
Proof.
  induction n as [|n IH]; intros fs st r fuel Hn Hall Hcur Hfirst Hat Hfuel;
    pose proof (readColumnIndex_next fs st r fuel Hall Hcur Hfirst Hat Hfuel) as Hnext;
    rewrite first_known_columns;
    destruct (first_known (fields message) fs) as [[column rest]|] eqn:Hk.
  - apply first_known_rest in Hk as [Hl _]. lia.
  - destruct Hnext as (idx & Hcall). exists idx.
    simpl. unfold bind at 1. rewrite Hcall. reflexivity.
  - destruct Hnext as (st1 & r1 & Hcall & Hcur1 & Hfirst1 & Hat1).
    apply first_known_rest in Hk as [Hl Hall'].
    destruct (IH rest st1 r1 fuel ltac:(lia) (Hall' Hall) Hcur1 Hfirst1 Hat1 ltac:(lia))
      as (idx & Hrest).
    exists idx.
    change (readColumnIndex_repeat messages fuel
              (S (length (column :: columns_of (fields message) rest))) st)
      with ((do v <- readColumnIndex messages fuel;
             do vs <- readColumnIndex_repeat messages fuel
                        (S (length (columns_of (fields message) rest)));
             ret (v :: vs)) st).
    unfold bind at 1. rewrite Hcall. unfold bind at 1. rewrite Hrest. reflexivity.
  - destruct Hnext as (idx & Hcall). exists idx.
    simpl. unfold bind at 1. rewrite Hcall. reflexivity.
Qed.

End KnownFields.

(** X15.  A field of the schema is dispatched to its column wherever the
    dispatcher stands.  In a message whose field numbers differ from one
    another, with the map of field numbers as
    [setTraitsDataAfterMatchingColumns] builds it, a key with the number of
    a field that has no nested message makes [readColumnIndex] return the
    column of that field and select its converter, for every value of
    [current_field_index]; the field is left in progress for the converter
    to read. *)
Theorem readColumnIndex_yields_known_field
    (messages : list Message) (id : nat) (message : Message) (st : ProtobufReader)
    (number : Z) (r1 : SimpleReader) (i : nat) (field : Field) (fuel : nat) :
  messages !! id = Some message ->
  field_number_to_field_map message = setTraitsData_fields (fields message) 0 ∅ ->
  NoDup (field_number <$> fields message) ->
  current_message st = Some id ->
  readFieldNumber (simple_reader st) = Ok (Some number) r1 ->
  fields message !! i = Some field ->
  field_number field = number ->
  nested_message field = None ->
  exists index,
    readColumnIndex messages (S fuel) st =
      Ok (Some (column_index field))
         (mkProtobufReader r1 (Some id) index (Some (id, i))).
Proof.
  intros Hmsg Hmap Hnodup Hcur Hread Hi Hn Hleaf. eexists.
  by apply (readColumnIndex_known messages id message Hmsg Hmap Hnodup st number r1 i field).
Qed.

Lemma readColumnIndex_yields_known_field_witness :
  exists index,
    readColumnIndex
      [mkMessage None 0 [mkField 1 0 TYPE_INT32 None; mkField 2 1 TYPE_STRING None]
         (setTraitsData_fields
            [mkField 1 0 TYPE_INT32 None; mkField 2 1 TYPE_STRING None] 0 ∅)]
      1
      (mkProtobufReader
         (mkSimpleReader (mkReadBuffer [Byte.x02; Byte.x08; Byte.x05] 1 []) 2 4
            REACHED_END [])
         (Some 0%nat) 2 None)
    = Ok (Some 0)
         (mkProtobufReader
            (mkSimpleReader (mkReadBuffer [Byte.x02; Byte.x08; Byte.x05] 2 []) 3 4
               END_OF_VARINT [])
            (Some 0%nat) index (Some (0%nat, 0%nat))).
Proof.
  refine (readColumnIndex_yields_known_field
            [mkMessage None 0 [mkField 1 0 TYPE_INT32 None; mkField 2 1 TYPE_STRING None]
               (setTraitsData_fields
                  [mkField 1 0 TYPE_INT32 None; mkField 2 1 TYPE_STRING None] 0 ∅)]
            0
            (mkMessage None 0 [mkField 1 0 TYPE_INT32 None; mkField 2 1 TYPE_STRING None]
               (setTraitsData_fields
                  [mkField 1 0 TYPE_INT32 None; mkField 2 1 TYPE_STRING None] 0 ∅))
            (mkProtobufReader
               (mkSimpleReader (mkReadBuffer [Byte.x02; Byte.x08; Byte.x05] 1 []) 2 4
                  REACHED_END [])
               (Some 0%nat) 2 None)
            1
            (mkSimpleReader (mkReadBuffer [Byte.x02; Byte.x08; Byte.x05] 2 []) 3 4
               END_OF_VARINT [])
            0 (mkField 1 0 TYPE_INT32 None) 0 _ _ _ _ _ _ _ _).
  - reflexivity.
  - reflexivity.
  - apply (bool_decide_unpack _). vm_compute. exact I.
  - reflexivity.
  - vm_compute. reflexivity.
  - reflexivity.
  - reflexivity.
  - reflexivity.
Defined.

(** X16.  Reading a row of a flat schema.  The root message has no nested
    message and its field numbers differ from one another; the message in
    the stream is made of fields of the wire types VARINT, BITS64, BITS32
    and LENGTH_DELIMITED.  Successive calls of [readColumnIndex], none of
    them followed by a read of the value, return the columns of the fields
    of the stream that the schema has, in the order of the stream, and then
    false with no converter selected; the fields that the schema does not
    have are skipped, and exactly the bytes of the message are consumed. *)
Theorem readColumnIndex_reads_flat_row
    (messages : list Message) (id : nat) (message : Message) (st : ProtobufReader)
    (wfs : list wire_field) (rb' : ReadBuffer) (fuel : nat) :
  messages !! id = Some message ->
  field_number_to_field_map message = setTraitsData_fields (fields message) 0 ∅ ->
  NoDup (field_number <$> fields message) ->
  parent message = None ->
  Forall (fun f => nested_message f = None) (fields message) ->
  current_message st = Some id ->
  Forall wire_field_ok wfs ->
  field_end (simple_reader st) = REACHED_END ->
  0 < cursor (simple_reader st) ->
  current_message_end (simple_reader st) =
    cursor (simple_reader st) + Z.of_nat (length (message_bytes wfs)) ->
  current_message_end (simple_reader st) < END_OF_GROUP ->
  holds (in_ (simple_reader st)) (message_bytes wfs) rb' ->
  (length wfs < fuel)%nat ->
  exists index,
    readColumnIndex_repeat messages fuel (S (length (columns_of (fields message) wfs))) st =
      Ok (List.map Some (columns_of (fields message) wfs) ++ [None])
         (mkProtobufReader
            (mkSimpleReader rb' (current_message_end (simple_reader st)) REACHED_END
               REACHED_END (parent_message_ends (simple_reader st)))
            (Some id) index None).
Proof.
  intros Hmsg Hmap Hnodup Hroot Hflat Hcur Hall Hf Hc He Hg Hh Hfuel.
  apply (readColumnIndex_repeat_fields messages id message Hmsg Hmap Hnodup Hroot Hflat
           (current_message_end (simple_reader st))
           (parent_message_ends (simple_reader st)) rb' Hg
           (length wfs) wfs st (simple_reader st) fuel); try done.
Qed.

Lemma readColumnIndex_reads_flat_row_witness :
  exists index,
    readColumnIndex_repeat
      [mkMessage None 0 [mkField 1 0 TYPE_INT32 None; mkField 2 1 TYPE_STRING None]
         (setTraitsData_fields
            [mkField 1 0 TYPE_INT32 None; mkField 2 1 TYPE_STRING None] 0 ∅)]
      4 3
      (mkProtobufReader
         (mkSimpleReader
            (mkReadBuffer [Byte.x08; Byte.x12; Byte.x02; Byte.x68; Byte.x69; Byte.x38;
                           Byte.x05; Byte.x08; Byte.x05] 1 [])
            2 10 REACHED_END [])
         (Some 0%nat) 0 None)
    = Ok [Some 1; Some 0; None]
         (mkProtobufReader
            (mkSimpleReader
               (mkReadBuffer [Byte.x08; Byte.x12; Byte.x02; Byte.x68; Byte.x69; Byte.x38;
                              Byte.x05; Byte.x08; Byte.x05] 9 [])
               10 REACHED_END REACHED_END [])
            (Some 0%nat) index None).
Proof.
  refine (readColumnIndex_reads_flat_row
            [mkMessage None 0 [mkField 1 0 TYPE_INT32 None; mkField 2 1 TYPE_STRING None]
               (setTraitsData_fields
                  [mkField 1 0 TYPE_INT32 None; mkField 2 1 TYPE_STRING None] 0 ∅)]
            0
            (mkMessage None 0 [mkField 1 0 TYPE_INT32 None; mkField 2 1 TYPE_STRING None]
               (setTraitsData_fields
                  [mkField 1 0 TYPE_INT32 None; mkField 2 1 TYPE_STRING None] 0 ∅))
            (mkProtobufReader
               (mkSimpleReader
                  (mkReadBuffer [Byte.x08; Byte.x12; Byte.x02; Byte.x68; Byte.x69; Byte.x38;
                                 Byte.x05; Byte.x08; Byte.x05] 1 [])
                  2 10 REACHED_END [])
               (Some 0%nat) 0 None)
            [ mkWireField 2 LENGTH_DELIMITED
                (encodeVarint (Z.of_nat (length [Byte.x68; Byte.x69]))
                   ++ [Byte.x68; Byte.x69]);
              mkWireField 7 VARINT ([] ++ [Byte.x05]);
              mkWireField 1 VARINT ([] ++ [Byte.x05]) ]
            (mkReadBuffer [Byte.x08; Byte.x12; Byte.x02; Byte.x68; Byte.x69; Byte.x38;
                           Byte.x05; Byte.x08; Byte.x05] 9 [])
            4 _ _ _ _ _ _ _ _ _ _ _ _ _).
  - reflexivity.
  - reflexivity.
  - apply (bool_decide_unpack _). vm_compute. exact I.
  - reflexivity.
  - repeat constructor.
  - reflexivity.
  - repeat constructor; simpl; try lia.
  - reflexivity.
  - simpl. lia.
  - vm_compute. reflexivity.
  - vm_compute. reflexivity.
  - vm_compute. reflexivity.
  - simpl. lia.
Defined.

(** ** The end of a row: endRootMessage *)

Lemma load_next_nonempty w off later :
  concat later <> [] ->
  (offset (load_next w off later) < length (working_buffer (load_next w off later)))%nat.
Proof.
  induction later as [|w' later IH]; simpl; [done|].
  destruct w' as [|b w']; [exact IH|]. intros _. simpl. lia.
Qed.

Lemma fill_nonempty rb :
  unread rb <> [] -> (offset (fill rb) < length (working_buffer (fill rb)))%nat.
Proof.
  intros Hne. unfold fill.
  destruct (offset rb <? length (working_buffer rb))%nat eqn:E.
  - by apply Nat.ltb_lt.
  - apply Nat.ltb_ge in E. apply load_next_nonempty.
    unfold unread in Hne. by rewrite skipn_all2 in Hne.
Qed.

Lemma rb_read_byte_Some rb b rest :
  unread rb = b :: rest ->
  exists rb', rb_read_byte rb = Some (b, rb') /\ unread rb' = rest.
Proof.
  intros Hu.
  assert (Hlt : (offset (fill rb) < length (working_buffer (fill rb)))%nat)
    by (apply fill_nonempty; by rewrite Hu).
  destruct (nth_error (working_buffer (fill rb)) (offset (fill rb))) as [c|] eqn:E.
  - assert (Hread : rb_read_byte rb =
              Some (c, mkReadBuffer (working_buffer (fill rb)) (S (offset (fill rb)))
                         (next_buffers (fill rb))))
      by (unfold rb_read_byte; by rewrite E).
    pose proof (rb_read_byte_unread _ _ _ Hread) as Hu'.
    rewrite Hu in Hu'. injection Hu' as -> ->. by eexists.
  - apply nth_error_None in E. lia.
Qed.

Lemma rb_read_Some bs : forall rb rest,
  unread rb = bs ++ rest ->
  exists rb', holds rb bs rb' /\ unread rb' = rest.
Proof.
  induction bs as [|b bs IH]; intros rb rest Hu.
  - exists rb. split; [reflexivity|done].
  - destruct (rb_read_byte_Some rb b (bs ++ rest) Hu) as (rb1 & Hb & Hu1).
    destruct (IH rb1 rest Hu1) as (rb' & Hh & Hu').
    exists rb'. split; [|done]. unfold holds in *. simpl. by rewrite Hb, Hh.
Qed.

(** What [endRootMessage] does on a state whose cursor is in step with the
    stream. *)
Lemma endRootMessage_skips_rest (r0 r : SimpleReader)
    (body rest : list Byte.byte) :
  unread (in_ r0) = body ++ rest ->
  0 < cursor r0 ->
  cursor r0 + Z.of_nat (length (body ++ rest)) < 2 ^ 64 ->
  in_step r0 r ->
  root_message_end r = cursor r0 + Z.of_nat (length body) ->
  cursor r <= root_message_end r ->
  exists rb',
    endRootMessage r =
      Ok tt (mkSimpleReader rb' (root_message_end r) REACHED_END REACHED_END [])
    /\ unread rb' = rest.
Proof.
  intros Hu Hc Hmax (bs & Hbs & Hcur) Hend Hle.
  rewrite Hu in Hbs.
  pose proof (f_equal length Hbs) as Hlen. rewrite !length_app in Hlen.
  rewrite length_app in Hmax.
  assert (Hcur' : cursor r = cursor r0 + Z.of_nat (length bs)).
  { rewrite Hcur. unfold wrap64. rewrite Z.mod_small; lia. }
  assert (Hbody : (length bs <= length body)%nat) by lia.
  assert (Hrem : unread (in_ r) = drop (length bs) body ++ rest).
  { apply (f_equal (drop (length bs))) in Hbs.
    rewrite drop_app_le in Hbs by done.
    by rewrite drop_app_length in Hbs. }
  destruct (rb_read_Some _ _ _ Hrem) as (rb' & Hh & Hu').
  exists rb'. split; [|done].
  assert (Hl : Z.of_nat (length (drop (length bs) body)) = root_message_end r - cursor r).
  { rewrite length_drop. lia. }
  unfold endRootMessage. munfold. fold (root_message_end r).
  replace (root_message_end r =? REACHED_END) with false
    by (unfold REACHED_END; lia).
  cbv beta iota. change (negb false) with true. cbv beta iota.
  destruct (cursor r <? root_message_end r) eqn:E.
  - replace (wrap64 (root_message_end r - cursor r))
      with (Z.of_nat (length (drop (length bs) body)))
      by (rewrite Hl; unfold wrap64; rewrite Z.mod_small; lia).
    rewrite (ignore_holds r _ rb' Hh). rewrite Hl.
    unfold set_parent_message_ends, set_current_message_end, set_field_end,
      set_cursor, set_in.
    cbn [cursor in_ current_message_end field_end parent_message_ends].
    do 2 f_equal. unfold wrap64. rewrite Z.mod_small; lia.
  - replace (cursor r >? root_message_end r) with false by lia.
    assert (Hnil : drop (length bs) body = []).
    { apply length_zero_iff_nil. lia. }
    rewrite Hnil in Hh. apply holds_nil in Hh as ->.
    unfold set_parent_message_ends, set_current_message_end, set_field_end.
    cbn [cursor in_ current_message_end field_end parent_message_ends].
    do 2 f_equal. lia.
Qed.

(** X17.  [endRootMessage] brings the stream to the end of the row.  Let the
    root message be [body], followed in the stream by [rest], and let the
    reading of the row have stopped anywhere in the message with the cursor
    in step with the stream.  Then [endRootMessage] skips what is left of
    the message and nothing more: the stream is at [rest], the cursor is at
    the end of the message, and the scanner is closed. *)
Theorem endRootMessage_resynchronises (r0 r : SimpleReader)
    (body rest : list Byte.byte) :
  unread (in_ r0) = body ++ rest ->
  0 < cursor r0 ->
  cursor r0 + Z.of_nat (length (body ++ rest)) < 2 ^ 64 ->
  in_step r0 r ->
  root_message_end r = cursor r0 + Z.of_nat (length body) ->
  cursor r <= root_message_end r ->
  exists rb',
    endRootMessage r =
      Ok tt (mkSimpleReader rb' (root_message_end r) REACHED_END REACHED_END [])
    /\ unread rb' = rest.
Proof. apply endRootMessage_skips_rest. Qed.

Lemma endRootMessage_resynchronises_witness :
  exists rb',
    endRootMessage
      (mkSimpleReader (mkReadBuffer [Byte.x03; Byte.x08; Byte.x05; Byte.x10; Byte.x01] 2 [])
         3 7 END_OF_VARINT [4])
    = Ok tt (mkSimpleReader rb' 4 REACHED_END REACHED_END [])
    /\ unread rb' = [Byte.x10; Byte.x01].
Proof.
  refine (endRootMessage_resynchronises
            (mkSimpleReader
               (mkReadBuffer [Byte.x03; Byte.x08; Byte.x05; Byte.x10; Byte.x01] 1 [])
               2 4 REACHED_END [])
            (mkSimpleReader
               (mkReadBuffer [Byte.x03; Byte.x08; Byte.x05; Byte.x10; Byte.x01] 2 [])
               3 7 END_OF_VARINT [4])
            [Byte.x08; Byte.x05] [Byte.x10; Byte.x01] _ _ _ _ _ _).
  - reflexivity.
  - simpl. lia.
  - vm_compute. reflexivity.
  - exists [Byte.x08]. split; reflexivity.
  - reflexivity.
  - unfold root_message_end. simpl. lia.
Defined.

(** ** Rows: startMessage and endMessage of the dispatcher *)

(** X18.  Rows one after another.  On a closed scanner, [startMessage] of
    the dispatcher returns false at the end of the stream and changes
    nothing but the buffer in use; on a stream that holds a message with its
    length before it, [startMessage] followed at once by [endMessage] skips
    the length and the message and nothing more, and leaves the scanner
    closed with no message and no converter selected. *)
Theorem ProtobufReader_skips_row (st : ProtobufReader) :
  current_message_end (simple_reader st) = REACHED_END ->
  parent_message_ends (simple_reader st) = [] ->
  0 < cursor (simple_reader st) ->
  (unread (in_ (simple_reader st)) = [] ->
   exists rb',
     ProtobufReader_startMessage st =
       Ok false (mkProtobufReader (set_in rb' (simple_reader st)) (current_message st)
                   (current_field_index st) (current_converter st))
     /\ unread rb' = [])
  /\ (forall body rest,
        let row := encodeVarint (Z.of_nat (length body)) ++ body in
        unread (in_ (simple_reader st)) = row ++ rest ->
        cursor (simple_reader st) + Z.of_nat (length (row ++ rest)) < 2 ^ 64 ->
        exists rb',
          (run ProtobufReader_startMessage; ProtobufReader_endMessage) st =
            Ok tt (mkProtobufReader
                     (mkSimpleReader rb'
                        (cursor (simple_reader st) + Z.of_nat (length row))
                        REACHED_END REACHED_END [])
                     None 0 None)
          /\ unread rb' = rest).
Proof.
  intros He Hp Hc.
  assert (Hclosed : (current_message_end (simple_reader st) =? REACHED_END)
                    && match parent_message_ends (simple_reader st) with
                       | [] => true
                       | _ => false
                       end = true)
    by (by rewrite He, Hp).
  split.
  - intros Hu. exists (fill (in_ (simple_reader st))). split; [|by rewrite unread_fill].
    unfold ProtobufReader_startMessage. unfold bind at 1. unfold on_simple_reader.
    unfold startMessage. unfold bind at 1. unfold get at 1. rewrite Hclosed.
    unfold bind at 1. unfold in_eof, rb_eof.
    assert (Heof : (offset (fill (in_ (simple_reader st)))
                    <? length (working_buffer (fill (in_ (simple_reader st)))))%nat = false).
    { apply Nat.ltb_ge. rewrite <- unread_fill in Hu. unfold unread in Hu.
      apply app_eq_nil in Hu as [Hu _].
      apply (f_equal length) in Hu. rewrite length_skipn in Hu. simpl in Hu. lia. }
    rewrite Heof. reflexivity.
  - intros body rest row Hu Hmax. unfold row in *.
    rewrite !length_app, !Nat2Z.inj_add in Hmax.
    set (L := Z.of_nat (length body)) in *.
    assert (HL : 0 <= L < 2 ^ 64) by (unfold L; lia).
    pose proof (encodeVarint_length L HL) as Hlk.
    set (r := simple_reader st) in *.
    set (rf := set_in (fill (in_ r)) r).
    assert (Hne : (offset (fill (in_ r)) <? length (working_buffer (fill (in_ r))))%nat
                  = true).
    { apply Nat.ltb_lt, fill_nonempty. rewrite Hu.
      destruct (encodeVarint L) as [|b l] eqn:E; [simpl in Hlk; lia|done]. }
    rewrite <- app_assoc in Hu.
    destruct (rb_read_Some (encodeVarint L) (fill (in_ r)) (body ++ rest)
                ltac:(by rewrite unread_fill)) as (rb1 & Hh1 & Hu1).
    pose proof (readVarint_encodeVarint rf L rb1 HL Hh1) as Hread.
    set (lk := Z.of_nat (length (encodeVarint L))) in *.
    assert (Hw : wrap64 (cursor rf + lk) = cursor r + lk)
      by (unfold wrap64; rewrite Z.mod_small; unfold rf; simpl; lia).
    rewrite Hw in Hread.
    set (r0 := mkSimpleReader rb1 (cursor r + lk) (cursor r + lk + L) REACHED_END []).
    assert (Hstart : startMessage r = Ok true r0).
    { unfold startMessage. unfold bind at 1. unfold get at 1. rewrite Hclosed.
      unfold bind at 1. unfold in_eof, rb_eof. rewrite Hne. cbn [negb]. cbv beta iota.
      fold rf. unfold bind at 1. rewrite Hread. munfold.
      unfold set_field_end, set_current_message_end, set_cursor, set_in, rf, r0.
      cbn [cursor in_ current_message_end field_end parent_message_ends].
      change (parent_message_ends (set_in (fill (in_ r)) r)) with (parent_message_ends r).
      rewrite Hp. do 2 f_equal. unfold wrap64. rewrite Z.mod_small; lia. }
    destruct (endRootMessage_skips_rest r0 r0 body rest) as (rb' & Hendroot & Hrest);
      unfold r0; cbn [cursor in_ current_message_end field_end parent_message_ends
                      root_message_end]; try done; try lia.
    { rewrite length_app, Nat2Z.inj_add. lia. }
    { apply in_step_refl. simpl. lia. }
    exists rb'. split; [|done].
    unfold ProtobufReader_startMessage, ProtobufReader_endMessage.
    unfold bind at 1. unfold bind at 1. unfold on_simple_reader at 1.
    fold r. rewrite Hstart. cbn [negb]. cbv beta iota.
    munfold. cbn [simple_reader set_current_field_index set_current_message].
    fold r0. rewrite Hendroot.
    unfold set_current_converter, set_current_message, set_current_field_index,
      root_message_end, r0.
    cbn [simple_reader current_message current_field_index current_converter
         parent_message_ends current_message_end].
    rewrite length_app, Nat2Z.inj_add. fold L lk. by rewrite Z.add_assoc.
Qed.

Lemma ProtobufReader_skips_row_witness :
  exists rb',
    (run ProtobufReader_startMessage; ProtobufReader_endMessage)
      (ProtobufReader_init (mkReadBuffer [Byte.x02; Byte.x08; Byte.x05; Byte.x00] 0 []))
    = Ok tt (mkProtobufReader (mkSimpleReader rb' 4 REACHED_END REACHED_END []) None 0 None)
    /\ unread rb' = [Byte.x00].
Proof.
  refine (proj2 (ProtobufReader_skips_row
                   (ProtobufReader_init
                      (mkReadBuffer [Byte.x02; Byte.x08; Byte.x05; Byte.x00] 0 []))
                   _ _ _)
            [Byte.x08; Byte.x05] [Byte.x00] _ _).
  - reflexivity.
  - reflexivity.
  - simpl. lia.
  - reflexivity.
  - vm_compute. reflexivity.
Defined.

(** ** The dispatcher: nested messages *)

(** X19.  The field of a nested message is reached by the linear advance
    alone.  In a message whose field numbers differ from one another, with
    the map of field numbers as [setTraitsDataAfterMatchingColumns] builds
    it, after the key of a field that has a nested message
    [readColumnIndex] enters the nested message when the linear advance from
    [current_field_index] finds the field: the end of the enclosing message
    is pushed, the end of the field becomes the end of the message, and the
    search goes on in the nested message from its first field.  When the
    linear advance does not find the field, the map does not have it
    either, and the nested message is passed over as a field that the schema
    does not have. *)
Theorem readColumnIndex_nested_field
    (messages : list Message) (id : nat) (message : Message) (st : ProtobufReader)
    (number : Z) (r1 : SimpleReader) (i : nat) (field : Field) (nested : nat)
    (fuel : nat) :
  messages !! id = Some message ->
  field_number_to_field_map message = setTraitsData_fields (fields message) 0 ∅ ->
  NoDup (field_number <$> fields message) ->
  current_message st = Some id ->
  readFieldNumber (simple_reader st) = Ok (Some number) r1 ->
  current_message_end r1 <> REACHED_END ->
  fields message !! i = Some field ->
  field_number field = number ->
  nested_message field = Some nested ->
  readColumnIndex messages (S fuel) st =
    readColumnIndex messages fuel
      (match linear_advance (skipn (current_field_index st) (fields message))
               (current_field_index st) number with
       | (_, Some _) =>
           mkProtobufReader
             (mkSimpleReader (in_ r1) (cursor r1) (field_end r1) REACHED_END
                (parent_message_ends r1 ++ [current_message_end r1]))
             (Some nested) 0 (current_converter st)
       | (index, None) =>
           mkProtobufReader r1 (Some id) index (current_converter st)
       end).
Proof.
  intros Hmsg Hmap Hnodup Hcur Hread Hopen Hi Hnum Hnested.
  cbn [readColumnIndex]. unfold bind at 1. unfold on_simple_reader at 1.
  rewrite Hread. unfold bind at 1. unfold get at 1.
  unfold bind at 1. cbn [current_message]. rewrite Hcur.
  unfold deref_message. rewrite Hmsg. unfold ret at 1.
  cbn [current_field_index].
  destruct (linear_advance (skipn (current_field_index st) (fields message))
              (current_field_index st) number) as [idx found] eqn:Hadv.
  unfold bind at 1. unfold modify at 1.
  destruct found as [j|].
  - apply linear_advance_found in Hadv as (Hle & g & Hg & Hgn).
    change (skipn ?n ?l) with (drop n l) in Hg. rewrite lookup_drop in Hg.
    replace (current_field_index st + (j - current_field_index st))%nat with j in Hg
      by lia.
    assert (j = i) as ->
      by (apply (unique_field message Hnodup j i g field); congruence).
    rewrite Hi, Hnested.
    unfold bind at 1. unfold on_simple_reader at 1.
    cbn [simple_reader set_current_field_index].
    unfold startMessage. unfold bind at 1. unfold get at 1.
    replace (current_message_end r1 =? REACHED_END) with false by lia.
    cbn [andb]. cbv beta iota. munfold.
    unfold set_current_message, set_current_field_index, set_field_end,
      set_current_message_end, set_parent_message_ends.
    cbn [simple_reader current_message current_field_index current_converter
         in_ cursor current_message_end field_end parent_message_ends].
    reflexivity.
  - rewrite Hmap, setTraitsData_fields_lookup, lookup_empty.
    destruct (find_leaf (fields message) 0 number) as [j|] eqn:Hj; [|reflexivity].
    apply find_leaf_Some in Hj as (_ & g & Hg & Hleaf & Hgn & _).
    rewrite Nat.sub_0_r in Hg.
    assert (j = i) as -> by (apply (unique_field message Hnodup j i g field); congruence).
    congruence.
Qed.

Lemma readColumnIndex_nested_field_witness :
  readColumnIndex nested_schema 2
    (mkProtobufReader
       (mkSimpleReader
          (mkReadBuffer [Byte.x04; Byte.x0a; Byte.x02; Byte.x08; Byte.x07] 1 [])
          2 6 REACHED_END [])
       (Some 0%nat) 0 None)
  = readColumnIndex nested_schema 1
      (mkProtobufReader
         (mkSimpleReader
            (mkReadBuffer [Byte.x04; Byte.x0a; Byte.x02; Byte.x08; Byte.x07] 3 [])
            4 6 REACHED_END [6])
         (Some 1%nat) 0 None).
Proof.
  refine (readColumnIndex_nested_field nested_schema 0
            (mkMessage None 0 [mkField 1 0 TYPE_MESSAGE (Some 1%nat)]
               (setTraitsData_fields [mkField 1 0 TYPE_MESSAGE (Some 1%nat)] 0 ∅))
            (mkProtobufReader
               (mkSimpleReader
                  (mkReadBuffer [Byte.x04; Byte.x0a; Byte.x02; Byte.x08; Byte.x07] 1 [])
                  2 6 REACHED_END [])
               (Some 0%nat) 0 None)
            1
            (mkSimpleReader
               (mkReadBuffer [Byte.x04; Byte.x0a; Byte.x02; Byte.x08; Byte.x07] 3 [])
               4 6 6 [])
            0 (mkField 1 0 TYPE_MESSAGE (Some 1%nat)) 1 1 _ _ _ _ _ _ _ _ _).
  - reflexivity.
  - reflexivity.
  - apply (bool_decide_unpack _). vm_compute. exact I.
  - reflexivity.
  - vm_compute. reflexivity.
  - simpl. unfold REACHED_END. lia.
  - reflexivity.
  - reflexivity.
  - reflexivity.
Defined.

(** X20.  The end of a nested message.  When the cursor has reached the end
    of a nested message, [readColumnIndex] closes its frame, which gives the
    scanner the end of the enclosing message back, and goes on in the parent
    message from the field of the nested message. *)
Theorem readColumnIndex_leaves_nested_message
    (messages : list Message) (id : nat) (message : Message) (parent_message : nat)
    (st : ProtobufReader) (parents : list Z) (parent_end : Z) (fuel : nat) :
  messages !! id = Some message ->
  parent message = Some parent_message ->
  current_message st = Some id ->
  field_end (simple_reader st) = REACHED_END ->
  cursor (simple_reader st) = current_message_end (simple_reader st) ->
  parent_message_ends (simple_reader st) = parents ++ [parent_end] ->
  readColumnIndex messages (S fuel) st =
    readColumnIndex messages fuel
      (mkProtobufReader
         (mkSimpleReader (in_ (simple_reader st)) (cursor (simple_reader st)) parent_end
            REACHED_END parents)
         (Some parent_message) (index_in_parent message) (current_converter st)).
Proof.
  intros Hmsg Hparent Hcur Hf Hc Hp.
  assert (Hread : readFieldNumber (simple_reader st) =
            Ok None (set_current_message_end REACHED_END (simple_reader st))).
  { unfold readFieldNumber. munfold. rewrite Hf.
    change (negb (REACHED_END =? REACHED_END)) with false. cbv beta iota.
    by replace (cursor (simple_reader st) >=? current_message_end (simple_reader st))
      with true by lia. }
  assert (Hend : endMessage (set_current_message_end REACHED_END (simple_reader st)) =
            Ok tt (mkSimpleReader (in_ (simple_reader st)) (cursor (simple_reader st))
                     parent_end REACHED_END parents)).
  { unfold endMessage. munfold.
    unfold set_current_message_end at 1.
    cbn [current_message_end].
    change (negb (REACHED_END =? REACHED_END)) with false. cbv beta iota.
    unfold set_field_end, set_current_message_end, set_parent_message_ends.
    cbn [in_ cursor current_message_end field_end parent_message_ends].
    rewrite Hp. rewrite last_last, removelast_last.
    by destruct parents. }
  cbn [readColumnIndex]. unfold bind at 1. unfold on_simple_reader at 1.
  rewrite Hread. unfold bind at 1. unfold get at 1.
  unfold bind at 1. cbn [current_message]. rewrite Hcur.
  unfold deref_message. rewrite Hmsg. unfold ret at 1.
  rewrite Hparent.
  unfold bind at 1. unfold on_simple_reader at 1. cbn [simple_reader].
  rewrite Hend. munfold. reflexivity.
Qed.

Lemma readColumnIndex_leaves_nested_message_witness :
  readColumnIndex nested_schema 2
    (mkProtobufReader
       (mkSimpleReader
          (mkReadBuffer [Byte.x04; Byte.x0a; Byte.x02; Byte.x08; Byte.x07] 5 [])
          6 6 REACHED_END [6])
       (Some 1%nat) 0 None)
  = readColumnIndex nested_schema 1
      (mkProtobufReader
         (mkSimpleReader
            (mkReadBuffer [Byte.x04; Byte.x0a; Byte.x02; Byte.x08; Byte.x07] 5 [])
            6 6 REACHED_END [])
         (Some 0%nat) 0 None).
Proof.
  refine (readColumnIndex_leaves_nested_message nested_schema 1
            (mkMessage (Some 0%nat) 0 [mkField 1 0 TYPE_INT32 None]
               (setTraitsData_fields [mkField 1 0 TYPE_INT32 None] 0 ∅))
            0
            (mkProtobufReader
               (mkSimpleReader
                  (mkReadBuffer [Byte.x04; Byte.x0a; Byte.x02; Byte.x08; Byte.x07] 5 [])
                  6 6 REACHED_END [6])
               (Some 1%nat) 0 None)
            [] 6 1 _ _ _ _ _ _).
  - reflexivity.
  - reflexivity.
  - reflexivity.
  - reflexivity.
  - reflexivity.
  - reflexivity.
Defined.

(** ** Packed fields of numbers *)

Lemma readUInt_element r u rb1 :
  0 <= u < 2 ^ 64 ->
  holds (in_ r) (encodeVarint u) rb1 ->
  0 <= cursor r ->
  cursor r + Z.of_nat (length (encodeVarint u)) <= field_end r ->
  field_end r < END_OF_GROUP ->
  readUInt r =
    Ok (Some u)
       (mkSimpleReader rb1 (cursor r + Z.of_nat (length (encodeVarint u)))
          (current_message_end r)
          (if cursor r + Z.of_nat (length (encodeVarint u)) >=? field_end r
           then REACHED_END else field_end r)
          (parent_message_ends r)).
Proof.
  intros Hu Hh Hc Hle Hg. rewrite END_OF_GROUP_eq in Hg.
  pose proof (encodeVarint_length u Hu) as Hlen.
  rewrite (readUInt_one r u _ ltac:(lia) (readVarint_encodeVarint r u rb1 Hu Hh)).
  replace (field_end r =? END_OF_VARINT) with false
    by (symmetry; apply Z.eqb_neq; rewrite END_OF_VARINT_eq; lia).
  cbn [orb]. unfold set_field_end, set_cursor, set_in.
  cbn [cursor field_end in_ current_message_end parent_message_ends].
  replace (wrap64 (cursor r + Z.of_nat (length (encodeVarint u))))
    with (cursor r + Z.of_nat (length (encodeVarint u)))
    by (unfold wrap64; rewrite Z.mod_small; lia).
  by destruct (cursor r + Z.of_nat (length (encodeVarint u)) >=? field_end r).
Qed.

Lemma readFixed_element r size bs rb1 :
  0 < size ->
  Z.of_nat (length bs) = size ->
  holds (in_ r) bs rb1 ->
  0 <= cursor r ->
  cursor r + size <= field_end r ->
  field_end r < END_OF_GROUP ->
  readFixed size r =
    Ok (Some bs)
       (mkSimpleReader rb1 (cursor r + size) (current_message_end r)
          (if cursor r + size >=? field_end r then REACHED_END else field_end r)
          (parent_message_ends r)).
Proof.
  intros Hs Hl Hh Hc Hle Hg. rewrite END_OF_GROUP_eq in Hg.
  unfold readFixed. munfold.
  replace (cursor r >=? field_end r) with false by lia.
  unfold readBinary, in_readStrict, add_cursor. munfold.
  unfold holds in Hh. rewrite <- Hl, Nat2Z.id, Hh.
  unfold set_field_end, set_cursor, set_in.
  cbn [cursor field_end in_ current_message_end parent_message_ends].
  rewrite Hl. replace (wrap64 (cursor r + size)) with (cursor r + size)
    by (unfold wrap64; rewrite Z.mod_small; lia).
  by destruct (cursor r + size >=? field_end r).
Qed.

Lemma encode_number_length ft T v :
  number_carrier ft = Some T -> is_integral T = true -> in_range T v = true ->
  (1 <= length (encode_number ft v))%nat.
Proof.
  intros HT Hint Hv. apply in_range_iff in Hv.
  destruct ft; try discriminate HT; injection HT as <-; try discriminate Hint;
    simpl in Hv; cbn [encode_number]; rewrite ?le_bytes_length; try lia.
  - pose proof (encodeVarint_length (of_Int64 v) (wrap64_range v)). lia.
  - pose proof (encodeVarint_length v ltac:(lia)). lia.
  - pose proof (encodeVarint_length (of_Int64 v) (wrap64_range v)). lia.
  - pose proof (encodeVarint_length v ltac:(lia)). lia.
  - pose proof (encodeVarint_length _ (encodeZigZag_range v ltac:(lia))). lia.
  - pose proof (encodeVarint_length _ (encodeZigZag_range v ltac:(lia))). lia.
Qed.

(** One element of a field: [readField] decodes it and finishes the field
    when the cursor has reached its end. *)
Lemma FromNumber_readField_element ft T v r rb1 :
  number_carrier ft = Some T ->
  is_integral T = true ->
  in_range T v = true ->
  holds (in_ r) (encode_number ft v) rb1 ->
  0 <= cursor r ->
  cursor r + Z.of_nat (length (encode_number ft v)) <= field_end r ->
  field_end r < END_OF_GROUP ->
  FromNumber_readField ft r =
    Ok (Some v)
       (mkSimpleReader rb1 (cursor r + Z.of_nat (length (encode_number ft v)))
          (current_message_end r)
          (if cursor r + Z.of_nat (length (encode_number ft v)) >=? field_end r
           then REACHED_END else field_end r)
          (parent_message_ends r)).
Proof.
  intros HT Hint Hv Hh Hc Hle Hg. apply in_range_iff in Hv.
  assert (Hvarint : forall u,
            encode_number ft v = encodeVarint u -> 0 <= u < 2 ^ 64 ->
            readUInt r =
              Ok (Some u)
                 (mkSimpleReader rb1 (cursor r + Z.of_nat (length (encode_number ft v)))
                    (current_message_end r)
                    (if cursor r + Z.of_nat (length (encode_number ft v)) >=? field_end r
                     then REACHED_END else field_end r)
                    (parent_message_ends r))).
  { intros u He Hu. rewrite He in *. by apply readUInt_element. }
  assert (Hfixed : forall size,
            Z.of_nat (length (encode_number ft v)) = size -> 0 < size ->
            readFixed size r =
              Ok (Some (encode_number ft v))
                 (mkSimpleReader rb1 (cursor r + Z.of_nat (length (encode_number ft v)))
                    (current_message_end r)
                    (if cursor r + Z.of_nat (length (encode_number ft v)) >=? field_end r
                     then REACHED_END else field_end r)
                    (parent_message_ends r))).
  { intros size Hl Hs. rewrite Hl in *. by apply readFixed_element. }
  destruct ft; try discriminate HT; injection HT as <-; try discriminate Hint;
    simpl in Hv;
    unfold FromNumber_readField, readInt, readSInt, option_map_value; unfold bind.
  - rewrite (Hvarint (of_Int64 v) eq_refl (wrap64_range v)).
    unfold ret. by rewrite to_Int64_of_Int64 by lia.
  - by rewrite (Hvarint v eq_refl ltac:(lia)).
  - rewrite (Hvarint (of_Int64 v) eq_refl (wrap64_range v)).
    unfold ret. by rewrite to_Int64_of_Int64 by lia.
  - rewrite (Hfixed 8 eq_refl ltac:(lia)). unfold ret, encode_number at 1.
    rewrite le_value_le_bytes. change (256 ^ Z.of_nat 8) with (2 ^ 64).
    by rewrite Z.mod_small by lia.
  - rewrite (Hfixed 4 eq_refl ltac:(lia)). unfold ret, encode_number at 1.
    rewrite le_value_le_bytes. change (256 ^ Z.of_nat 4) with (2 ^ 32).
    by rewrite Z.mod_small by lia.
  - by rewrite (Hvarint v eq_refl ltac:(lia)).
  - rewrite (Hfixed 4 eq_refl ltac:(lia)). unfold ret, encode_number at 1.
    rewrite le_value_le_bytes.
    change (256 ^ Z.of_nat 4) with (num_max Int32 - num_lowest Int32 + 1).
    rewrite static_cast_mod; [done|done|by apply in_range_iff].
  - rewrite (Hfixed 8 eq_refl ltac:(lia)). unfold ret, encode_number at 1.
    rewrite le_value_le_bytes.
    change (256 ^ Z.of_nat 8) with (num_max Int64 - num_lowest Int64 + 1).
    rewrite static_cast_mod; [done|done|by apply in_range_iff].
  - rewrite (Hvarint (encodeZigZag v) eq_refl (encodeZigZag_range v ltac:(lia))).
    unfold ret. by rewrite decodeZigZag_encodeZigZag by lia.
  - rewrite (Hvarint (encodeZigZag v) eq_refl (encodeZigZag_range v ltac:(lia))).
    unfold ret. by rewrite decodeZigZag_encodeZigZag by lia.
Qed.

(** X21.  A packed field of numbers.  For each of the ten integral field
    types, on a field whose payload is the encodings of the values [vs] one
    after another, successive calls of [readField] of the number converter
    return the values one by one, the field is finished with the last of
    them with the cursor at its end, and the call after the last one returns
    false. *)
Theorem FromNumber_readField_packed (ft : FieldType) (T : NumType) (vs : list Z)
    (r : SimpleReader) (rb' : ReadBuffer) :
  number_carrier ft = Some T ->
  is_integral T = true ->
  vs <> [] ->
  Forall (fun v => in_range T v = true) vs ->
  holds (in_ r) (concat (List.map (encode_number ft) vs)) rb' ->
  0 <= cursor r ->
  field_end r = cursor r + Z.of_nat (length (concat (List.map (encode_number ft) vs))) ->
  field_end r < END_OF_GROUP ->
  FromNumber_readField_repeat ft (S (length vs)) r =
    Ok (List.map Some vs ++ [None])
       (mkSimpleReader rb' (field_end r) (current_message_end r) REACHED_END
          (parent_message_ends r)).
Proof.
  revert r rb'.
  induction vs as [|v vs IH]; intros r rb' HT Hint Hne Hall Hh Hc Hf Hg; [done|].
  apply Forall_cons in Hall as [Hv Hall].
  simpl in Hh, Hf. apply holds_app in Hh as (rb1 & Hh1 & Hh2).
  rewrite length_app, Nat2Z.inj_add in Hf.
  pose proof (encode_number_length ft T v HT Hint Hv) as Hlen.
  change (FromNumber_readField_repeat ft (S (length (v :: vs))) r)
    with ((do x <- FromNumber_readField ft;
           do xs <- FromNumber_readField_repeat ft (S (length vs));
           ret (x :: xs)) r).
  unfold bind at 1.
  rewrite (FromNumber_readField_element ft T v r rb1 HT Hint Hv Hh1 Hc ltac:(lia) Hg).
  destruct vs as [|v' vs].
  - simpl in Hh2, Hf. apply holds_nil in Hh2 as ->.
    replace (cursor r + Z.of_nat (length (encode_number ft v)) >=? field_end r)
      with true by lia.
    simpl FromNumber_readField_repeat. unfold bind at 1. unfold bind at 1.
    rewrite (FromNumber_readField_finished ft T); cbn [field_end cursor]; try done;
      try lia.
    unfold bind, ret. simpl. do 2 f_equal. lia.
  - apply Forall_cons in Hall as Hall'. destruct Hall' as [Hv' _].
    pose proof (encode_number_length ft T v' HT Hint Hv') as Hlen'.
    assert (Hrest : (1 <= length (concat (List.map (encode_number ft) (v' :: vs))))%nat)
      by (simpl; rewrite length_app; lia).
    replace (cursor r + Z.of_nat (length (encode_number ft v)) >=? field_end r)
      with false by lia.
    unfold bind at 1.
    rewrite (IH _ rb'); try done; cbn [cursor field_end current_message_end
                                       parent_message_ends in_]; lia.
Qed.

Lemma FromNumber_readField_packed_witness :
  FromNumber_readField_repeat TYPE_SFIXED32 3
    (mkSimpleReader
       (mkReadBuffer [Byte.xfe; Byte.xff; Byte.xff; Byte.xff;
                      Byte.x07; Byte.x00; Byte.x00; Byte.x00] 0 [])
       4 20 12 [])
  = Ok [Some (-2); Some 7; None]
       (mkSimpleReader
          (mkReadBuffer [Byte.xfe; Byte.xff; Byte.xff; Byte.xff;
                         Byte.x07; Byte.x00; Byte.x00; Byte.x00] 8 [])
          12 20 REACHED_END []).
Proof.
  refine (FromNumber_readField_packed TYPE_SFIXED32 Int32 [-2; 7]
            (mkSimpleReader
               (mkReadBuffer [Byte.xfe; Byte.xff; Byte.xff; Byte.xff;
                              Byte.x07; Byte.x00; Byte.x00; Byte.x00] 0 [])
               4 20 12 [])
            (mkReadBuffer [Byte.xfe; Byte.xff; Byte.xff; Byte.xff;
                           Byte.x07; Byte.x00; Byte.x00; Byte.x00] 8 [])
            _ _ _ _ _ _ _ _).
  - reflexivity.
  - reflexivity.
  - discriminate.
  - repeat constructor.
  - vm_compute. reflexivity.
  - simpl. lia.
  - reflexivity.
  - vm_compute. reflexivity.
Defined.
